(** * Coverage object utilities (lib/object-utils.js)

    A shallow embedding of the coverage-object utilities and the proofs of
    their specification.

    The JavaScript objects the functions receive live in a store of objects
    addressed by references, so that in-place updates, sharing and the deep
    copy made by [mergeFileCoverage] are visible.  Objects a function creates
    for its own result and fills before returning them (the metric and summary
    objects, the YUI coverage object) are plain values.

    Numbers: execution counts, totals and line numbers are integers ([Z]);
    an integer that double precision has no number for stands for no value of
    the engine.  The arithmetic is the one of the engine: a sum, a product or
    a quotient is the double precision number nearest to the exact result
    ([double]), which is the exact result as long as that is an integer up to
    2^53.  The numbers of the entries of an object and of the elements of an
    array, which stay far below 2^53, are counted exactly.  Overflow (a result
    of 2^1024 or more) and the negative zero are left out.  A percentage is
    kept as the decimal fraction of two places ([Q]) that the number the code
    returns is the nearest double precision number to.

    Properties are looked up on the object itself.  An object of the engine
    has the properties of [Object.prototype] as well, which are not modelled:
    [Object_prototype_names] lists them, and a theorem about a key that an
    object lacks excludes these names where the code goes on with the
    inherited property. *)

From Stdlib Require Import Ascii QArith Qround Qpower Lqa.
From stdpp Require Import gmap strings list fin_maps pretty.

Local Open Scope Z_scope.
Set Warnings "-register-all,-clear-no-such-hyp".

(** ** Values and the store *)

Abbreviation loc := positive.

(** The values a coverage object is made of, and the ones the operators of the
    module can produce from them ([undefined], [null] and [NaN]). *)
Inductive val :=
  | VUndef
  | VNull
  | VNaN
  | VNum (n : Z)
  | VStr (s : string)
  | VRef (l : loc).

(** A plain object is its table of own properties; an array is the list of its
    elements. *)
Inductive object :=
  | Obj (props : gmap string val)
  | Arr (elems : list val).

Abbreviation heap := (gmap loc object).

#[global] Instance val_eq_dec : EqDecision val.
Proof. solve_decision. Defined.

#[global] Instance val_inhabited : Inhabited val := populate VUndef.

(** [Object.keys] enumerates the own properties of an object in an order that
    ECMAScript 5 leaves to the engine.  The development is parametric in it. *)
Class KeyOrder := {
  own_keys : gmap string val → list string;
  own_keys_perm : ∀ m, own_keys m ≡ₚ (map_to_list m).*1
}.

(** The order in which the map itself lists its keys is one such order. *)
#[global, refine] Instance canonical_order : KeyOrder :=
  {| own_keys m := (map_to_list m).*1 |}.
Proof. done. Defined.

(** ** Computations: a store, and the exceptions of the engine *)

Inductive error :=
  | TypeError    (* the engine throws a TypeError *)
  | SyntaxError  (* JSON.parse throws a SyntaxError *)
  | OutOfModel.  (* the operation needs a part of the language left out here *)

Inductive result (A : Type) :=
  | Ok (a : A)
  | Err (e : error).
Arguments Ok {A} a.
Arguments Err {A} e.

Definition M (A : Type) : Type := heap → result A * heap.

#[global] Instance M_ret : MRet M := λ A a h, (Ok a, h).

#[global] Instance M_bind : MBind M := λ A B f m h,
  match m h with
  | (Ok a, h') => f a h'
  | (Err e, h') => (Err e, h')
  end.

Definition throw {A} (e : error) : M A := λ h, (Err e, h).

Definition lift {A} (r : result A) : M A := λ h, (r, h).


Definition deref (l : loc) : M object := λ h,
  match h !! l with
  | Some o => (Ok o, h)
  | None => (Err OutOfModel, h)
  end.

Definition store (l : loc) (o : object) : M unit := λ h, (Ok tt, <[l := o]> h).

(** A new object gets a reference that the store does not use yet. *)
Definition alloc (o : object) : M val := λ h,
  let l := fresh (dom h) in (Ok (VRef l), <[l := o]> h).

Fixpoint forEach {A} (xs : list A) (f : A → M unit) : M unit :=
  match xs with
  | [] => mret tt
  | x :: xs' => f x ;; forEach xs' f
  end.

(** A loop whose callback updates an object of the function itself: the
    object is the accumulator. *)
Fixpoint foldM {A B} (f : B → A → M B) (acc : B) (xs : list A) : M B :=
  match xs with
  | [] => mret acc
  | x :: xs' => acc' ← f acc x; foldM f acc' xs'
  end.

Fixpoint filterM {A} (f : A → M bool) (xs : list A) : M (list A) :=
  match xs with
  | [] => mret []
  | x :: xs' =>
      keep ← f x;
      rest ← filterM f xs';
      mret (if keep : bool then x :: rest else rest)
  end.

(** ** Double precision numbers *)

(** The integer nearest to [y], the even one when two are as near. *)
Definition round_half_even (y : Q) : Z :=
  let n := Qfloor y in
  match (y - inject_Z n ?= 1 # 2)%Q with
  | Lt => n
  | Eq => if Z.even n then n else n + 1
  | Gt => n + 1
  end.

(** For a positive [x], the [e] with [2^e <= x < 2^(e+1)]. *)
Definition binade (x : Q) : Z :=
  let e := Z.log2 (Qnum x) - Z.log2 (Zpos (Qden x)) in
  if Qle_bool (2 ^ e) x then e else e - 1.

(** The number of 53 binary digits nearest to a positive [x]. *)
Definition nearest53 (x : Q) : Q :=
  let ulp := (2 ^ (binade x - 52))%Q in
  (inject_Z (round_half_even (x / ulp)) * ulp)%Q.

(** The double precision number nearest to [x], the one with the even last
    digit when two are as near (the rounding of every arithmetic operation
    of the engine). *)
Definition double (x : Q) : Q :=
  match Qnum x with
  | 0 => 0%Q
  | Zpos _ => nearest53 x
  | Zneg _ => (- nearest53 (- x))%Q
  end.

(** [m + n] on numbers: the double precision number nearest to the sum.  A
    sum with 0 is the other number as it is. *)
Definition double_add (m n : Z) : Z :=
  if decide (m = 0) then n
  else if decide (n = 0) then m
  else Qfloor (double (inject_Z (m + n))).

(** ** Operators *)

(** [ToBoolean]. *)
Definition truthy (v : val) : bool :=
  match v with
  | VUndef | VNull | VNaN => false
  | VNum n => negb (n =? 0)
  | VStr s => negb (String.eqb s "")
  | VRef _ => true
  end.

(** [ToNumber]; [None] is [NaN].  Strings and objects are not converted. *)
Definition ToNumber (v : val) : result (option Z) :=
  match v with
  | VUndef | VNaN => Ok None
  | VNull => Ok (Some 0)
  | VNum n => Ok (Some n)
  | VStr _ | VRef _ => Err OutOfModel
  end.

Definition of_number (n : option Z) : val :=
  match n with
  | Some n => VNum n
  | None => VNaN
  end.

(** [ToString], which also gives the property key a value stands for.
    Objects are not converted. *)
Definition ToString (v : val) : result string :=
  match v with
  | VUndef => Ok "undefined"%string
  | VNull => Ok "null"%string
  | VNaN => Ok "NaN"%string
  | VNum n => Ok (pretty n)
  | VStr s => Ok s
  | VRef _ => Err OutOfModel
  end.

(** [a < b] on numbers. *)
Definition js_lt (a b : val) : M bool :=
  x ← lift (ToNumber a);
  y ← lift (ToNumber b);
  mret (match x, y with
        | Some m, Some n => bool_decide (m < n)
        | _, _ => false
        end).

(** [a + b]: concatenation as soon as one side is a string, else addition. *)
Definition js_add (a b : val) : M val :=
  match a, b with
  | VRef _, _ | _, VRef _ => throw OutOfModel
  | VStr s, _ => t ← lift (ToString b); mret (VStr (s +:+ t))
  | _, VStr t => s ← lift (ToString a); mret (VStr (s +:+ t))
  | _, _ =>
      x ← lift (ToNumber a);
      y ← lift (ToNumber b);
      mret (of_number (m ← x; n ← y; Some (double_add m n)))
  end.

(** ** Properties *)

(** The position an array keeps under the key [k], among the first [n]. *)
Definition array_index (k : string) (n : nat) : option nat :=
  fst <$> list_find (λ i, k = pretty (Z.of_nat i)) (seq 0 n).

Definition own_prop (o : object) (k : string) : val :=
  match o with
  | Obj props => default VUndef (props !! k)
  | Arr elems =>
      if decide (k = "length"%string) then VNum (Z.of_nat (length elems))
      else default VUndef (array_index k (length elems) ≫= (elems !!.))
  end.

(** [base[k]]. *)
Definition get (base : val) (k : string) : M val :=
  match base with
  | VRef l => o ← deref l; mret (own_prop o k)
  | VUndef | VNull => throw TypeError
  | VNum _ | VNaN => mret VUndef
  | VStr _ => throw OutOfModel
  end.

(** [o[k] = v] on the object itself.  An array is updated in place at one of
    its positions and grows by one at the position after the last; sparse
    arrays and other properties of arrays are left out. *)
Definition put_prop (o : object) (k : string) (v : val) : result object :=
  match o with
  | Obj props => Ok (Obj (<[k := v]> props))
  | Arr elems =>
      match array_index k (S (length elems)) with
      | Some i =>
          if decide (i < length elems)%nat then Ok (Arr (<[i := v]> elems))
          else Ok (Arr (elems ++ [v]))
      | None => Err OutOfModel
      end
  end.

(** [base[k] = v]; an assignment to a property of a number is dropped. *)
Definition set (base : val) (k : string) (v : val) : M unit :=
  match base with
  | VRef l => o ← deref l; o' ← lift (put_prop o k v); store l o'
  | VUndef | VNull => throw TypeError
  | VNum _ | VNaN => mret tt
  | VStr _ => throw OutOfModel
  end.

(** [delete base[k]]. *)
Definition delete_prop (base : val) (k : string) : M unit :=
  match base with
  | VRef l =>
      o ← deref l;
      match o with
      | Obj props => store l (Obj (delete k props))
      | Arr _ => throw OutOfModel
      end
  | VUndef | VNull => throw TypeError
  | VNum _ | VNaN => mret tt
  | VStr _ => throw OutOfModel
  end.

(** [arr.filter(f)]: only an array has the method.  The array it returns is
    used for its length alone and is not put in the store. *)
Definition array_filter (arr : val) (f : val → M bool) : M (list val) :=
  match arr with
  | VRef l =>
      o ← deref l;
      match o with
      | Arr elems => filterM f elems
      | Obj _ => throw TypeError
      end
  | _ => throw TypeError
  end.

(** [arr.length] of an array. *)
Definition array_length (arr : val) : M Z :=
  len ← get arr "length";
  match len with
  | VNum n => mret n
  | _ => throw OutOfModel
  end.

(** [for (i = from; cond(i); i += 1) body(i)].  [fuel] bounds the number of
    times the condition is evaluated. *)
Fixpoint for_loop (fuel : nat) (i : Z) (cond : Z → M bool) (body : Z → M unit) : M unit :=
  match fuel with
  | O => throw OutOfModel
  | S fuel' =>
      continue ← cond i;
      if continue : bool then body i;; for_loop fuel' (i + 1) cond body
      else mret tt
  end.

(** The evaluations of [i < len] in a loop that counts [i] up from 0. *)
Definition loop_bound (len : val) : nat :=
  match len with
  | VNum n => S (Z.to_nat n)
  | _ => 1
  end.

(** ** JSON *)

Inductive json :=
  | JNull
  | JNum (n : Z)
  | JStr (s : string)
  | JArr (elems : list json)
  | JObj (props : list (string * json)).

#[global] Instance result_ret : MRet result := λ A a, Ok a.

#[global] Instance result_bind : MBind result := λ A B f r,
  match r with
  | Ok a => f a
  | Err e => Err e
  end.

(** [f] on the elements of a list, from the first to the last. *)
Definition traverseM {A B} (f : A → M B) : list A → M (list B) :=
  fix go xs :=
    match xs with
    | [] => mret []
    | x :: xs' => y ← f x; ys ← go xs'; mret (y :: ys)
    end.

(** [JSON.parse] of a text that denotes [j]: every array and object of [j] is
    a new object of the store. *)
Fixpoint JSON_parse (j : json) : M val :=
  match j with
  | JNull => mret VNull
  | JNum n => mret (VNum n)
  | JStr s => mret (VStr s)
  | JArr elems =>
      vs ← traverseM JSON_parse elems;
      alloc (Arr vs)
  | JObj props =>
      kvs ← traverseM (λ '(k, j), v ← JSON_parse j; mret (k, v)) props;
      alloc (Obj (list_to_map kvs))
  end.

(** ** Summaries *)

(** A percentage is a number, or the string 'Unknown' of a blank summary. *)
Inductive percentage :=
  | Pct (q : Q)
  | Unknown.

Record metrics := Metrics {
  total : Z;
  covered : Z;
  pct : percentage
}.

Record summary := Summary {
  lines : metrics;
  statements : metrics;
  functions : metrics;
  branches : metrics
}.

(** The keys of a summary, and the access [ret[key]]. *)
Inductive category := Lines | Statements | Branches | Functions.

Definition category_get (key : category) (s : summary) : metrics :=
  match key with
  | Lines => lines s
  | Statements => statements s
  | Branches => branches s
  | Functions => functions s
  end.

Definition category_set (key : category) (m : metrics) (s : summary) : summary :=
  match key with
  | Lines => Summary m (statements s) (functions s) (branches s)
  | Statements => Summary (lines s) m (functions s) (branches s)
  | Branches => Summary (lines s) (statements s) (functions s) m
  | Functions => Summary (lines s) (statements s) m (branches s)
  end.

(** function percent(covered, total): every operation rounds, but for
    [Math.floor], which is exact, and the last division, whose result is kept
    as the fraction. *)
Definition percent (covered total : Z) : Q :=
  if bool_decide (total > 0) then
    let tmp :=
      double (double (double (1000 * 100 * inject_Z covered) / inject_Z total) + 5) in
    (inject_Z (Qfloor (double (tmp / 10))) / 100)%Q
  else 100%Q.

(** function blankSummary() *)
Definition blankSummary : summary :=
  {| lines := {| total := 0; covered := 0; pct := Unknown |};
     statements := {| total := 0; covered := 0; pct := Unknown |};
     functions := {| total := 0; covered := 0; pct := Unknown |};
     branches := {| total := 0; covered := 0; pct := Unknown |} |}.

(** function mergeSummaryObjects(): the arguments are the list [args]; an
    argument that is not given, [undefined] or [null], is [None]. *)
Definition mergeSummaryObjects (args : list (option summary)) : summary :=
  let ret := blankSummary in
  let keys := [Lines; Statements; Branches; Functions] in
  let increment (ret : summary) (obj : option summary) : summary :=
    match obj with
    | Some obj =>
        foldl (λ ret key,
          let m := category_get key ret in
          let m := Metrics (double_add (total m) (total (category_get key obj)))
                     (covered m) (pct m) in
          let m := Metrics (total m)
                     (double_add (covered m) (covered (category_get key obj))) (pct m) in
          category_set key m ret) ret keys
    | None => ret
    end in
  let ret := foldl increment ret args in
  foldl (λ ret key,
    let m := category_get key ret in
    category_set key (Metrics (total m) (covered m) (Pct (percent (covered m) (total m)))) ret)
    ret keys.

(** The per-file object of the [yuitest_coverage] format. *)
Module YUI.
Record file := File {
  lines : gmap string val;
  calledLines : Z;
  coveredLines : Z;
  functions : gmap string val;
  calledFunctions : Z;
  coveredFunctions : Z
}.

Definition set_lines (x : gmap string val) (o : file) : file :=
  File x (calledLines o) (coveredLines o) (functions o) (calledFunctions o) (coveredFunctions o).
Definition set_calledLines (x : Z) (o : file) : file :=
  File (lines o) x (coveredLines o) (functions o) (calledFunctions o) (coveredFunctions o).
Definition set_coveredLines (x : Z) (o : file) : file :=
  File (lines o) (calledLines o) x (functions o) (calledFunctions o) (coveredFunctions o).
Definition set_functions (x : gmap string val) (o : file) : file :=
  File (lines o) (calledLines o) (coveredLines o) x (calledFunctions o) (coveredFunctions o).
Definition set_calledFunctions (x : Z) (o : file) : file :=
  File (lines o) (calledLines o) (coveredLines o) (functions o) x (coveredFunctions o).
Definition set_coveredFunctions (x : Z) (o : file) : file :=
  File (lines o) (calledLines o) (coveredLines o) (functions o) (calledFunctions o) x.
End YUI.

Section Engine.
Context `{!KeyOrder}.

(** [Object.keys(v)]. *)
Definition Object_keys (v : val) : M (list string) :=
  match v with
  | VRef l =>
      o ← deref l;
      mret (match o with
            | Obj props => own_keys props
            | Arr elems => (λ i, pretty (Z.of_nat i)) <$> seq 0 (length elems)
            end)
  | VUndef | VNull => throw TypeError
  | _ => throw OutOfModel
  end.

(** [JSON.stringify(v)], as the value the text denotes; [None] when there is
    no text ([undefined]).  A reference met with no [fuel] left closes a cycle:
    with as much fuel as the store has objects, only a circular structure runs
    out of it. *)
Fixpoint stringify (fuel : nat) (h : heap) (v : val) : result (option json) :=
  match v with
  | VUndef => Ok None
  | VNull | VNaN => Ok (Some JNull)
  | VNum n => Ok (Some (JNum n))
  | VStr s => Ok (Some (JStr s))
  | VRef l =>
      match fuel with
      | O => Err TypeError
      | S fuel' =>
          match h !! l with
          | None => Err OutOfModel
          | Some (Arr elems) =>
              js ← mapM (λ v, j ← stringify fuel' h v; Ok (default JNull j)) elems;
              Ok (Some (JArr js))
          | Some (Obj props) =>
              kvs ← mapM (λ k, j ← stringify fuel' h (default VUndef (props !! k));
                               Ok (option_list ((k,.) <$> j)))
                         (own_keys props);
              Ok (Some (JObj (concat kvs)))
          end
      end
  end.

Definition JSON_stringify (v : val) : M (option json) := λ h,
  (stringify (size h) h v, h).

(** [JSON.parse(JSON.stringify(v))] *)
Definition JSON_clone (v : val) : M val :=
  text ← JSON_stringify v;
  match text with
  | Some j => JSON_parse j
  | None => throw SyntaxError
  end.

(** ** Derived line coverage *)

(** function addDerivedInfoForFile(fileCoverage) *)
Definition addDerivedInfoForFile (fileCoverage : val) : M unit :=
  statementMap ← get fileCoverage "statementMap";
  statements ← get fileCoverage "s";
  l ← get fileCoverage "l";
  if truthy l then mret tt
  else
    lineMap ← alloc (Obj ∅);
    set fileCoverage "l" lineMap;;
    keys ← Object_keys statements;
    forEach keys (λ st,
      entry ← get statementMap st;
      start ← get entry "start";
      line ← get start "line";
      count ← get statements st;
      key ← lift (ToString line);
      prevVal ← get lineMap key;
      smaller ← (if decide (prevVal = VUndef) then mret true
                 else js_lt prevVal count);
      if smaller : bool then set lineMap key count else mret tt).

(** function addDerivedInfo(coverage) *)
Definition addDerivedInfo (coverage : val) : M unit :=
  keys ← Object_keys coverage;
  forEach keys (λ k,
    fileCoverage ← get coverage k;
    addDerivedInfoForFile fileCoverage).

(** function removeDerivedInfo(coverage) *)
Definition removeDerivedInfo (coverage : val) : M unit :=
  keys ← Object_keys coverage;
  forEach keys (λ k,
    fileCoverage ← get coverage k;
    delete_prop fileCoverage "l").

(** function computeSimpleTotals(fileCoverage, property) *)
Definition computeSimpleTotals (fileCoverage : val) (property : string) : M metrics :=
  stats ← get fileCoverage property;
  keys ← Object_keys stats;
  ret ← foldM (λ '(total, covered) key,
           let total := total + 1 in
           v ← get stats key;
           mret (total, if truthy v then covered + 1 else covered))
         (0, 0) keys;
  mret {| total := ret.1; covered := ret.2; pct := Pct (percent ret.2 ret.1) |}.

(** function computeBranchTotals(fileCoverage) *)
Definition computeBranchTotals (fileCoverage : val) : M metrics :=
  stats ← get fileCoverage "b";
  keys ← Object_keys stats;
  ret ← foldM (λ '(total, covered) key,
           branches ← get stats key;
           covered_arms ← array_filter branches (λ num, js_lt (VNum 0) num);
           len ← array_length branches;
           mret (total + len, covered + Z.of_nat (length covered_arms)))
         (0, 0) keys;
  mret {| total := ret.1; covered := ret.2; pct := Pct (percent ret.2 ret.1) |}.

(** function summarizeFileCoverage(fileCoverage) *)
Definition summarizeFileCoverage (fileCoverage : val) : M summary :=
  let ret := blankSummary in
  addDerivedInfoForFile fileCoverage;;
  m ← computeSimpleTotals fileCoverage "l";
  let ret := category_set Lines m ret in
  m ← computeSimpleTotals fileCoverage "f";
  let ret := category_set Functions m ret in
  m ← computeSimpleTotals fileCoverage "s";
  let ret := category_set Statements m ret in
  m ← computeBranchTotals fileCoverage;
  let ret := category_set Branches m ret in
  mret ret.

(** function mergeFileCoverage(first, second) *)
Definition mergeFileCoverage (first second : val) : M val :=
  ret ← JSON_clone first;
  delete_prop ret "l";;
  second_s ← get second "s";
  keys ← Object_keys second_s;
  forEach keys (λ k,
    ret_s ← get ret "s";
    old ← get ret_s k;
    second_s ← get second "s";
    v ← get second_s k;
    sum ← js_add old v;
    set ret_s k sum);;
  second_f ← get second "f";
  keys ← Object_keys second_f;
  forEach keys (λ k,
    ret_f ← get ret "f";
    old ← get ret_f k;
    second_f ← get second "f";
    v ← get second_f k;
    sum ← js_add old v;
    set ret_f k sum);;
  second_b ← get second "b";
  keys ← Object_keys second_b;
  forEach keys (λ k,
    ret_b ← get ret "b";
    retArray ← get ret_b k;
    second_b ← get second "b";
    secondArray ← get second_b k;
    len ← get retArray "length";
    for_loop (loop_bound len) 0
      (λ i, len ← get retArray "length"; js_lt (VNum i) len)
      (λ i,
        old ← get retArray (pretty i);
        v ← get secondArray (pretty i);
        sum ← js_add old v;
        set retArray (pretty i) sum));;
  mret ret.

(** function toYUICoverage(coverage) *)
Definition toYUICoverage (coverage : val) : M (gmap string YUI.file) :=
  let ret : gmap string YUI.file := ∅ in
  addDerivedInfo coverage;;
  keys ← Object_keys coverage;
  foldM (λ ret k,
    fileCoverage ← get coverage k;
    lines ← get fileCoverage "l";
    functions ← get fileCoverage "f";
    fnMap ← get fileCoverage "fnMap";
    let o := YUI.File ∅ 0 0 ∅ 0 0 in
    keys ← Object_keys lines;
    o ← foldM (λ o k,
           v ← get lines k;
           let o := YUI.set_lines (<[k := v]> (YUI.lines o)) o in
           let o := YUI.set_coveredLines (YUI.coveredLines o + 1) o in
           v ← get lines k;
           called ← js_lt (VNum 0) v;
           mret (if called : bool
                 then YUI.set_calledLines (YUI.calledLines o + 1) o else o))
         o keys;
    keys ← Object_keys functions;
    o ← foldM (λ o k,
           entry ← get fnMap k;
           name ← get entry "name";
           name ← js_add name (VStr ":");
           entry ← get fnMap k;
           line ← get entry "line";
           name ← js_add name line;
           name ← lift (ToString name);
           v ← get functions k;
           let o := YUI.set_functions (<[name := v]> (YUI.functions o)) o in
           let o := YUI.set_coveredFunctions (YUI.coveredFunctions o + 1) o in
           v ← get functions k;
           called ← js_lt (VNum 0) v;
           mret (if called : bool
                 then YUI.set_calledFunctions (YUI.calledFunctions o + 1) o else o))
         o keys;
    mret (<[k := o]> ret))
  ret keys.

End Engine.

(** * What the specification says *)

(** ** Percentages *)


(** The number [percent] takes the integer part of, for a total above 0. *)
Definition percent_scaled (covered total : Z) : Q :=
  double (double (double (double (1000 * 100 * inject_Z covered) / inject_Z total) + 5) / 10).


(** ** Summaries *)

(** The summary with the same counts and every percentage computed anew. *)
Definition recompute (s : summary) : summary :=
  let pc m := Metrics (total m) (covered m) (Pct (percent (covered m) (total m))) in
  Summary (pc (lines s)) (pc (statements s)) (pc (functions s)) (pc (branches s)).

(** What one argument adds to the summary being built. *)
Definition add_counts (ret : summary) (obj : option summary) : summary :=
  let add m n :=
    Metrics (double_add (total m) (total n)) (double_add (covered m) (covered n)) (pct m) in
  match obj with
  | Some o =>
      Summary (add (lines ret) (lines o)) (add (statements ret) (statements o))
              (add (functions ret) (functions o)) (add (branches ret) (branches o))
  | None => ret
  end.

(** An argument that adds nothing: it is not given, or all its counts are 0. *)
Definition no_counts (obj : option summary) : Prop :=
  match obj with
  | None => True
  | Some s => ∀ key, total (category_get key s) = 0 ∧ covered (category_get key s) = 0
  end.

(** Every percentage of the summary is the one of its counts. *)
Definition consistent (s : summary) : Prop :=
  ∀ key, pct (category_get key s)
         = Pct (percent (covered (category_get key s)) (total (category_get key s))).

(** ** Coverage records in the store *)

(** The data of a file coverage object: the start line of every statement,
    the name and line of every function, and the counters.  [l] is [None]
    as long as the object has no property of that name. *)
Module FileCoverage.
Record t := Make {
  statementMap : gmap string Z;
  s : gmap string Z;
  fnMap : gmap string (string * Z);
  f : gmap string Z;
  b : gmap string (list Z);
  l : option (gmap string Z)
}.
End FileCoverage.

(** [f] on every value of the map, if it is defined on all of them. *)
Definition traverse {A B} (f : A → option B) (m : gmap string A) : option (gmap string B) :=
  if decide (map_Forall (λ _ x, is_Some (f x)) m) then Some (omap f m) else None.

Definition as_num (v : val) : option Z :=
  match v with
  | VNum n => Some n
  | _ => None
  end.

Definition as_str (v : val) : option string :=
  match v with
  | VStr s => Some s
  | _ => None
  end.

Definition read_object (h : heap) (v : val) : option (gmap string val) :=
  match v with
  | VRef l => match h !! l with Some (Obj props) => Some props | _ => None end
  | _ => None
  end.

Definition read_array (h : heap) (v : val) : option (list val) :=
  match v with
  | VRef l => match h !! l with Some (Arr elems) => Some elems | _ => None end
  | _ => None
  end.

(** An object whose properties are all counts: [s], [f] and [l]. *)
Definition read_counts (h : heap) (v : val) : option (gmap string Z) :=
  props ← read_object h v; traverse as_num props.

(** The counts of the arms of one branch. *)
Definition read_arms (h : heap) (v : val) : option (list Z) :=
  elems ← read_array h v; mapM as_num elems.

Definition read_branches (h : heap) (v : val) : option (gmap string (list Z)) :=
  props ← read_object h v; traverse (read_arms h) props.

(** [entry.start.line] of an entry of the statement map. *)
Definition read_start_line (h : heap) (entry : val) : option Z :=
  props ← read_object h entry;
  start ← props !! "start"%string;
  props ← read_object h start;
  line ← props !! "line"%string;
  as_num line.

Definition read_statementMap (h : heap) (v : val) : option (gmap string Z) :=
  props ← read_object h v; traverse (read_start_line h) props.

(** [entry.name] and [entry.line] of an entry of the function map. *)
Definition read_function (h : heap) (entry : val) : option (string * Z) :=
  props ← read_object h entry;
  name ← props !! "name"%string ≫= as_str;
  line ← props !! "line"%string ≫= as_num;
  Some (name, line).

Definition read_fnMap (h : heap) (v : val) : option (gmap string (string * Z)) :=
  props ← read_object h v; traverse (read_function h) props.

(** The file coverage object [v] of the store [h]. *)
Definition read_file (h : heap) (v : val) : option FileCoverage.t :=
  props ← read_object h v;
  statementMap ← props !! "statementMap"%string ≫= read_statementMap h;
  s ← props !! "s"%string ≫= read_counts h;
  fnMap ← props !! "fnMap"%string ≫= read_fnMap h;
  f ← props !! "f"%string ≫= read_counts h;
  b ← props !! "b"%string ≫= read_branches h;
  l ← match props !! "l"%string with
      | None => Some None
      | Some v => Some <$> read_counts h v
      end;
  Some (FileCoverage.Make statementMap s fnMap f b l).

(** One round of the loop of [addDerivedInfoForFile], on the data. *)
Definition line_step (lines s : gmap string Z) (acc : gmap string Z) (st : string) :
    gmap string Z :=
  match lines !! st, s !! st with
  | Some line, Some count =>
      match acc !! pretty line with
      | Some prev => if bool_decide (prev < count) then <[pretty line := count]> acc else acc
      | None => <[pretty line := count]> acc
      end
  | _, _ => acc
  end.

(** The line coverage of the statements [ks]: the loop invariant. *)
Definition lines_of (lines s : gmap string Z) (ks : list string) (lm : gmap string Z) : Prop :=
  (∀ key, key ∈ dom lm ↔
          ∃ st line, st ∈ ks ∧ lines !! st = Some line ∧ key = pretty line) ∧
  (∀ line c, lm !! pretty line = Some c →
     (∃ st, st ∈ ks ∧ lines !! st = Some line ∧ s !! st = Some c) ∧
     (∀ st c', st ∈ ks → lines !! st = Some line → s !! st = Some c' → c' ≤ c)).

(** [h'] has the objects of [h], unchanged but for the property [l] of the
    object [p], and maybe more. *)
Definition same_but_l (p : loc) (h h' : heap) : Prop :=
  ∀ x o, h !! x = Some o →
    if decide (x = p)
    then ∃ props props', o = Obj props ∧ h' !! x = Some (Obj props') ∧
           ∀ k, k ≠ "l"%string → props' !! k = props !! k
    else h' !! x = Some o.

(** ** Sample data *)

(** A store with two coverage objects of one file with three statements (two
    of them on line 1), one function and one branch with three arms, from two
    runs, and a coverage object that holds the first under its path. *)
Definition sample_store : heap :=
  let object (l : list (string * val)) := Obj (list_to_map l) in
  list_to_map [
    (1%positive, object [("path", VStr "a.js"); ("s", VRef 2); ("statementMap", VRef 3);
                         ("f", VRef 8); ("fnMap", VRef 9); ("b", VRef 11)]);
    (2%positive, object [("s1", VNum 1); ("s2", VNum 0); ("s3", VNum 4)]);
    (3%positive, object [("s1", VRef 4); ("s2", VRef 4); ("s3", VRef 6)]);
    (4%positive, object [("start", VRef 5)]);
    (5%positive, object [("line", VNum 1); ("column", VNum 0)]);
    (6%positive, object [("start", VRef 7)]);
    (7%positive, object [("line", VNum 2); ("column", VNum 4)]);
    (8%positive, object [("f1", VNum 3)]);
    (9%positive, object [("f1", VRef 10)]);
    (10%positive, object [("name", VStr "foo"); ("line", VNum 1)]);
    (11%positive, object [("br1", VRef 12)]);
    (12%positive, Arr [VNum 1; VNum 0; VNum 2]);
    (21%positive, object [("path", VStr "a.js"); ("s", VRef 22); ("statementMap", VRef 3);
                          ("f", VRef 28); ("fnMap", VRef 9); ("b", VRef 31)]);
    (22%positive, object [("s1", VNum 2); ("s2", VNum 3); ("s3", VNum 0)]);
    (28%positive, object [("f1", VNum 0)]);
    (31%positive, object [("br1", VRef 32)]);
    (32%positive, Arr [VNum 0; VNum 5; VNum 0]);
    (40%positive, object [("a.js", VRef 1)])
  ]%string.

(** The data of the object 1 of the sample store. *)
Definition sample_file : FileCoverage.t :=
  {| FileCoverage.statementMap := list_to_map [("s1", 1); ("s2", 1); ("s3", 2)]%string;
     FileCoverage.s := list_to_map [("s1", 1); ("s2", 0); ("s3", 4)]%string;
     FileCoverage.fnMap := list_to_map [("f1", ("foo", 1))]%string;
     FileCoverage.f := list_to_map [("f1", 3)]%string;
     FileCoverage.b := list_to_map [("br1", [1; 0; 2])]%string;
     FileCoverage.l := None |}.

(** The data of the object 21, the same file in a second run. *)
Definition sample_file_again : FileCoverage.t :=
  {| FileCoverage.statementMap := list_to_map [("s1", 1); ("s2", 1); ("s3", 2)]%string;
     FileCoverage.s := list_to_map [("s1", 2); ("s2", 3); ("s3", 0)]%string;
     FileCoverage.fnMap := list_to_map [("f1", ("foo", 1))]%string;
     FileCoverage.f := list_to_map [("f1", 0)]%string;
     FileCoverage.b := list_to_map [("br1", [0; 5; 0])]%string;
     FileCoverage.l := None |}.

(** ** Auxiliary notions of the proofs *)

(** The characters of a decimal numeral. *)
Definition digit (c : ascii) : Prop := ∃ d : N, c = pretty_N_char d.


(** The computation [m] changes no object but [q]. *)
Definition writes_only (q : loc) {A} (m : M A) : Prop :=
  ∀ h r h', m h = (r, h') → ∀ x, x ≠ q → h' !! x = h !! x.

(** The computation [m] changes no object at all. *)
Definition reads_only {A} (m : M A) : Prop :=
  ∀ h r h', m h = (r, h') → h' = h.

(** ** Totals in the words of the specification *)

Definition sumZ (xs : list Z) : Z := foldr Z.add 0 xs.

(** A simple category: as many as there are entries, covered the entries
    with a count other than 0. *)
Definition simple_totals (m : gmap string Z) : metrics :=
  let total := Z.of_nat (size m) in
  let covered := Z.of_nat (size (filter (λ kv, kv.2 ≠ 0) m)) in
  {| total := total; covered := covered; pct := Pct (percent covered total) |}.

(** Branches: as many as there are arms, covered the arms with a count
    above 0. *)
Definition branch_totals (b : gmap string (list Z)) : metrics :=
  let total := sumZ ((λ kv, Z.of_nat (length kv.2)) <$> map_to_list b) in
  let covered :=
    sumZ ((λ kv, Z.of_nat (length (filter (λ c, 0 < c) kv.2))) <$> map_to_list b) in
  {| total := total; covered := covered; pct := Pct (percent covered total) |}.

(** The key of a function in the YUI format, "name:line". *)
Definition function_key (fn : string * Z) : string := (fn.1 +:+ ":") +:+ pretty fn.2.


(** What a file contributes to the YUI coverage object: [o] for the record
    [r], whose line coverage is [lm]. *)
Definition yui_of_file (r : FileCoverage.t) (lm : gmap string Z) (o : YUI.file) : Prop :=
  YUI.lines o = VNum <$> lm ∧
  YUI.coveredLines o = Z.of_nat (size lm) ∧
  YUI.calledLines o = Z.of_nat (size (filter (λ kv, 0 < kv.2) lm)) ∧
  (∀ id, id ∈ dom (FileCoverage.f r) →
     ∃ fn, FileCoverage.fnMap r !! id = Some fn ∧
           is_Some (YUI.functions o !! function_key fn)) ∧
  (∀ key v, YUI.functions o !! key = Some v →
     ∃ id fn c, FileCoverage.fnMap r !! id = Some fn ∧
                FileCoverage.f r !! id = Some c ∧
                key = function_key fn ∧ v = VNum c) ∧
  YUI.coveredFunctions o = Z.of_nat (size (FileCoverage.f r)) ∧
  YUI.calledFunctions o = Z.of_nat (size (filter (λ kv, 0 < kv.2) (FileCoverage.f r))).


(** The sample store after [addDerivedInfo], the first file in it, and the
    YUI coverage of that file. *)
Definition sample_store_derived : heap := (addDerivedInfo (VRef 40) sample_store).2.

Definition sample_file_derived : FileCoverage.t :=
  FileCoverage.Make (FileCoverage.statementMap sample_file) (FileCoverage.s sample_file)
    (FileCoverage.fnMap sample_file) (FileCoverage.f sample_file)
    (FileCoverage.b sample_file) (Some (list_to_map [("1", 1); ("2", 4)]%string)).

Definition sample_yui : YUI.file :=
  {| YUI.lines := list_to_map [("1", VNum 1); ("2", VNum 4)]%string;
     YUI.calledLines := 2; YUI.coveredLines := 2;
     YUI.functions := list_to_map [("foo:1", VNum 3)]%string;
     YUI.calledFunctions := 1; YUI.coveredFunctions := 1 |}.

(** A value that refers to no object of [h0]. *)
Definition new_val (h0 : heap) (v : val) : Prop :=
  match v with
  | VRef x => h0 !! x = None
  | _ => True
  end.

Definition new_object (h0 : heap) (o : object) : Prop :=
  match o with
  | Obj props => map_Forall (λ _ v, new_val h0 v) props
  | Arr elems => Forall (new_val h0) elems
  end.

(** [h] is [h0] with more objects, which refer to no object of [h0]. *)
Definition extends (h0 h : heap) : Prop :=
  h0 ⊆ h ∧ ∀ x o, h !! x = Some o → h0 !! x = None → new_object h0 o.

(** The computation [m] leaves the objects of [h0] as they are, whatever its
    outcome, and a value it returns satisfies [Q]. *)
Definition keeps (h0 : heap) {A} (m : M A) (Q : A → Prop) : Prop :=
  ∀ h r h', extends h0 h → m h = (r, h') →
    extends h0 h' ∧ ∀ a, r = Ok a → Q a.

(** Two records of the same shape: the same keys in [s] and in [f], and the
    same branches with as many arms each. *)
Definition same_shape (a b : FileCoverage.t) : Prop :=
  dom (FileCoverage.s a) = dom (FileCoverage.s b) ∧
  dom (FileCoverage.f a) = dom (FileCoverage.f b) ∧
  length <$> FileCoverage.b a = length <$> FileCoverage.b b.

#[global] Instance same_shape_dec a b : Decision (same_shape a b).
Proof. unfold same_shape. apply _. Defined.

(** ** The objects that make up a JSON value *)

(** The values [vs] are made of the objects [F], one disjoint part each.  *)
Definition owns_all {J V} (R : J → V → gset loc → Prop) :
    list J → list V → gset loc → Prop :=
  fix go js vs F :=
    match js, vs with
    | [], [] => F = ∅
    | j :: js', v :: vs' =>
        ∃ F1 F2, R j v F1 ∧ go js' vs' F2 ∧ F1 ## F2 ∧ F = F1 ∪ F2
    | _, _ => False
    end.

(** The value [v] of the store [h] is the JSON value [j], laid out as a tree
    on the objects [F]: no object is used twice. *)
Fixpoint owns (h : heap) (j : json) (v : val) (F : gset loc) {struct j} : Prop :=
  match j with
  | JNull => v = VNull ∧ F = ∅
  | JNum n => v = VNum n ∧ F = ∅
  | JStr s => v = VStr s ∧ F = ∅
  | JArr js =>
      ∃ l vs F', v = VRef l ∧ h !! l = Some (Arr vs) ∧
        owns_all (owns h) js vs F' ∧ (l ∉ F') ∧ F = {[l]} ∪ F'
  | JObj kvs =>
      ∃ l kvals F', v = VRef l ∧ h !! l = Some (Obj (list_to_map kvals)) ∧
        owns_all (λ '(k, j) '(k', v) F, k' = k ∧ owns h j v F) kvs kvals F' ∧
        (l ∉ F') ∧ F = {[l]} ∪ F'
  end.

(** The object a value refers to. *)
Definition as_ref (v : val) : option loc :=
  match v with
  | VRef l => Some l
  | _ => None
  end.

(** [m[k] = g(m[k], y[k])] for each of the keys [ks]. *)
Definition add_at {A} `{!Inhabited A} (g : A → A → A) (y : gmap string A)
    (m : gmap string A) (k : string) : gmap string A :=
  <[k := g (m !!! k) (y !!! k)]> m.

(** [m] with [g(m[k], y[k])] at every key of [m] that [y] has too. *)
Definition add_onto {A} (g : A → A → A) (m y : gmap string A) : gmap string A :=
  map_imap (λ k x, Some (from_option (g x) x (y !! k))) m.

(** No branch of [cur] has more arms than the same branch of [b2]. *)
Definition arms_fit (cur b2 : gmap string (list Z)) : Prop :=
  ∀ k xs ys, cur !! k = Some xs → b2 !! k = Some ys → (length xs ≤ length ys)%nat.

(** The arrays at [arrays] hold the counts [cur], branch by branch. *)
Definition arrays_hold (h : heap) (arrays : gmap string loc)
    (cur : gmap string (list Z)) : Prop :=
  ∀ k la, arrays !! k = Some la →
    ∃ arms, cur !! k = Some arms ∧ h !! la = Some (Arr (VNum <$> arms)).

(** A record whose statements and functions all have an entry in the
    statement map and in the function map. *)
Definition well_formed (r : FileCoverage.t) : Prop :=
  dom (FileCoverage.s r) ⊆ dom (FileCoverage.statementMap r) ∧
  dom (FileCoverage.f r) ⊆ dom (FileCoverage.fnMap r).

(** [r'] is [r] with line coverage, its own if it had some. *)
Definition derived_from (r r' : FileCoverage.t) : Prop :=
  FileCoverage.statementMap r' = FileCoverage.statementMap r ∧
  FileCoverage.s r' = FileCoverage.s r ∧
  FileCoverage.fnMap r' = FileCoverage.fnMap r ∧
  FileCoverage.f r' = FileCoverage.f r ∧
  FileCoverage.b r' = FileCoverage.b r ∧
  is_Some (FileCoverage.l r') ∧
  (is_Some (FileCoverage.l r) → FileCoverage.l r' = FileCoverage.l r).

(** The coverage objects [addDerivedInfo] and [toYUICoverage] are for: every
    property is a file coverage record. *)
Definition coverage_of (h : heap) (coverage : val) (files : gmap string val) : Prop :=
  read_object h coverage = Some files ∧
  ∀ path fc, files !! path = Some fc → ∃ r, read_file h fc = Some r ∧ well_formed r.

(** The two sample files merged. *)
(** The names of the properties of [Object.prototype], which every object of
    the engine has if it has none of its own of that name. *)
Definition Object_prototype_names : list string :=
  ["constructor"; "toString"; "toLocaleString"; "valueOf"; "hasOwnProperty";
   "isPrototypeOf"; "propertyIsEnumerable"; "__proto__"; "__defineGetter__";
   "__defineSetter__"; "__lookupGetter__"; "__lookupSetter__"]%string.

(** No sum of a counter of [a] and the counter of [b] for the same key, or
    for the same arm of the same branch, is rounded: all are integers up to
    2^53. *)
Definition small_sums (a b : FileCoverage.t) : Prop :=
  map_Forall (λ _ c, - 2 ^ 53 ≤ c ≤ 2 ^ 53)
    (map_zip_with Z.add (FileCoverage.s a) (FileCoverage.s b)) ∧
  map_Forall (λ _ c, - 2 ^ 53 ≤ c ≤ 2 ^ 53)
    (map_zip_with Z.add (FileCoverage.f a) (FileCoverage.f b)) ∧
  map_Forall (λ _ cs, Forall (λ c, - 2 ^ 53 ≤ c ≤ 2 ^ 53) cs)
    (map_zip_with (zip_with Z.add) (FileCoverage.b a) (FileCoverage.b b)).

#[global] Instance small_sums_dec a b : Decision (small_sums a b).
Proof. unfold small_sums. apply _. Defined.

(** The sample store with a count of 2^53 - 1 for the statement [s1] of the
    first run; the second run has a count of 2 for it. *)
Definition sample_store_large : heap :=
  <[2%positive := Obj (list_to_map [("s1", VNum 9007199254740991); ("s2", VNum 0);
                                    ("s3", VNum 4)]%string)]> sample_store.

Definition sample_file_merged : FileCoverage.t :=
  {| FileCoverage.statementMap := list_to_map [("s1", 1); ("s2", 1); ("s3", 2)]%string;
     FileCoverage.s := list_to_map [("s1", 3); ("s2", 3); ("s3", 4)]%string;
     FileCoverage.fnMap := list_to_map [("f1", ("foo", 1))]%string;
     FileCoverage.f := list_to_map [("f1", 3)]%string;
     FileCoverage.b := list_to_map [("br1", [1; 5; 2])]%string;
     FileCoverage.l := None |}.

(** The arguments that are given. *)
Definition given (args : list (option summary)) : list summary := omap id args.

(** The sum of a count of one category over summaries. *)
Definition sum_of (count : metrics → Z) (key : category) (ss : list summary) : Z :=
  sumZ ((λ s, count (category_get key s)) <$> ss).

(** No sum of the counts of the summaries is rounded: the counts are not
    below 0, and the sums over all the summaries are integers up to 2^53. *)
Definition exact_sums (ss : list summary) : Prop :=
  ∀ key,
    Forall (λ s, 0 ≤ total (category_get key s) ∧ 0 ≤ covered (category_get key s)) ss ∧
    sum_of total key ss ≤ 2 ^ 53 ∧
    sum_of covered key ss ≤ 2 ^ 53.

(** The record [r] with the line coverage [l]. *)
Definition with_l (r : FileCoverage.t) (l : option (gmap string Z)) : FileCoverage.t :=
  FileCoverage.Make (FileCoverage.statementMap r) (FileCoverage.s r)
    (FileCoverage.fnMap r) (FileCoverage.f r) (FileCoverage.b r) l.

(** A coverage object: every property is a file coverage record. *)
Definition coverage_object (h : heap) (coverage : val) (files : gmap string val) : Prop :=
  read_object h coverage = Some files ∧
  ∀ path fc, files !! path = Some fc → is_Some (read_file h fc).

(** [lm] is the line coverage of the record [r]: it has a count for the
    start line of every statement of [s], the greatest of the counts of the
    statements that start on the line. *)
Definition line_coverage (r : FileCoverage.t) (lm : gmap string Z) : Prop :=
  (∀ key, key ∈ dom lm ↔
     ∃ st line, st ∈ dom (FileCoverage.s r) ∧
                FileCoverage.statementMap r !! st = Some line ∧ key = pretty line) ∧
  (∀ line c, lm !! pretty line = Some c →
     (∃ st, FileCoverage.statementMap r !! st = Some line ∧
            FileCoverage.s r !! st = Some c) ∧
     (∀ st c', FileCoverage.statementMap r !! st = Some line →
               FileCoverage.s r !! st = Some c' → c' ≤ c)).

(** [r'] is [r] after [addDerivedInfoForFile]: with the line coverage it had,
    or with the one of its statements if it had none. *)
Definition derived (r r' : FileCoverage.t) : Prop :=
  ∃ lm, r' = with_l r (Some lm) ∧
    match FileCoverage.l r with
    | Some lm0 => lm = lm0
    | None => line_coverage r lm
    end.

(** A store with a file coverage object whose statement [s2] has no entry in
    the statement map. *)
Definition sample_store_missing : heap :=
  let object (l : list (string * val)) := Obj (list_to_map l) in
  list_to_map [
    (1%positive, object [("s", VRef 2); ("statementMap", VRef 3);
                         ("f", VRef 4); ("fnMap", VRef 5); ("b", VRef 6)]);
    (2%positive, object [("s1", VNum 1); ("s2", VNum 2)]);
    (3%positive, object [("s1", VRef 7)]);
    (4%positive, object []);
    (5%positive, object []);
    (6%positive, object []);
    (7%positive, object [("start", VRef 8)]);
    (8%positive, object [("line", VNum 1); ("column", VNum 0)])
  ]%string.

Definition sample_file_missing : FileCoverage.t :=
  {| FileCoverage.statementMap := list_to_map [("s1", 1)]%string;
     FileCoverage.s := list_to_map [("s1", 1); ("s2", 2)]%string;
     FileCoverage.fnMap := ∅;
     FileCoverage.f := ∅;
     FileCoverage.b := ∅;
     FileCoverage.l := None |}.

(** The sample store with a third run of the file, in which only one of the
    statements is there and the branch has one more arm. *)
Definition sample_store_fewer : heap :=
  let object (l : list (string * val)) := Obj (list_to_map l) in
  list_to_map [
    (51%positive, object [("path", VStr "a.js"); ("s", VRef 52); ("statementMap", VRef 3);
                          ("f", VRef 28); ("fnMap", VRef 9); ("b", VRef 53)]);
    (52%positive, object [("s1", VNum 2)]);
    (53%positive, object [("br1", VRef 54)]);
    (54%positive, Arr [VNum 0; VNum 5; VNum 0; VNum 7])
  ]%string ∪ sample_store.

Definition sample_file_fewer : FileCoverage.t :=
  {| FileCoverage.statementMap := list_to_map [("s1", 1); ("s2", 1); ("s3", 2)]%string;
     FileCoverage.s := list_to_map [("s1", 2)]%string;
     FileCoverage.fnMap := list_to_map [("f1", ("foo", 1))]%string;
     FileCoverage.f := list_to_map [("f1", 0)]%string;
     FileCoverage.b := list_to_map [("br1", [0; 5; 0; 7])]%string;
     FileCoverage.l := None |}.

(** The sample store with a run of the file in which there is one more
    branch. *)
Definition sample_store_more : heap :=
  let object (l : list (string * val)) := Obj (list_to_map l) in
  list_to_map [
    (61%positive, object [("path", VStr "a.js"); ("s", VRef 22); ("statementMap", VRef 3);
                          ("f", VRef 28); ("fnMap", VRef 9); ("b", VRef 63)]);
    (63%positive, object [("br1", VRef 32); ("br2", VRef 64)]);
    (64%positive, Arr [VNum 1])
  ]%string ∪ sample_store.

Definition sample_file_more : FileCoverage.t :=
  {| FileCoverage.statementMap := list_to_map [("s1", 1); ("s2", 1); ("s3", 2)]%string;
     FileCoverage.s := list_to_map [("s1", 2); ("s2", 3); ("s3", 0)]%string;
     FileCoverage.fnMap := list_to_map [("f1", ("foo", 1))]%string;
     FileCoverage.f := list_to_map [("f1", 0)]%string;
     FileCoverage.b := list_to_map [("br1", [0; 5; 0]); ("br2", [1])]%string;
     FileCoverage.l := None |}.

(** A record none of whose counts is below 0. *)
Definition counted (r : FileCoverage.t) : Prop :=
  map_Forall (λ _ c, 0 ≤ c) (FileCoverage.s r) ∧
  map_Forall (λ _ c, 0 ≤ c) (FileCoverage.f r) ∧
  map_Forall (λ _ cs, Forall (Z.le 0) cs) (FileCoverage.b r).

(** The sample store with a function [f2] counted in the first file that the
    function map of the file does not have, before and after
    [addDerivedInfo]. *)
Definition sample_store_unnamed : heap :=
  <[8%positive := Obj (list_to_map [("f1", VNum 3); ("f2", VNum 1)]%string)]> sample_store.

Definition sample_store_unnamed_derived : heap :=
  (addDerivedInfo (VRef 40) sample_store_unnamed).2.

Definition sample_file_unnamed : FileCoverage.t :=
  {| FileCoverage.statementMap := list_to_map [("s1", 1); ("s2", 1); ("s3", 2)]%string;
     FileCoverage.s := list_to_map [("s1", 1); ("s2", 0); ("s3", 4)]%string;
     FileCoverage.fnMap := list_to_map [("f1", ("foo", 1))]%string;
     FileCoverage.f := list_to_map [("f1", 3); ("f2", 1)]%string;
     FileCoverage.b := list_to_map [("br1", [1; 0; 2])]%string;
     FileCoverage.l := Some (list_to_map [("1", 1); ("2", 4)]%string) |}.

(** A summary as [summarizeFileCoverage] returns them. *)
Definition sample_summary : summary :=
  {| lines := Metrics 2 1 (Pct 50.00);
     statements := Metrics 3 2 (Pct 66.67);
     functions := Metrics 1 1 (Pct 100.00);
     branches := Metrics 0 0 (Pct 100) |}.

(** * Proofs *)

(** ** Double precision numbers *)

(** *** Powers of two *)

Lemma pow2_pos e : (0 < 2 ^ e)%Q.
Proof. by apply Qpower_0_lt. Qed.

Lemma pow2_plus a b : (2 ^ (a + b) == 2 ^ a * 2 ^ b)%Q.
Proof. by apply Qpower_plus. Qed.

Lemma pow2_succ a : (2 ^ (a + 1) == 2 * 2 ^ a)%Q.
Proof. rewrite pow2_plus. change (2 ^ 1)%Q with 2%Q. ring. Qed.

Lemma pow2_le a b : a ≤ b → (2 ^ a <= 2 ^ b)%Q.
Proof. intros. by apply Qpower_le_compat_l. Qed.

Lemma pow2_lt a b : a < b → (2 ^ a < 2 ^ b)%Q.
Proof. intros. by apply Qpower_lt_compat_l. Qed.

Lemma pow2_lt_inv a b : (2 ^ a < 2 ^ b)%Q → a < b.
Proof. intros. by eapply Qpower_lt_compat_l_inv. Qed.

Lemma pow2_Z n : 0 ≤ n → (2 ^ n == inject_Z (2 ^ n))%Q.
Proof. intros. by rewrite Zpower_Qpower. Qed.

(** *** Rounding to an integer *)

Lemma round_half_even_comp x y : (x == y)%Q → round_half_even x = round_half_even y.
Proof.
  intros Hxy. unfold round_half_even. rewrite (Qfloor_comp _ _ Hxy).
  by rewrite Hxy.
Qed.

Lemma round_half_even_cases y :
  let n := Qfloor y in
  (round_half_even y = n ∧ (y - inject_Z n <= 1 # 2)%Q ∧
     ((y - inject_Z n == 1 # 2)%Q → Z.even n = true)) ∨
  (round_half_even y = n + 1 ∧ (1 # 2 <= y - inject_Z n)%Q ∧
     ((y - inject_Z n == 1 # 2)%Q → Z.even n = false)).
Proof.
  intros n. unfold round_half_even. fold n.
  destruct (Qcompare_spec (y - inject_Z n) (1 # 2)) as [Heq|Hlt|Hgt].
  - destruct (Z.even n) eqn:Hn.
    + left. split; [done|]. split; [by rewrite Heq|done].
    + right. split; [done|]. split; [by rewrite Heq|done].
  - left. split; [done|]. split; [by apply Qlt_le_weak|].
    intros Heq. rewrite Heq in Hlt. by apply Qlt_irrefl in Hlt.
  - right. split; [done|]. split; [by apply Qlt_le_weak|].
    intros Heq. rewrite Heq in Hgt. by apply Qlt_irrefl in Hgt.
Qed.

Lemma round_half_even_bounds y :
  (y - (1 # 2) <= inject_Z (round_half_even y))%Q ∧
  (inject_Z (round_half_even y) <= y + (1 # 2))%Q.
Proof.
  pose proof (Qfloor_le y) as Hlo. pose proof (Qlt_floor y) as Hhi.
  rewrite inject_Z_plus in Hhi. change (inject_Z 1) with 1%Q in Hhi.
  destruct (round_half_even_cases y) as [(-> & H & _)|(-> & H & _)];
    rewrite ?inject_Z_plus; change (inject_Z 1) with 1%Q; split; lra.
Qed.

Lemma round_half_even_Z n : round_half_even (inject_Z n) = n.
Proof.
  pose proof (Qfloor_Z n) as Hn.
  destruct (round_half_even_cases (inject_Z n)) as [(-> & _)|(_ & H & _)]; [done|].
  rewrite Hn in H. lra.
Qed.

Lemma round_half_even_mono x y :
  (x <= y)%Q → round_half_even x ≤ round_half_even y.
Proof.
  intros Hxy. pose proof (Qfloor_resp_le _ _ Hxy) as Hfl.
  destruct (round_half_even_cases x) as [(-> & Hx & Hxe)|(-> & Hx & Hxe)];
    destruct (round_half_even_cases y) as [(-> & Hy & Hye)|(-> & Hy & Hye)];
    try lia.
  destruct (decide (Qfloor x = Qfloor y)) as [Heq|Hne]; [|lia].
  exfalso. rewrite Heq in *.
  assert (x - inject_Z (Qfloor y) == 1 # 2)%Q as Hx2 by lra.
  assert (y - inject_Z (Qfloor y) == 1 # 2)%Q as Hy2 by lra.
  specialize (Hxe Hx2). specialize (Hye Hy2). congruence.
Qed.

(** *** The binade of a positive number *)

Lemma binade_spec x :
  (0 < x)%Q → (2 ^ binade x <= x)%Q ∧ (x < 2 ^ (binade x + 1))%Q.
Proof.
  intros Hx. destruct x as [a b].
  assert (Ha : 0 < a) by (unfold Qlt in Hx; simpl in Hx; lia).
  destruct (Z.log2_spec a Ha) as [Ha1 Ha2].
  destruct (Z.log2_spec (Z.pos b) (Pos2Z.is_pos b)) as [Hb1 Hb2].
  pose proof (Z.log2_nonneg a) as Hla. pose proof (Z.log2_nonneg (Z.pos b)) as Hlb.
  unfold binade. simpl Qnum. simpl Qden.
  set (la := Z.log2 a) in *. set (lb := Z.log2 (Z.pos b)) in *.
  rewrite Z.pow_succ_r in Ha2, Hb2 by done.
  rewrite Zle_Qle in Ha1, Hb1. rewrite Zlt_Qlt in Ha2, Hb2.
  rewrite inject_Z_mult in Ha2, Hb2.
  rewrite <-!pow2_Z in Ha1, Ha2, Hb1, Hb2 by done.
  change (inject_Z 2) with (2%Q) in *.
  assert (HA : ((a # b) * inject_Z (Z.pos b) == inject_Z a)%Q).
  { unfold Qeq, Qmult, inject_Z. simpl. lia. }
  assert (HP : (2 ^ (la - lb) * 2 ^ lb == 2 ^ la)%Q).
  { rewrite <-pow2_plus. by replace (la - lb + lb) with la by lia. }
  assert (HP1 : (2 ^ (la - lb - 1) * 2 == 2 ^ (la - lb))%Q).
  { replace (la - lb) with (la - lb - 1 + 1) at 2 by lia. rewrite pow2_succ. ring. }
  assert (HP2 : (2 ^ (la - lb + 1) == 2 * 2 ^ (la - lb))%Q) by apply pow2_succ.
  pose proof (pow2_pos (la - lb)) as Hp. pose proof (pow2_pos (la - lb - 1)) as Hp1.
  pose proof (pow2_pos la) as Hu. pose proof (pow2_pos lb) as Hv.
  set (x := (a # b)%Q) in *. set (A := inject_Z a) in *.
  set (B := inject_Z (Z.pos b)) in *.
  set (P := (2 ^ (la - lb))%Q) in *. set (P1 := (2 ^ (la - lb - 1))%Q) in *.
  set (u := (2 ^ la)%Q) in *. set (v := (2 ^ lb)%Q) in *.
  destruct (Qle_bool P x) eqn:Hle.
  - apply Qle_bool_iff in Hle. split; [done|]. rewrite HP2. fold P.
    clearbody x A B P P1 u v. nra.
  - assert (x < P)%Q as Hlt.
    { apply Qnot_le_lt. intros H. apply Qle_bool_iff in H. congruence. }
    replace (la - lb - 1 + 1) with (la - lb) by lia. fold P. split; [|done].
    fold P1. clearbody x A B P P1 u v. nra.
Qed.

Lemma binade_unique x e :
  (2 ^ e <= x)%Q → (x < 2 ^ (e + 1))%Q → binade x = e.
Proof.
  intros Hlo Hhi.
  assert (0 < x)%Q as Hx by (eapply Qlt_le_trans; [apply (pow2_pos e)|done]).
  destruct (binade_spec x Hx) as [Hlo' Hhi'].
  assert (binade x < e + 1).
  { apply pow2_lt_inv. by eapply Qle_lt_trans. }
  assert (e < binade x + 1).
  { apply pow2_lt_inv. by eapply Qle_lt_trans. }
  lia.
Qed.

Lemma binade_comp x y : (0 < x)%Q → (x == y)%Q → binade x = binade y.
Proof.
  intros Hx Hxy. symmetry. destruct (binade_spec x Hx) as [Hlo Hhi].
  apply binade_unique; by rewrite <-Hxy.
Qed.

Lemma binade_mono x y : (0 < x)%Q → (x <= y)%Q → binade x ≤ binade y.
Proof.
  intros Hx Hxy.
  assert (0 < y)%Q as Hy by (by eapply Qlt_le_trans).
  destruct (binade_spec x Hx) as [Hlo _]. destruct (binade_spec y Hy) as [_ Hhi].
  assert (binade x < binade y + 1); [|lia].
  apply pow2_lt_inv. eapply Qle_lt_trans; [apply Hlo|]. by eapply Qle_lt_trans.
Qed.

(** *** The nearest number of 53 digits *)

Lemma nearest53_scaled x :
  (0 < x)%Q →
  (2 ^ 52 <= x / 2 ^ (binade x - 52))%Q ∧ (x / 2 ^ (binade x - 52) < 2 ^ 53)%Q.
Proof.
  intros Hx. destruct (binade_spec x Hx) as [Hlo Hhi].
  pose proof (pow2_pos (binade x - 52)) as Hu.
  assert (H1 : (2 ^ binade x == 2 ^ 52 * 2 ^ (binade x - 52))%Q).
  { rewrite <-pow2_plus. by replace (52 + (binade x - 52)) with (binade x) by lia. }
  assert (H2 : (2 ^ (binade x + 1) == 2 ^ 53 * 2 ^ (binade x - 52))%Q).
  { rewrite <-pow2_plus. by replace (53 + (binade x - 52)) with (binade x + 1) by lia. }
  rewrite H1 in Hlo. rewrite H2 in Hhi. split.
  - by apply Qle_shift_div_l.
  - by apply Qlt_shift_div_r.
Qed.

Lemma nearest53_comp x y : (0 < x)%Q → (x == y)%Q → (nearest53 x == nearest53 y)%Q.
Proof.
  intros Hx Hxy. unfold nearest53. rewrite (binade_comp x y Hx Hxy).
  erewrite round_half_even_comp; [reflexivity|]. by rewrite Hxy.
Qed.

Lemma nearest53_bounds x :
  (0 < x)%Q →
  (2 ^ binade x <= nearest53 x)%Q ∧ (nearest53 x <= 2 ^ (binade x + 1))%Q.
Proof.
  intros Hx. destruct (nearest53_scaled x Hx) as [Hlo Hhi].
  pose proof (pow2_pos (binade x - 52)) as Hu.
  assert (H1 : (2 ^ binade x == 2 ^ 52 * 2 ^ (binade x - 52))%Q).
  { rewrite <-pow2_plus. by replace (52 + (binade x - 52)) with (binade x) by lia. }
  assert (H2 : (2 ^ (binade x + 1) == 2 ^ 53 * 2 ^ (binade x - 52))%Q).
  { rewrite <-pow2_plus. by replace (53 + (binade x - 52)) with (binade x + 1) by lia. }
  rewrite H1, H2. unfold nearest53. split.
  - apply Qmult_le_compat_r; [|by apply Qlt_le_weak].
    rewrite (pow2_Z 52) by done. rewrite <-Zle_Qle.
    rewrite <-(round_half_even_Z (2 ^ 52)). apply round_half_even_mono.
    by rewrite <-pow2_Z.
  - apply Qmult_le_compat_r; [|by apply Qlt_le_weak].
    rewrite (pow2_Z 53) by done. rewrite <-Zle_Qle.
    rewrite <-(round_half_even_Z (2 ^ 53)). apply round_half_even_mono.
    rewrite <-pow2_Z by done. by apply Qlt_le_weak.
Qed.

Lemma nearest53_mono x y : (0 < x)%Q → (x <= y)%Q → (nearest53 x <= nearest53 y)%Q.
Proof.
  intros Hx Hxy.
  assert (0 < y)%Q as Hy by (by eapply Qlt_le_trans).
  pose proof (binade_mono x y Hx Hxy) as Hb.
  destruct (decide (binade x = binade y)) as [Heq|Hne].
  - unfold nearest53. rewrite Heq.
    pose proof (pow2_pos (binade y - 52)) as Hu.
    apply Qmult_le_compat_r; [|by apply Qlt_le_weak].
    rewrite <-Zle_Qle. apply round_half_even_mono.
    apply Qmult_le_compat_r; [done|]. by apply Qlt_le_weak, Qinv_lt_0_compat.
  - destruct (nearest53_bounds x Hx) as [_ Hhi].
    destruct (nearest53_bounds y Hy) as [Hlo _].
    eapply Qle_trans; [apply Hhi|]. eapply Qle_trans; [|apply Hlo].
    apply pow2_le. lia.
Qed.

(** A number of at most 53 binary digits is a double precision number. *)
Lemma nearest53_exact (m e : Z) :
  0 < m < 2 ^ 53 →
  (nearest53 (inject_Z m * 2 ^ e) == inject_Z m * 2 ^ e)%Q.
Proof.
  intros [Hm0 Hm]. set (x := (inject_Z m * 2 ^ e)%Q).
  pose proof (pow2_pos e) as He.
  assert (Hm0' : (0 < inject_Z m)%Q) by (unfold Qlt; simpl; lia).
  assert (Hx : (0 < x)%Q) by (unfold x; nra).
  destruct (binade_spec x Hx) as [Hlo _].
  assert (Hlt : binade x < 53 + e).
  { apply pow2_lt_inv. eapply Qle_lt_trans; [apply Hlo|].
    rewrite pow2_plus. unfold x. apply Qmult_lt_compat_r; [done|].
    rewrite (pow2_Z 53) by done. by rewrite <-Zlt_Qlt. }
  unfold nearest53. fold x. set (b := binade x) in *. clearbody b.
  set (k := e - (b - 52)).
  assert (Hk : 0 ≤ k) by (unfold k; lia).
  pose proof (pow2_pos (b - 52)) as Hu.
  assert (He' : (2 ^ e == 2 ^ k * 2 ^ (b - 52))%Q).
  { rewrite <-pow2_plus. by replace (k + (b - 52)) with e by (unfold k; lia). }
  assert (Hy : (x / 2 ^ (b - 52) == inject_Z (m * 2 ^ k))%Q).
  { rewrite inject_Z_mult, <-pow2_Z by done. unfold x. rewrite He'.
    field. intros H0. rewrite H0 in Hu. by apply Qlt_irrefl in Hu. }
  rewrite (round_half_even_comp _ _ Hy), round_half_even_Z.
  rewrite inject_Z_mult, <-pow2_Z by done. unfold x. rewrite He'. ring.
Qed.

(** The error of the rounding is at most half a unit in the last place. *)
Lemma nearest53_error x :
  (0 < x)%Q →
  (nearest53 x <= x + x / 2 ^ 53)%Q ∧ (x - x / 2 ^ 53 <= nearest53 x)%Q.
Proof.
  intros Hx. destruct (nearest53_scaled x Hx) as [Hlo _].
  pose proof (pow2_pos (binade x - 52)) as Hu.
  destruct (round_half_even_bounds (x / 2 ^ (binade x - 52))) as [Hrl Hrh].
  unfold nearest53.
  set (ulp := (2 ^ (binade x - 52))%Q) in *.
  set (r := inject_Z (round_half_even (x / ulp))) in *.
  assert (Hxu : (x / ulp * ulp == x)%Q).
  { field. intros H0. rewrite H0 in Hu. by apply Qlt_irrefl in Hu. }
  assert (H53 : (x / 2 ^ 53 * 2 ^ 53 == x)%Q) by (by field).
  assert (H5253 : ((2 ^ 53 : Q) == 2 * 2 ^ 52)%Q) by done.
  pose proof (pow2_pos 52) as H52. pose proof (pow2_pos 53) as H53'.
  set (y := (x / ulp)%Q) in *. set (z := (x / 2 ^ 53)%Q) in *.
  set (p52 := (2 ^ 52)%Q) in *. set (p53 := (2 ^ 53)%Q) in *.
  clearbody r y z ulp p52 p53.
  assert (Hz : (ulp <= 2 * z)%Q) by nra.
  split; nra.
Qed.

(** *** The nearest double precision number *)

Lemma double_pos_eq x : (0 < x)%Q → double x = nearest53 x.
Proof.
  destruct x as [[|p|p] d]; unfold Qlt; simpl; intros H; try lia. done.
Qed.

Lemma double_neg_eq x : (x < 0)%Q → double x = (- nearest53 (- x))%Q.
Proof.
  destruct x as [[|p|p] d]; unfold Qlt; simpl; intros H; try lia. done.
Qed.

Lemma double_zero_eq x : (x == 0)%Q → double x = 0%Q.
Proof.
  destruct x as [[|p|p] d]; unfold Qeq; simpl; intros H; try lia. done.
Qed.

#[global] Instance double_proper : Proper (Qeq ==> Qeq) double.
Proof.
  intros x y Hxy. destruct (Q_dec x 0) as [[Hx|Hx]|Hx].
  - rewrite (double_neg_eq x Hx), (double_neg_eq y) by (by rewrite <-Hxy).
    apply Qopp_comp, nearest53_comp; [lra|by rewrite Hxy].
  - rewrite (double_pos_eq x Hx), (double_pos_eq y) by (by rewrite <-Hxy).
    by apply nearest53_comp.
  - rewrite (double_zero_eq x Hx), (double_zero_eq y) by (by rewrite <-Hxy). done.
Qed.

Lemma double_sign x :
  ((0 < x)%Q → (0 < double x)%Q) ∧ ((x < 0)%Q → (double x < 0)%Q).
Proof.
  split; intros Hx.
  - rewrite (double_pos_eq x Hx). destruct (nearest53_bounds x Hx) as [Hlo _].
    eapply Qlt_le_trans; [apply pow2_pos|apply Hlo].
  - rewrite (double_neg_eq x Hx).
    assert (Hx' : (0 < - x)%Q) by lra.
    destruct (nearest53_bounds (- x) Hx') as [Hlo _].
    pose proof (pow2_pos (binade (- x))). lra.
Qed.

Lemma double_mono x y : (x <= y)%Q → (double x <= double y)%Q.
Proof.
  intros Hxy.
  destruct (Q_dec x 0) as [[Hx|Hx]|Hx], (Q_dec y 0) as [[Hy|Hy]|Hy]; try lra.
  - rewrite (double_neg_eq x Hx), (double_neg_eq y Hy).
    apply Qopp_le_compat, nearest53_mono; lra.
  - pose proof (proj2 (double_sign x) Hx). pose proof (proj1 (double_sign y) Hy). lra.
  - pose proof (proj2 (double_sign x) Hx). rewrite (double_zero_eq y Hy). lra.
  - rewrite (double_pos_eq x Hx), (double_pos_eq y Hy). by apply nearest53_mono.
  - pose proof (proj1 (double_sign y) Hy). rewrite (double_zero_eq x Hx). lra.
  - by rewrite (double_zero_eq x Hx), (double_zero_eq y Hy).
Qed.

(** A number of at most 53 binary digits is a double precision number. *)
Lemma double_exact (m e : Z) :
  - 2 ^ 53 < m < 2 ^ 53 → (double (inject_Z m * 2 ^ e) == inject_Z m * 2 ^ e)%Q.
Proof.
  intros Hm. pose proof (pow2_pos e) as He.
  destruct (Z.lt_trichotomy m 0) as [Hneg|[->|Hpos]].
  - assert (Hm' : (inject_Z m < 0)%Q) by (unfold Qlt; simpl; lia).
    assert (Hx : (inject_Z m * 2 ^ e < 0)%Q) by nra.
    rewrite double_neg_eq by done.
    assert (Hopp : (- (inject_Z m * 2 ^ e) == inject_Z (- m) * 2 ^ e)%Q).
    { rewrite inject_Z_opp. ring. }
    assert (Hx' : (0 < - (inject_Z m * 2 ^ e))%Q) by lra.
    rewrite (nearest53_comp _ _ Hx' Hopp).
    rewrite nearest53_exact by lia. rewrite inject_Z_opp. ring.
  - rewrite double_zero_eq by ring. ring.
  - assert (Hm' : (0 < inject_Z m)%Q) by (unfold Qlt; simpl; lia).
    rewrite double_pos_eq by nra. apply nearest53_exact. lia.
Qed.

(** So is every integer up to 2^53. *)
Lemma double_Z (n : Z) : - 2 ^ 53 ≤ n ≤ 2 ^ 53 → (double (inject_Z n) == inject_Z n)%Q.
Proof.
  intros Hn. destruct (decide (- 2 ^ 53 < n < 2 ^ 53)) as [Hin|Hout].
  - assert (Hn0 : (inject_Z n == inject_Z n * 2 ^ 0)%Q).
    { change (2 ^ 0)%Q with 1%Q. ring. }
    rewrite Hn0 at 1. rewrite double_exact by done. by rewrite <-Hn0.
  - assert (n = 2 ^ 52 * 2 ∨ n = - 2 ^ 52 * 2) as [-> | ->] by lia.
    + rewrite inject_Z_mult. change (inject_Z 2) with (2 ^ 1)%Q.
      by apply double_exact.
    + rewrite inject_Z_mult. change (inject_Z 2) with (2 ^ 1)%Q.
      by apply double_exact.
Qed.

Lemma double_le_exact x (m e : Z) :
  - 2 ^ 53 < m < 2 ^ 53 → (x <= inject_Z m * 2 ^ e)%Q → (double x <= inject_Z m * 2 ^ e)%Q.
Proof. intros Hm Hx. rewrite <-(double_exact m e Hm). by apply double_mono. Qed.

Lemma double_ge_exact x (m e : Z) :
  - 2 ^ 53 < m < 2 ^ 53 → (inject_Z m * 2 ^ e <= x)%Q → (inject_Z m * 2 ^ e <= double x)%Q.
Proof. intros Hm Hx. rewrite <-(double_exact m e Hm). by apply double_mono. Qed.

Lemma double_le_Z x (n : Z) :
  - 2 ^ 53 ≤ n ≤ 2 ^ 53 → (x <= inject_Z n)%Q → (double x <= inject_Z n)%Q.
Proof. intros Hn Hx. rewrite <-(double_Z n Hn). by apply double_mono. Qed.

Lemma double_ge_Z x (n : Z) :
  - 2 ^ 53 ≤ n ≤ 2 ^ 53 → (inject_Z n <= x)%Q → (inject_Z n <= double x)%Q.
Proof. intros Hn Hx. rewrite <-(double_Z n Hn). by apply double_mono. Qed.

(** The relative error of the rounding. *)
Lemma double_error x : (0 <= x)%Q → (double x <= x + x / 2 ^ 53)%Q.
Proof.
  intros Hx. destruct (Qle_lt_or_eq _ _ Hx) as [Hpos|Hz].
  - rewrite (double_pos_eq x Hpos). by apply nearest53_error.
  - rewrite double_zero_eq by done. rewrite <-Hz. done.
Qed.

(** *** Sums *)

Lemma double_add_0_l n : double_add 0 n = n.
Proof. done. Qed.

Lemma double_add_0_r m : double_add m 0 = m.
Proof. unfold double_add. by repeat case_decide. Qed.

Lemma double_add_comm m n : double_add m n = double_add n m.
Proof.
  unfold double_add. repeat case_decide; try done; try congruence.
  by rewrite Z.add_comm.
Qed.

(** A sum of up to 2^53 is exact. *)
Lemma double_add_exact m n : - 2 ^ 53 ≤ m + n ≤ 2 ^ 53 → double_add m n = m + n.
Proof.
  intros Hmn. unfold double_add. repeat case_decide; try lia.
  rewrite (Qfloor_comp _ _ (double_Z _ Hmn)). apply Qfloor_Z.
Qed.

(** No rounding takes a sum of counts to 0. *)
Lemma double_add_pos m n : 0 ≤ m → 0 ≤ n → 0 < m + n → 0 < double_add m n.
Proof.
  intros Hm Hn Hmn. unfold double_add. repeat case_decide; try lia.
  enough (1 ≤ Qfloor (double (inject_Z (m + n)))) by lia.
  rewrite <-(Qfloor_Z 1) at 1. apply Qfloor_resp_le.
  apply double_ge_Z; [done|]. rewrite <-Zle_Qle. lia.
Qed.

Lemma double_add_nonneg m n : 0 ≤ m → 0 ≤ n → 0 ≤ double_add m n.
Proof.
  intros Hm Hn. destruct (decide (m + n = 0)) as [Hz|Hnz].
  - assert (m = 0) as -> by lia. rewrite double_add_0_l. lia.
  - pose proof (double_add_pos m n Hm Hn). lia.
Qed.

(** ** percent *)

Lemma inject_Z_minus (x y : Z) : inject_Z (x - y) = (inject_Z x - inject_Z y)%Q.
Proof. unfold Z.sub, Qminus. by rewrite inject_Z_plus, inject_Z_opp. Qed.

Ltac inject_Z_in H :=
  repeat first [rewrite inject_Z_plus in H | rewrite inject_Z_mult in H
               | rewrite inject_Z_minus in H | rewrite inject_Z_opp in H].

Ltac inject_Z_goal :=
  repeat first [rewrite inject_Z_plus | rewrite inject_Z_mult
               | rewrite inject_Z_minus | rewrite inject_Z_opp].


Lemma Qle_hundredths (m n : Z) : (inject_Z m / 100 <= inject_Z n / 100)%Q ↔ m ≤ n.
Proof. unfold Qle, Qdiv, Qmult, Qinv, inject_Z. simpl. lia. Qed.

Lemma Qle_0_hundredths (m : Z) : (0 <= inject_Z m / 100)%Q ↔ 0 ≤ m.
Proof. unfold Qle, Qdiv, Qmult, Qinv, inject_Z. simpl. lia. Qed.

Lemma Qle_hundredths_100 (m : Z) : (inject_Z m / 100 <= 100)%Q ↔ m ≤ 10000.
Proof. unfold Qle, Qdiv, Qmult, Qinv, inject_Z. simpl. lia. Qed.

Lemma Qeq_hundredths_100 (m : Z) : (inject_Z m / 100 == 100)%Q ↔ m = 10000.
Proof. unfold Qeq, Qdiv, Qmult, Qinv, inject_Z. simpl. lia. Qed.

Lemma Qeq_hundredths_0 (m : Z) : (inject_Z m / 100 == 0)%Q ↔ m = 0.
Proof. unfold Qeq, Qdiv, Qmult, Qinv, inject_Z. simpl. lia. Qed.

Lemma percent_positive covered total :
  0 < total →
  percent covered total = (inject_Z (Qfloor (percent_scaled covered total)) / 100)%Q.
Proof. intros Ht. unfold percent. by rewrite bool_decide_eq_true_2 by lia. Qed.

Lemma percent_scaled_mono (covered covered' total : Z) :
  0 < total → covered ≤ covered' →
  (percent_scaled covered total <= percent_scaled covered' total)%Q.
Proof.
  intros Ht Hc. unfold percent_scaled.
  assert (HT : (0 < inject_Z total)%Q) by (unfold Qlt; simpl; lia).
  assert (HC : (inject_Z covered <= inject_Z covered')%Q) by (by rewrite <-Zle_Qle).
  apply double_mono. apply Qmult_le_compat_r; [|done].
  apply double_mono. apply Qplus_le_compat; [|lra].
  apply double_mono. apply Qmult_le_compat_r; [|by apply Qlt_le_weak, Qinv_lt_0_compat].
  apply double_mono. lra.
Qed.

Lemma percent_mono (covered covered' total : Z) :
  covered ≤ covered' → (percent covered total <= percent covered' total)%Q.
Proof.
  intros Hc. destruct (decide (0 < total)) as [Hpos|Hz].
  - rewrite !percent_positive by done. apply Qle_hundredths.
    by apply Qfloor_resp_le, percent_scaled_mono.
  - unfold percent. rewrite !bool_decide_eq_false_2 by lia. done.
Qed.

Lemma percent_bounds (covered total : Z) :
  0 ≤ covered ≤ total →
  (0 <= percent covered total)%Q ∧ (percent covered total <= 100)%Q.
Proof.
  intros [H0 Ht]. destruct (decide (0 < total)) as [Hpos|Hz].
  2:{ unfold percent. rewrite !bool_decide_eq_false_2 by lia. done. }
  assert (HT : (0 < inject_Z total)%Q) by (unfold Qlt; simpl; lia).
  split.
  - eapply Qle_trans; [|apply (percent_mono 0 covered total H0)].
    rewrite percent_positive by done. apply Qle_0_hundredths.
    etrans; [|apply (Qfloor_resp_le (inject_Z 0))]; [by rewrite Qfloor_Z|].
    unfold percent_scaled.
    assert (E1 : double (1000 * 100 * inject_Z 0) = 0%Q) by (apply double_zero_eq; ring).
    rewrite E1.
    assert (E2 : double (0 / inject_Z total) = 0%Q).
    { apply double_zero_eq. field. lra. }
    rewrite E2.
    apply (double_ge_Z _ 0); [done|]. apply Qle_shift_div_l; [done|].
    eapply Qle_trans; [|apply (double_ge_Z _ 5); done]. done.
  - eapply Qle_trans; [apply (percent_mono covered total total Ht)|].
    rewrite percent_positive by done. apply Qle_hundredths_100.
    enough (Qfloor (percent_scaled total total) < 10001) by lia.
    rewrite Zlt_Qlt. eapply Qle_lt_trans; [apply Qfloor_le|].
    unfold percent_scaled.
    assert (H1 : (double (1000 * 100 * inject_Z total) / inject_Z total <= inject_Z 100001)%Q).
    { apply Qle_shift_div_r; [done|].
      eapply Qle_trans; [apply double_error; lra|].
      assert (Hdiv : (1000 * 100 * inject_Z total / 2 ^ 53
                      == 1000 * 100 * inject_Z total * (1 # 9007199254740992))%Q) by field.
      rewrite Hdiv. change (inject_Z 100001) with 100001%Q. lra. }
    apply (double_le_Z _ 100001) in H1; [|done].
    assert (H2 : (double (double (double (1000 * 100 * inject_Z total) / inject_Z total) + 5)
                  <= inject_Z 100006)%Q).
    { apply (double_le_Z _ 100006); [done|].
      change (inject_Z 100006) with 100006%Q.
      change (inject_Z 100001) with 100001%Q in H1. lra. }
    assert (H3 : (double (double (double (double (1000 * 100 * inject_Z total)
                                           / inject_Z total) + 5) / 10)
                  <= inject_Z 40003 * 2 ^ (-2))%Q).
    { apply double_le_exact; [done|].
      change (inject_Z 100006) with 100006%Q in H2.
      change (inject_Z 40003 * 2 ^ (-2))%Q with (40003 # 4)%Q.
      apply Qle_shift_div_r; [done|]. lra. }
    eapply Qle_lt_trans; [apply H3|]. done.
Qed.

(** Up to a total of 2^35 the roundings do not show: the hundredths are the
    ones of the exact computation, by integer division. *)
Lemma percent_hundredths covered total :
  0 ≤ covered ≤ total → 0 < total ≤ 2 ^ 35 →
  percent covered total = (inject_Z ((20000 * covered + total) / (2 * total)) / 100)%Q.
Proof.
  intros [Hc0 Hct] [Ht0 Ht]. rewrite percent_positive by done. do 2 f_equal.
  set (k := (20000 * covered + total) / (2 * total)).
  pose proof (Z.div_mod (20000 * covered + total) (2 * total) ltac:(lia)) as Hdm.
  pose proof (Z.mod_pos_bound (20000 * covered + total) (2 * total) ltac:(lia)) as Hm.
  fold k in Hdm.
  assert (Hk0 : 0 ≤ k) by (apply Z.div_pos; lia).
  assert (Hk1 : k ≤ 10000).
  { enough (k < 10001) by lia. apply Z.div_lt_upper_bound; lia. }
  assert (Hlo : (10 * k - 5) * total ≤ 100000 * covered) by lia.
  assert (Hhi : 100000 * covered + 1 ≤ (10 * k + 5) * total) by lia.
  assert (HT : (0 < inject_Z total)%Q) by (unfold Qlt; simpl; lia).
  assert (HT35 : (inject_Z total <= 34359738368)%Q).
  { change 34359738368%Q with (inject_Z (2 ^ 35)). by rewrite <-Zle_Qle. }
  rewrite Zle_Qle in Hlo, Hhi.
  inject_Z_in Hlo. inject_Z_in Hhi.
  change (inject_Z 10) with 10%Q in *. change (inject_Z 5) with 5%Q in *.
  change (inject_Z 100000) with 100000%Q in *. change (inject_Z 1) with 1%Q in *.
  assert (HK0 : (0 <= inject_Z k)%Q) by (unfold Qle; simpl; lia).
  assert (HK1 : (inject_Z k <= 10000)%Q) by (unfold Qle; simpl; lia).
  unfold percent_scaled.
  assert (Hp1 : (double (1000 * 100 * inject_Z covered) == 100000 * inject_Z covered)%Q).
  { assert (Heq : (1000 * 100 * inject_Z covered == inject_Z (100000 * covered))%Q).
    { rewrite inject_Z_mult. change (inject_Z 100000) with 100000%Q. ring. }
    rewrite Heq, double_Z by lia. rewrite inject_Z_mult. done. }
  rewrite Hp1.
  set (x := (100000 * inject_Z covered / inject_Z total)%Q).
  assert (Hx : (x * inject_Z total == 100000 * inject_Z covered)%Q).
  { unfold x. field. lra. }
  set (C := inject_Z covered) in *. set (T := inject_Z total) in *.
  set (K := inject_Z k) in *.
  assert (Hxlo : (10 * K - 5 <= x)%Q) by (clearbody x C T K; nra).
  assert (Hxhi : (x <= 10 * K + 5 - (1 # 34359738368))%Q) by (clearbody x C T K; nra).
  (* from below *)
  assert (L1 : (inject_Z (10 * k - 5) <= double x)%Q).
  { apply double_ge_Z; [lia|]. inject_Z_goal. done. }
  assert (L2 : (inject_Z (10 * k) <= double (double x + 5))%Q).
  { apply double_ge_Z; [lia|]. inject_Z_in L1. inject_Z_goal. change (inject_Z 10) with 10%Q in *.
    change (inject_Z 5) with 5%Q in *. fold K in L1 |- *. lra. }
  assert (L3 : (inject_Z k <= double (double (double x + 5) / 10))%Q).
  { apply double_ge_Z; [lia|]. apply Qle_shift_div_l; [done|].
    inject_Z_in L2. change (inject_Z 10) with 10%Q in *.
    fold K in L2 |- *. lra. }
  (* from above *)
  assert (U1 : (double x <= inject_Z ((10 * k + 5) * 2 ^ 35 - 1) * 2 ^ (-35))%Q).
  { apply double_le_exact; [lia|]. inject_Z_goal.
    change (2 ^ (-35))%Q with (1 # 34359738368)%Q.
    change (inject_Z (2 ^ 35)) with 34359738368%Q.
    change (inject_Z 10) with 10%Q. change (inject_Z 5) with 5%Q.
    change (inject_Z 1) with 1%Q. fold K. lra. }
  assert (U2 : (double (double x + 5)
                <= inject_Z ((10 * k + 10) * 2 ^ 35 - 1) * 2 ^ (-35))%Q).
  { apply double_le_exact; [lia|].
    inject_Z_in U1. inject_Z_goal.
    change (2 ^ (-35))%Q with (1 # 34359738368)%Q in *.
    change (inject_Z (2 ^ 35)) with 34359738368%Q in *.
    change (inject_Z 10) with 10%Q in *. change (inject_Z 5) with 5%Q in *.
    change (inject_Z 1) with 1%Q in *. fold K in U1 |- *. lra. }
  assert (U3 : (double (double (double x + 5) / 10)
                <= inject_Z ((k + 1) * 2 ^ 39 - 1) * 2 ^ (-39))%Q).
  { apply double_le_exact; [lia|]. apply Qle_shift_div_r; [done|].
    inject_Z_in U2. inject_Z_goal.
    change (2 ^ (-35))%Q with (1 # 34359738368)%Q in *.
    change (2 ^ (-39))%Q with (1 # 549755813888)%Q in *.
    change (inject_Z (2 ^ 35)) with 34359738368%Q in *.
    change (inject_Z (2 ^ 39)) with 549755813888%Q in *.
    change (inject_Z 10) with 10%Q in *. change (inject_Z 1) with 1%Q in *.
    fold K in U2 |- *. lra. }
  set (d := double (double (double x + 5) / 10)) in *.
  assert (Hd : (d < inject_Z (k + 1))%Q).
  { eapply Qle_lt_trans; [apply U3|].
    inject_Z_goal.
    change (2 ^ (-39))%Q with (1 # 549755813888)%Q.
    change (inject_Z (2 ^ 39)) with 549755813888%Q.
    change (inject_Z 1) with 1%Q. fold K. lra. }
  pose proof (Qfloor_resp_le _ _ L3) as Hf1. rewrite Qfloor_Z in Hf1.
  pose proof (Qfloor_le d) as Hf2.
  assert (Qfloor d < k + 1); [|lia].
  rewrite Zlt_Qlt. eapply Qle_lt_trans; [apply Hf2|apply Hd].
Qed.






(** ** mergeSummaryObjects *)

(** C2, as the specification states it, fails: with no argument the
    percentages are computed from the zero counts, and are 100. *)
Lemma mergeSummaryObjects_no_arguments_not_blank :
  pct (lines (mergeSummaryObjects [])) ≠ Unknown ∧
  pct (statements (mergeSummaryObjects [])) ≠ Unknown ∧
  pct (functions (mergeSummaryObjects [])) ≠ Unknown ∧
  pct (branches (mergeSummaryObjects [])) ≠ Unknown.
Proof. by vm_compute. Qed.

(** C2 (amended): [mergeSummaryObjects] with zero arguments returns the
    summary whose four categories have total 0, covered 0 and pct 100. *)
Theorem mergeSummaryObjects_no_arguments :
  mergeSummaryObjects [] =
    {| lines := Metrics 0 0 (Pct 100); statements := Metrics 0 0 (Pct 100);
       functions := Metrics 0 0 (Pct 100); branches := Metrics 0 0 (Pct 100) |}.
Proof. reflexivity. Qed.

Lemma mergeSummaryObjects_unfold args :
  mergeSummaryObjects args = recompute (foldl add_counts blankSummary args).
Proof.
  unfold mergeSummaryObjects. cbv zeta.
  generalize blankSummary. induction args as [|[o|] args IH]; intros ret.
  - by destruct ret.
  - simpl in *. by rewrite IH.
  - simpl in *. by rewrite IH.
Qed.

Lemma add_counts_none ret obj : no_counts obj → add_counts ret obj = ret.
Proof.
  destruct obj as [o|]; [|done]. intros Hz.
  destruct (Hz Lines), (Hz Statements), (Hz Functions), (Hz Branches).
  destruct ret as [[] [] [] []], o as [[] [] [] []]. simpl in *. subst.
  by rewrite !double_add_0_r.
Qed.

Lemma foldl_add_counts_none ret args :
  Forall no_counts args → foldl add_counts ret args = ret.
Proof.
  induction 1 as [|o args Ho _ IH]; simpl; [done|].
  by rewrite add_counts_none.
Qed.

Lemma mergeSummaryObjects_one s before after :
  Forall no_counts before → Forall no_counts after →
  mergeSummaryObjects (before ++ Some s :: after) = recompute s.
Proof.
  intros Hb Ha. rewrite mergeSummaryObjects_unfold, foldl_app. simpl.
  rewrite (foldl_add_counts_none _ before), (foldl_add_counts_none _ after) by done.
  by destruct s as [[] [] [] []].
Qed.

Lemma recompute_consistent s : consistent s → recompute s = s.
Proof.
  intros Hc. pose proof (Hc Lines). pose proof (Hc Statements).
  pose proof (Hc Functions). pose proof (Hc Branches).
  destruct s as [[] [] [] []]. simpl in *. unfold recompute. simpl. congruence.
Qed.

(** C7, as the specification states it, fails: merging the blank summary with
    a blank summary does not give the blank summary back, its percentages
    are 100 and no longer 'Unknown'. *)
Lemma mergeSummaryObjects_blank_not_identity :
  mergeSummaryObjects [Some blankSummary; Some blankSummary] ≠ blankSummary ∧
  pct (lines (mergeSummaryObjects [Some blankSummary; Some blankSummary]))
    = Pct 100.
Proof. by vm_compute. Qed.

(** C7 (amended): merging a summary [s] with blank summaries (or with
    arguments that are not given, or with merges of blank summaries), in any
    order, reproduces the total and covered counts of [s] in all four
    categories and sets every pct to percent(covered, total); so it reproduces
    [s] unchanged exactly when the pct fields of [s] are already the
    percentages of its counts, as they are in the result of a merge, which
    makes the result the same under any grouping of the fold. *)
Theorem mergeSummaryObjects_blank_identity
    (s : summary) (before after : list (option summary)) :
  Forall no_counts before → Forall no_counts after →
  let r := mergeSummaryObjects (before ++ Some s :: after) in
  (∀ key, total (category_get key r) = total (category_get key s) ∧
          covered (category_get key r) = covered (category_get key s) ∧
          pct (category_get key r)
            = Pct (percent (covered (category_get key s)) (total (category_get key s)))) ∧
  (consistent s → r = s) ∧
  mergeSummaryObjects (before ++ Some r :: after) = r ∧
  no_counts (Some blankSummary) ∧
  no_counts (Some (mergeSummaryObjects (before ++ after))).
Proof.
  intros Hb Ha r.
  assert (Hr : r = recompute s) by (by apply mergeSummaryObjects_one).
  split; [|split; [|split; [|split]]].
  - rewrite Hr. by intros []; destruct s as [[] [] [] []].
  - intros Hc. by rewrite Hr, recompute_consistent.
  - rewrite mergeSummaryObjects_one by done. rewrite Hr.
    by destruct s as [[] [] [] []].
  - by intros [].
  - rewrite mergeSummaryObjects_unfold, foldl_add_counts_none
      by (by apply Forall_app).
    by intros [].
Qed.

Lemma mergeSummaryObjects_blank_identity_witness :
  consistent sample_summary ∧
  mergeSummaryObjects [Some blankSummary; Some sample_summary; None; Some blankSummary]
  = sample_summary.
Proof.
  assert (Hblank : no_counts (Some blankSummary)) by (by intros []).
  assert (Hc : consistent sample_summary) by (intros []; vm_compute; reflexivity).
  split; [exact Hc|].
  destruct (mergeSummaryObjects_blank_identity sample_summary
              [Some blankSummary] [None; Some blankSummary]
              (Forall_cons_2 _ _ _ Hblank (Forall_nil_2 _))
              (Forall_cons_2 _ _ _ (I : no_counts None)
                 (Forall_cons_2 _ _ _ Hblank (Forall_nil_2 _))))
    as (_ & Hsame & _).
  exact (Hsame Hc).
Defined.

(** ** Running computations *)

Lemma bind_run {A B} (m : M A) (f : A → M B) h a h' :
  m h = (Ok a, h') → (m ≫= f) h = f a h'.
Proof. unfold mbind, M_bind. by intros ->. Qed.

Lemma bind_fail {A B} (m : M A) (f : A → M B) h e h' :
  m h = (Err e, h') → (m ≫= f) h = (Err e, h').
Proof. unfold mbind, M_bind. by intros ->. Qed.

Lemma bind_outcome {A B} (m : M A) (f : A → M B) h r h' :
  m h = (r, h') →
  (m ≫= f) h = match r with Ok a => f a h' | Err e => (Err e, h') end.
Proof. unfold mbind, M_bind. by intros ->. Qed.

Lemma get_ref h l o k :
  h !! l = Some o → get (VRef l) k h = (Ok (own_prop o k), h).
Proof. intros Hl. unfold get, deref, mbind, M_bind. by rewrite Hl. Qed.

Lemma get_object h v props k :
  read_object h v = Some props → get v k h = (Ok (default VUndef (props !! k)), h).
Proof.
  unfold read_object. intros Hv. destruct v as [| | | | |l]; try done.
  destruct (h !! l) as [[]|] eqn:Hl; simplify_eq. by rewrite (get_ref _ _ _ _ Hl).
Qed.

Lemma set_object h l props k v :
  h !! l = Some (Obj props) →
  set (VRef l) k v h = (Ok tt, <[l := Obj (<[k := v]> props)]> h).
Proof. intros Hl. unfold set, deref, mbind, M_bind. by rewrite Hl. Qed.

Section Proofs.
Context `{!KeyOrder}.

Lemma own_keys_elem (m : gmap string val) k : k ∈ own_keys m ↔ is_Some (m !! k).
Proof.
  rewrite (own_keys_perm m), list_elem_of_fmap. split.
  - intros [[k' v] [-> Hkv%elem_of_map_to_list]]. by exists v.
  - intros [v Hv]. exists (k, v). split; [done|]. by apply elem_of_map_to_list.
Qed.

Lemma own_keys_NoDup (m : gmap string val) : NoDup (own_keys m).
Proof. rewrite (own_keys_perm m). apply NoDup_fst_map_to_list. Qed.

Lemma Object_keys_object h v props :
  read_object h v = Some props → Object_keys v h = (Ok (own_keys props), h).
Proof.
  unfold read_object. intros Hv. destruct v as [| | | | |l]; try done.
  destruct (h !! l) as [[]|] eqn:Hl; simplify_eq.
  unfold Object_keys, deref, mbind, M_bind. by rewrite Hl.
Qed.

End Proofs.

(** ** Reading the store *)

Lemma traverse_Some {A B} (f : A → option B) m m' :
  traverse f m = Some m' → ∀ k, m' !! k = m !! k ≫= f.
Proof.
  unfold traverse. case_decide; [|done]. intros [= <-] k. by rewrite lookup_omap.
Qed.

Lemma traverse_lookup {A B} (f : A → option B) m m' k x :
  traverse f m = Some m' → m !! k = Some x → ∃ y, f x = Some y ∧ m' !! k = Some y.
Proof.
  unfold traverse. case_decide as Hall; [|done]. intros [= <-] Hk.
  destruct (Hall k x Hk) as [y Hy]. exists y. split; [done|].
  by rewrite lookup_omap, Hk.
Qed.

Lemma traverse_dom {A B} (f : A → option B) m m' :
  traverse f m = Some m' → dom m' = dom m.
Proof.
  intros Ht. apply set_eq. intros k. rewrite !elem_of_dom.
  rewrite (traverse_Some _ _ _ Ht). split.
  - intros [y Hy]. destruct (m !! k); [by eexists|done].
  - intros [x Hx]. destruct (traverse_lookup _ _ _ _ _ Ht Hx) as (y & Hy & _).
    rewrite Hx. simpl. by eexists.
Qed.

Lemma traverse_intro {A B} (f : A → option B) (m : gmap string A) :
  (∀ k x, m !! k = Some x → is_Some (f x)) → traverse f m = Some (omap f m).
Proof. intros Hall. unfold traverse. by rewrite decide_True. Qed.

Lemma traverse_as_num props m : traverse as_num props = Some m → props = VNum <$> m.
Proof.
  intros Ht. apply map_eq. intros k.
  rewrite lookup_fmap, (traverse_Some _ _ _ Ht).
  destruct (props !! k) as [v|] eqn:Hk; [|done].
  destruct (traverse_lookup _ _ _ _ _ Ht Hk) as (n & Hn & _).
  destruct v; simplify_eq/=. done.
Qed.

Lemma traverse_as_num_fmap (m : gmap string Z) : traverse as_num (VNum <$> m) = Some m.
Proof.
  rewrite traverse_intro.
  - f_equal. apply map_eq. intros k. rewrite lookup_omap, lookup_fmap.
    by destruct (m !! k).
  - intros k x. rewrite lookup_fmap. destruct (m !! k); naive_solver.
Qed.

(** ** Derived line coverage *)

#[local] Arguments get : simpl never.
#[local] Arguments set : simpl never.
#[local] Arguments js_lt : simpl never.
#[local] Arguments js_add : simpl never.

Lemma lines_of_step lines s ks lm st line0 c0 :
  lines !! st = Some line0 → s !! st = Some c0 →
  lines_of lines s ks lm →
  lines_of lines s (ks ++ [st]) (line_step lines s lm st).
Proof.
  intros Hline Hc [Hdom Hmax]. unfold line_step. rewrite Hline, Hc.
  assert (Hnew : ∀ prev : option Z,
    lm !! pretty line0 = prev → (∀ p, prev = Some p → p < c0) →
    lines_of lines s (ks ++ [st]) (<[pretty line0 := c0]> lm)).
  { intros prev Hprev Hlt. split.
    - intros key. rewrite dom_insert, elem_of_union, elem_of_singleton, Hdom.
      setoid_rewrite elem_of_app. setoid_rewrite list_elem_of_singleton.
      split.
      + intros [->|(st' & line & ? & ? & ?)]; [by exists st, line0; auto|].
        exists st', line. auto.
      + intros (st' & line & [?| ->] & ? & ->); [right; by exists st', line|].
        left. congruence.
    - intros line c. destruct (decide (line = line0)) as [->|Hne].
      + rewrite lookup_insert_eq. intros [= <-]. split.
        * exists st. rewrite elem_of_app, list_elem_of_singleton. auto.
        * intros st' c'. rewrite elem_of_app, list_elem_of_singleton.
          intros [Hin| ->] Hl' Hc'; [|by simplify_eq].
          destruct prev as [p|].
          -- destruct (Hmax _ _ Hprev) as [_ Hle].
             specialize (Hle _ _ Hin Hl' Hc'). specialize (Hlt _ eq_refl). lia.
          -- assert (pretty line0 ∈ dom lm) as [? ?]%elem_of_dom; [|congruence].
             apply Hdom. by exists st', line0.
      + rewrite lookup_insert_ne by (by intros ?%(inj pretty)).
        intros Hlm. destruct (Hmax _ _ Hlm) as [(st' & ? & ? & ?) Hle]. split.
        * exists st'. rewrite elem_of_app. auto.
        * intros st'' c'. rewrite elem_of_app, list_elem_of_singleton.
          intros [?| ->]; [by eauto|]. congruence. }
  destruct (lm !! pretty line0) as [prev|] eqn:Hprev.
  - case_bool_decide as Hlt.
    + apply (Hnew (Some prev)); [done|]. by intros ? [= <-].
    + split.
      * intros key. rewrite Hdom. setoid_rewrite elem_of_app.
        setoid_rewrite list_elem_of_singleton. split.
        -- intros (st' & line & ? & ? & ?). exists st', line. auto.
        -- intros (st' & line & [?| ->] & ? & ->); [by exists st', line|].
           simplify_eq. apply Hdom, elem_of_dom. eauto.
      * intros line c Hlm. destruct (Hmax _ _ Hlm) as [(st' & ? & ? & ?) Hle]. split.
        -- exists st'. rewrite elem_of_app. auto.
        -- intros st'' c'. rewrite elem_of_app, list_elem_of_singleton.
           intros [?| ->]; [by eauto|]. intros ? ?. simplify_eq. lia.
  - apply (Hnew None); [done|]. by intros ? [=].
Qed.

Lemma lines_of_foldl lines s ks :
  (∀ st, st ∈ ks → st ∈ dom s ∧ st ∈ dom lines) →
  lines_of lines s ks (foldl (line_step lines s) ∅ ks).
Proof.
  induction ks as [|st ks IH] using rev_ind; intros Hks.
  - split.
    + intros key. simpl. rewrite dom_empty_L, elem_of_empty. split; [done|].
      by intros (? & ? & ?%elem_of_nil & _).
    + intros line c. simpl. by rewrite lookup_empty.
  - rewrite foldl_app. simpl.
    destruct (Hks st) as [[c Hc]%elem_of_dom [line Hline]%elem_of_dom].
    { rewrite elem_of_app, list_elem_of_singleton. auto. }
    eapply lines_of_step; [done..|]. apply IH.
    intros st' Hst'. apply Hks. rewrite elem_of_app. auto.
Qed.

(** Reads are not affected by a new object. *)
Lemma read_object_alloc (h : heap) q o v props :
  h !! q = None → read_object h v = Some props →
  read_object (<[q := o]> h) v = Some props.
Proof.
  intros Hq. unfold read_object. destruct v as [| | | | |x]; try done.
  destruct (decide (x = q)) as [->|Hne]; [by rewrite Hq|].
  by rewrite lookup_insert_ne.
Qed.

Lemma read_start_line_inv h entry line :
  read_start_line h entry = Some line →
  ∃ eprops start sprops,
    read_object h entry = Some eprops ∧ eprops !! "start"%string = Some start ∧
    read_object h start = Some sprops ∧ sprops !! "line"%string = Some (VNum line).
Proof.
  unfold read_start_line. intros Hr.
  destruct (read_object h entry) as [eprops|] eqn:He; [|done]. simpl in Hr.
  destruct (eprops !! "start"%string) as [start|] eqn:Hs; [|done]. simpl in Hr.
  destruct (read_object h start) as [sprops|] eqn:Hso; [|done]. simpl in Hr.
  destruct (sprops !! "line"%string) as [[]|] eqn:Hl; simplify_eq/=.
  by exists eprops, start, sprops.
Qed.

Lemma read_counts_inv h v m :
  read_counts h v = Some m → read_object h v = Some (VNum <$> m).
Proof.
  unfold read_counts. destruct (read_object h v) as [props|]; [|done]. simpl.
  by intros ->%traverse_as_num.
Qed.

Lemma read_statementMap_inv h v lines :
  read_statementMap h v = Some lines →
  ∃ props, read_object h v = Some props ∧ dom props = dom lines ∧
    ∀ st line, lines !! st = Some line →
      ∃ entry, props !! st = Some entry ∧ read_start_line h entry = Some line.
Proof.
  unfold read_statementMap. destruct (read_object h v) as [props|]; [|done]. simpl.
  intros Ht. exists props. split; [done|]. split.
  { symmetry. by eapply traverse_dom. }
  intros st line Hst. rewrite (traverse_Some _ _ _ Ht) in Hst.
  destruct (props !! st) as [entry|]; [|done]. by exists entry.
Qed.

Section Proofs.
Context `{!KeyOrder}.

Lemma line_loop (h : heap) (q : loc) statementMap statements lines s ks acc :
  h !! q = None →
  read_statementMap h statementMap = Some lines →
  read_counts h statements = Some s →
  (∀ st, st ∈ ks → st ∈ dom s ∧ st ∈ dom lines) →
  forEach ks (λ st,
      entry ← get statementMap st;
      start ← get entry "start";
      line ← get start "line";
      count ← get statements st;
      key ← lift (ToString line);
      prevVal ← get (VRef q) key;
      smaller ← (if decide (prevVal = VUndef) then mret true
                 else js_lt prevVal count);
      if smaller : bool then set (VRef q) key count else mret tt)
    (<[q := Obj (VNum <$> acc)]> h)
  = (Ok tt, <[q := Obj (VNum <$> foldl (line_step lines s) acc ks)]> h).
Proof.
  intros Hq Hsm Hs. revert acc. induction ks as [|st ks IH]; intros acc Hks; [done|].
  destruct (Hks st) as [[c Hc]%elem_of_dom [line Hline]%elem_of_dom]; [left|].
  destruct (read_statementMap_inv _ _ _ Hsm) as (smprops & Hsmo & _ & Hentries).
  destruct (Hentries _ _ Hline) as (entry & Hentry & Hsl).
  destruct (read_start_line_inv _ _ _ Hsl) as (eprops & start & sprops & He & Hstart & Hso & Hl).
  apply read_counts_inv in Hs as Hso'.
  simpl forEach.
  erewrite bind_run; [|].
  2:{ erewrite bind_run by (by eapply get_object, read_object_alloc).
      rewrite Hentry. simpl.
      erewrite bind_run by (by eapply get_object, read_object_alloc).
      rewrite Hstart. simpl.
      erewrite bind_run by (by eapply get_object, read_object_alloc).
      rewrite Hl. simpl.
      erewrite bind_run by (by eapply get_object, read_object_alloc).
      rewrite lookup_fmap, Hc. simpl.
      erewrite bind_run by reflexivity.
      erewrite bind_run by (eapply get_ref; apply lookup_insert_eq).
      simpl. rewrite lookup_fmap.
      instantiate (1 := <[q := Obj (VNum <$> line_step lines s acc st)]> h).
      instantiate (1 := tt).
      unfold line_step. rewrite Hline, Hc.
      destruct (acc !! pretty line) as [prev|] eqn:Hprev; simpl.
      - erewrite bind_run by reflexivity. simpl.
        case_bool_decide.
        + erewrite set_object by apply lookup_insert_eq.
          by rewrite insert_insert_eq, fmap_insert.
        + done.
      - erewrite bind_run by reflexivity. simpl.
        erewrite set_object by apply lookup_insert_eq.
        by rewrite insert_insert_eq, fmap_insert. }
  simpl. apply IH. intros st' Hst'. apply Hks. by right.
Qed.

End Proofs.

(** ** Reads that a change of [l] leaves alone *)

Lemma same_but_l_extend (h h' : heap) : h ⊆ h' → same_but_l (fresh (dom h)) h h'.
Proof.
  intros Hsub x o Hx. case_decide as Heq.
  - subst x. apply elem_of_dom_2 in Hx. by apply is_fresh in Hx.
  - by eapply lookup_weaken.
Qed.

Lemma same_but_l_set h p props v :
  h !! p = Some (Obj props) →
  same_but_l p h (<[p := Obj (<["l"%string := v]> props)]> h).
Proof.
  intros Hp x o Hx. case_decide as Heq.
  - subst x. exists props, (<["l"%string := v]> props). simplify_eq.
    rewrite lookup_insert_eq. split; [done|]. split; [done|].
    intros k Hk. by rewrite lookup_insert_ne.
  - by rewrite lookup_insert_ne.
Qed.

Lemma same_but_l_alloc p h h' q o :
  same_but_l p h h' → h !! q = None → same_but_l p h (<[q := o]> h').
Proof.
  intros Hf Hq x o' Hx. specialize (Hf x o' Hx).
  assert (x ≠ q) by congruence.
  case_decide.
  - destruct Hf as (props & props' & ? & ? & ?). exists props, props'.
    by rewrite lookup_insert_ne.
  - by rewrite lookup_insert_ne.
Qed.

Section Frame.
Context (p : loc) (h h' : heap) (Hframe : same_but_l p h h').

Lemma read_object_frame v props :
  v ≠ VRef p → read_object h v = Some props → read_object h' v = Some props.
Proof.
  unfold read_object. intros Hv. destruct v as [| | | | |x]; try done.
  destruct (h !! x) as [[m|]|] eqn:Hx; try done. intros [= ->].
  specialize (Hframe x _ Hx). rewrite decide_False in Hframe by congruence.
  by rewrite Hframe.
Qed.

Lemma read_object_frame_key v props k :
  k ≠ "l"%string → read_object h v = Some props →
  ∃ props', read_object h' v = Some props' ∧ props' !! k = props !! k.
Proof.
  unfold read_object. intros Hk. destruct v as [| | | | |x]; try done.
  destruct (h !! x) as [[m|]|] eqn:Hx; try done. intros [= ->].
  specialize (Hframe x _ Hx). case_decide.
  - destruct Hframe as (m & m' & [= <-] & -> & Hm). exists m'. auto.
  - rewrite Hframe. eauto.
Qed.

Lemma read_array_frame v elems :
  read_array h v = Some elems → read_array h' v = Some elems.
Proof.
  unfold read_array. destruct v as [| | | | |x]; try done.
  destruct (h !! x) as [[|e]|] eqn:Hx; try done. intros [= ->].
  specialize (Hframe x _ Hx). case_decide.
  - by destruct Hframe as (? & ? & ? & _).
  - by rewrite Hframe.
Qed.

Lemma read_arms_frame v arms : read_arms h v = Some arms → read_arms h' v = Some arms.
Proof.
  unfold read_arms. destruct (read_array h v) as [elems|] eqn:He; [|done].
  by rewrite (read_array_frame _ _ He).
Qed.

Lemma read_start_line_frame entry line :
  read_start_line h entry = Some line → read_start_line h' entry = Some line.
Proof.
  intros (eprops & start & sprops & He & Hstart & Hso & Hl)%read_start_line_inv.
  destruct (read_object_frame_key _ _ "start"%string ltac:(done) He) as (eprops' & He' & Hk).
  destruct (read_object_frame_key _ _ "line"%string ltac:(done) Hso) as (sprops' & Hso' & Hk').
  unfold read_start_line. rewrite He'. simpl. rewrite Hk, Hstart. simpl.
  rewrite Hso'. simpl. by rewrite Hk', Hl.
Qed.

Lemma read_function_frame entry fn :
  read_function h entry = Some fn → read_function h' entry = Some fn.
Proof.
  unfold read_function. destruct (read_object h entry) as [props|] eqn:He; [|done].
  destruct (read_object_frame_key _ _ "name"%string ltac:(done) He) as (props' & He' & Hk).
  destruct (read_object_frame_key _ _ "line"%string ltac:(done) He) as (props'' & He'' & Hk').
  simplify_eq. rewrite He'. simpl. by rewrite Hk, Hk'.
Qed.

End Frame.

Lemma traverse_ext {A B} (f g : A → option B) (m : gmap string A) m' :
  traverse f m = Some m' →
  (∀ k x y, m !! k = Some x → f x = Some y → g x = Some y) →
  traverse g m = Some m'.
Proof.
  intros Ht Hfg. rewrite traverse_intro.
  - f_equal. apply map_eq. intros k. rewrite lookup_omap, (traverse_Some _ _ _ Ht).
    destruct (m !! k) as [x|] eqn:Hk; [|done]. simpl.
    destruct (traverse_lookup _ _ _ _ _ Ht Hk) as (y & Hy & _).
    by rewrite (Hfg _ _ _ Hk Hy).
  - intros k x Hk. destruct (traverse_lookup _ _ _ _ _ Ht Hk) as (y & Hy & _).
    exists y. eauto.
Qed.

Section FrameMaps.
Context (p : loc) (h h' : heap) (Hframe : same_but_l p h h').

Lemma read_counts_frame v m :
  v ≠ VRef p → read_counts h v = Some m → read_counts h' v = Some m.
Proof.
  unfold read_counts. intros Hv. destruct (read_object h v) as [props|] eqn:Ho; [|done].
  by rewrite (read_object_frame _ _ _ Hframe _ _ Hv Ho).
Qed.

Lemma read_branches_frame v m :
  v ≠ VRef p → read_branches h v = Some m → read_branches h' v = Some m.
Proof.
  unfold read_branches. intros Hv. destruct (read_object h v) as [props|] eqn:Ho; [|done].
  rewrite (read_object_frame _ _ _ Hframe _ _ Hv Ho). simpl. intros Ht.
  eapply traverse_ext; [done|]. intros. by eapply read_arms_frame.
Qed.

Lemma read_statementMap_frame v m :
  v ≠ VRef p → read_statementMap h v = Some m → read_statementMap h' v = Some m.
Proof.
  unfold read_statementMap. intros Hv. destruct (read_object h v) as [props|] eqn:Ho; [|done].
  rewrite (read_object_frame _ _ _ Hframe _ _ Hv Ho). simpl. intros Ht.
  eapply traverse_ext; [done|]. intros. by eapply read_start_line_frame.
Qed.

Lemma read_fnMap_frame v m :
  v ≠ VRef p → read_fnMap h v = Some m → read_fnMap h' v = Some m.
Proof.
  unfold read_fnMap. intros Hv. destruct (read_object h v) as [props|] eqn:Ho; [|done].
  rewrite (read_object_frame _ _ _ Hframe _ _ Hv Ho). simpl. intros Ht.
  eapply traverse_ext; [done|]. intros. by eapply read_function_frame.
Qed.

End FrameMaps.

(** ** The file object is none of its parts *)

Section FileObject.
Context (h : heap) (p : loc) (props : gmap string val) (vs : val) (s : gmap string Z).
Context (Hp : h !! p = Some (Obj props)) (Hvs : props !! "s"%string = Some vs).
Context (Hs : read_counts h vs = Some s).

Lemma file_object_not_counts v m : read_counts h v = Some m → v ≠ VRef p.
Proof.
  intros Hm%read_counts_inv ->. unfold read_object in Hm. rewrite Hp in Hm.
  simplify_eq. rewrite lookup_fmap in Hvs.
  by destruct (m !! "s"%string); simplify_eq/=.
Qed.

Lemma file_object_not_statementMap v m : read_statementMap h v = Some m → v ≠ VRef p.
Proof.
  unfold read_statementMap. intros Hm ->. unfold read_object in Hm at 1.
  rewrite Hp in Hm. simpl in Hm.
  destruct (traverse_lookup _ _ _ _ _ Hm Hvs) as (line & Hline & _).
  apply read_start_line_inv in Hline as (eprops & start & sprops & He & Hstart & Hso & _).
  rewrite (read_counts_inv _ _ _ Hs) in He. simplify_eq.
  rewrite lookup_fmap in Hstart. by destruct (s !! "start"%string); simplify_eq/=.
Qed.

Lemma file_object_not_fnMap v m : read_fnMap h v = Some m → v ≠ VRef p.
Proof.
  unfold read_fnMap. intros Hm ->. unfold read_object in Hm at 1.
  rewrite Hp in Hm. simpl in Hm.
  destruct (traverse_lookup _ _ _ _ _ Hm Hvs) as (fn & Hfn & _).
  unfold read_function in Hfn. rewrite (read_counts_inv _ _ _ Hs) in Hfn.
  simpl in Hfn. rewrite !lookup_fmap in Hfn.
  by destruct (s !! "name"%string); simplify_eq/=.
Qed.

Lemma file_object_not_branches v m : read_branches h v = Some m → v ≠ VRef p.
Proof.
  unfold read_branches. intros Hm ->. unfold read_object in Hm at 1.
  rewrite Hp in Hm. simpl in Hm.
  destruct (traverse_lookup _ _ _ _ _ Hm Hvs) as (arms & Harms & _).
  unfold read_arms in Harms. pose proof (read_counts_inv _ _ _ Hs) as Ho.
  unfold read_array in Harms. unfold read_object in Ho.
  destruct vs as [| | | | |x]; try done. by destruct (h !! x) as [[]|].
Qed.

End FileObject.

Section Proofs.
Context `{!KeyOrder}.

(** What [addDerivedInfoForFile] does to a file object with statement
    coverage and no line coverage. *)
Lemma addDerivedInfoForFile_derives h fc props statementMap statements lines s :
  read_object h fc = Some props →
  props !! "l"%string = None →
  props !! "statementMap"%string = Some statementMap →
  read_statementMap h statementMap = Some lines →
  props !! "s"%string = Some statements →
  read_counts h statements = Some s →
  dom s ⊆ dom lines →
  ∃ p lm, fc = VRef p ∧
    addDerivedInfoForFile fc h
    = (Ok tt, <[fresh (dom h) := Obj (VNum <$> lm)]>
                (<[p := Obj (<["l"%string := VRef (fresh (dom h))]> props)]> h)) ∧
    lines_of lines s (own_keys (VNum <$> s)) lm.
Proof.
  intros Hfc Hl Hsm Hlines Hs Hcounts Hdom.
  assert (∃ p, fc = VRef p ∧ h !! p = Some (Obj props)) as (p & -> & Hp).
  { unfold read_object in Hfc. destruct fc as [| | | | |p]; try done.
    exists p. by destruct (h !! p) as [[]|]; simplify_eq. }
  set (q := fresh (dom h)).
  assert (Hq : h !! q = None) by (apply not_elem_of_dom, is_fresh).
  assert (Hpq : p ≠ q) by congruence.
  set (h1 := <[p := Obj (<["l"%string := VRef q]> props)]> h).
  assert (Hframe : same_but_l p h h1) by (by apply same_but_l_set).
  assert (Hq1 : h1 !! q = None) by (unfold h1; by rewrite lookup_insert_ne).
  assert (Hks : ∀ st, st ∈ own_keys (VNum <$> s) → st ∈ dom s ∧ st ∈ dom lines).
  { intros st Hst%own_keys_elem. rewrite lookup_fmap in Hst.
    assert (st ∈ dom s) by (apply elem_of_dom; by destruct (s !! st), Hst).
    split; [done|]. by apply Hdom. }
  exists p, (foldl (line_step lines s) ∅ (own_keys (VNum <$> s))).
  split; [done|]. split; [|by apply lines_of_foldl].
  unfold addDerivedInfoForFile.
  erewrite bind_run by (by eapply get_object). rewrite Hsm. simpl.
  erewrite bind_run by (by eapply get_object). rewrite Hs. simpl.
  erewrite bind_run by (by eapply get_object). rewrite Hl. simpl.
  erewrite bind_run by reflexivity. fold q.
  erewrite bind_run.
  2:{ apply set_object. by rewrite lookup_insert_ne. }
  rewrite (insert_insert_ne h) by done. fold h1.
  replace (Obj ∅) with (Obj (VNum <$> (∅ : gmap string Z))) by (by rewrite fmap_empty).
  pose proof (read_counts_frame _ _ _ Hframe _ _
                (file_object_not_counts _ _ _ _ _ Hp Hs Hcounts _ _ Hcounts) Hcounts) as Hcounts1.
  pose proof (read_statementMap_frame _ _ _ Hframe _ _
                (file_object_not_statementMap _ _ _ _ _ Hp Hs Hcounts _ _ Hlines) Hlines) as Hlines1.
  erewrite bind_run.
  2:{ apply Object_keys_object. apply read_object_alloc; [done|].
      by apply read_counts_inv. }
  by apply line_loop.
Qed.

End Proofs.

(** ** Reading a file object *)

Lemma read_file_inv h v r :
  read_file h v = Some r →
  ∃ props vsm vs vfn vf vb,
    read_object h v = Some props ∧
    props !! "statementMap"%string = Some vsm ∧
    read_statementMap h vsm = Some (FileCoverage.statementMap r) ∧
    props !! "s"%string = Some vs ∧ read_counts h vs = Some (FileCoverage.s r) ∧
    props !! "fnMap"%string = Some vfn ∧ read_fnMap h vfn = Some (FileCoverage.fnMap r) ∧
    props !! "f"%string = Some vf ∧ read_counts h vf = Some (FileCoverage.f r) ∧
    props !! "b"%string = Some vb ∧ read_branches h vb = Some (FileCoverage.b r) ∧
    match props !! "l"%string with
    | None => FileCoverage.l r = None
    | Some vl => ∃ lm, read_counts h vl = Some lm ∧ FileCoverage.l r = Some lm
    end.
Proof.
  unfold read_file. intros Hr.
  destruct (read_object h v) as [props|] eqn:E1; [|done]. simpl in Hr.
  destruct (props !! "statementMap"%string) as [vsm|] eqn:E2; [|done]. simpl in Hr.
  destruct (read_statementMap h vsm) as [lines|] eqn:E3; [|done]. simpl in Hr.
  destruct (props !! "s"%string) as [vs|] eqn:E4; [|done]. simpl in Hr.
  destruct (read_counts h vs) as [s|] eqn:E5; [|done]. simpl in Hr.
  destruct (props !! "fnMap"%string) as [vfn|] eqn:E6; [|done]. simpl in Hr.
  destruct (read_fnMap h vfn) as [fns|] eqn:E7; [|done]. simpl in Hr.
  destruct (props !! "f"%string) as [vf|] eqn:E8; [|done]. simpl in Hr.
  destruct (read_counts h vf) as [f|] eqn:E9; [|done]. simpl in Hr.
  destruct (props !! "b"%string) as [vb|] eqn:E10; [|done]. simpl in Hr.
  destruct (read_branches h vb) as [b|] eqn:E11; [|done]. simpl in Hr.
  exists props, vsm, vs, vfn, vf, vb.
  destruct (props !! "l"%string) as [vl|].
  - destruct (read_counts h vl) as [lm|] eqn:El; simplify_eq/=.
    do 11 (split; [done|]). by exists lm.
  - simplify_eq/=. by do 11 (split; [done|]).
Qed.

Lemma read_file_intro h v props vsm vs vfn vf vb lines s fns f b l :
  read_object h v = Some props →
  props !! "statementMap"%string = Some vsm → read_statementMap h vsm = Some lines →
  props !! "s"%string = Some vs → read_counts h vs = Some s →
  props !! "fnMap"%string = Some vfn → read_fnMap h vfn = Some fns →
  props !! "f"%string = Some vf → read_counts h vf = Some f →
  props !! "b"%string = Some vb → read_branches h vb = Some b →
  match props !! "l"%string with
  | None => l = None
  | Some vl => ∃ lm, read_counts h vl = Some lm ∧ l = Some lm
  end →
  read_file h v = Some (FileCoverage.Make lines s fns f b l).
Proof.
  intros Ho Hsm Hlines Hs Hcounts Hfn Hfns Hf Hfc Hb Hbc Hl. unfold read_file.
  rewrite Ho. simpl. rewrite Hsm. simpl. rewrite Hlines. simpl.
  rewrite Hs. simpl. rewrite Hcounts. simpl. rewrite Hfn. simpl. rewrite Hfns. simpl.
  rewrite Hf. simpl. rewrite Hfc. simpl. rewrite Hb. simpl. rewrite Hbc. simpl.
  destruct (props !! "l"%string) as [vl|].
  - destruct Hl as (lm & -> & ->). done.
  - by subst l.
Qed.

Lemma read_object_ref h v props :
  read_object h v = Some props → ∃ p, v = VRef p ∧ h !! p = Some (Obj props).
Proof.
  unfold read_object. destruct v as [| | | | |p]; try done.
  exists p. by destruct (h !! p) as [[]|]; simplify_eq.
Qed.

(** The file object after [addDerivedInfoForFile] has given it the line
    coverage [lm]. *)
Lemma read_file_derived h p props r lm :
  read_file h (VRef p) = Some r → h !! p = Some (Obj props) →
  read_file (<[fresh (dom h) := Obj (VNum <$> lm)]>
               (<[p := Obj (<["l"%string := VRef (fresh (dom h))]> props)]> h)) (VRef p)
  = Some (FileCoverage.Make (FileCoverage.statementMap r) (FileCoverage.s r)
            (FileCoverage.fnMap r) (FileCoverage.f r) (FileCoverage.b r) (Some lm)).
Proof.
  intros Hr Hp.
  destruct (read_file_inv _ _ _ Hr)
    as (props' & vsm & vs & vfn & vf & vb & Ho & Hsm & Hlines & Hs & Hcounts
        & Hfn & Hfns & Hf & Hfc & Hb & Hbc & _).
  unfold read_object in Ho. rewrite Hp in Ho. simplify_eq.
  set (q := fresh (dom h)).
  assert (Hq : h !! q = None) by (apply not_elem_of_dom, is_fresh).
  assert (Hpq : p ≠ q) by congruence.
  set (h' := <[q := _]> _).
  assert (Hframe : same_but_l p h h').
  { apply same_but_l_alloc; [|done]. by apply same_but_l_set. }
  eapply (read_file_intro h' _ (<["l"%string := VRef q]> props')).
  - unfold read_object, h'. by rewrite lookup_insert_ne, lookup_insert_eq.
  - by rewrite lookup_insert_ne.
  - eapply read_statementMap_frame; [done| |done].
    by eapply file_object_not_statementMap.
  - by rewrite lookup_insert_ne.
  - eapply read_counts_frame; [done| |done]. by eapply file_object_not_counts.
  - by rewrite lookup_insert_ne.
  - eapply read_fnMap_frame; [done| |done]. by eapply file_object_not_fnMap.
  - by rewrite lookup_insert_ne.
  - eapply read_counts_frame; [done| |done]. by eapply file_object_not_counts.
  - by rewrite lookup_insert_ne.
  - eapply read_branches_frame; [done| |done]. by eapply file_object_not_branches.
  - rewrite lookup_insert_eq. exists lm. split; [|done].
    unfold read_counts, read_object, h'. rewrite lookup_insert_eq. simpl.
    apply traverse_as_num_fmap.
Qed.

Section Proofs.
Context `{!KeyOrder}.


End Proofs.


(** ** Keys that denote a position of an array *)

Lemma pretty_N_go_head x s :
  (∃ c s', s = String c s' ∧ digit c) →
  ∃ c s', pretty_N_go x s = String c s' ∧ digit c.
Proof.
  revert s. induction (N.lt_wf_0 x) as [x _ IH]. intros s Hs.
  destruct (decide (x = 0)%N) as [->|Hx]; [by rewrite pretty_N_go_0|].
  rewrite pretty_N_go_step by lia. apply IH.
  - apply N.div_lt; lia.
  - eexists _, _. split; [done|]. by eexists.
Qed.

Lemma pretty_nat_head (i : nat) :
  ∃ c s', pretty (Z.of_nat i) = String c s' ∧ digit c.
Proof.
  destruct i as [|i].
  - exists "0"%char, ""%string. split; [done|]. by exists 0%N.
  - simpl. unfold pretty, pretty_Z. simpl.
    unfold pretty, pretty_positive, pretty, pretty_N.
    rewrite decide_False by done.
    rewrite pretty_N_go_step by lia. apply pretty_N_go_head.
    eexists _, _. split; [done|]. by eexists.
Qed.

Lemma digit_not_l c : digit c → c ≠ "l"%char.
Proof. intros [d ->]. unfold pretty_N_char. by repeat case_match. Qed.

Lemma pretty_nat_not_l (i : nat) : pretty (Z.of_nat i) ≠ "l"%string.
Proof.
  destruct (pretty_nat_head i) as (c & s' & -> & Hc). intros [= -> _].
  by apply digit_not_l in Hc.
Qed.

Lemma pretty_nat_not_length (i : nat) : pretty (Z.of_nat i) ≠ "length"%string.
Proof.
  destruct (pretty_nat_head i) as (c & s' & -> & Hc). intros [= -> _].
  by apply digit_not_l in Hc.
Qed.

Lemma array_index_None k n :
  (∀ i : nat, pretty (Z.of_nat i) ≠ k) → array_index k n = None.
Proof.
  intros Hk. unfold array_index.
  destruct (list_find _ _) as [[i x]|] eqn:Hfind; [|done].
  apply list_find_Some in Hfind as (_ & Hx & _). by destruct (Hk x).
Qed.

Lemma array_index_lookup (i n : nat) :
  (i < n)%nat → array_index (pretty (Z.of_nat i)) n = Some i.
Proof.
  intros Hi. unfold array_index.
  destruct (list_find _ _) as [[j x]|] eqn:Hfind.
  - apply list_find_Some in Hfind as (Hj & Hx & _).
    apply (inj pretty), (inj Z.of_nat) in Hx. subst x.
    apply lookup_seq in Hj as [-> _]. done.
  - apply list_find_None in Hfind. rewrite Forall_forall in Hfind.
    destruct (Hfind i); [|done]. apply elem_of_seq. lia.
Qed.

(** ** Computations that only read, or write one object *)

Lemma bind_inv {A B} (m : M A) (f : A → M B) h b h' :
  (m ≫= f) h = (Ok b, h') → ∃ a h1, m h = (Ok a, h1) ∧ f a h1 = (Ok b, h').
Proof.
  unfold mbind, M_bind. destruct (m h) as [[a|e] h1]; [|done]. intros Hf.
  by exists a, h1.
Qed.

Lemma reads_only_ret {A} (a : A) : reads_only (mret a).
Proof. by intros h r h' [= _ ->]. Qed.

Lemma reads_only_throw {A} e : reads_only (throw (A:=A) e).
Proof. by intros h r h' [= _ ->]. Qed.

Lemma reads_only_lift {A} (x : result A) : reads_only (lift x).
Proof. by intros h r h' [= _ ->]. Qed.

Lemma reads_only_bind {A B} (m : M A) (f : A → M B) :
  reads_only m → (∀ a, reads_only (f a)) → reads_only (m ≫= f).
Proof.
  intros Hm Hf h r h'. unfold mbind, M_bind.
  destruct (m h) as [[a|e] h1] eqn:Hrun.
  - intros Hrun'. apply Hf in Hrun'. apply Hm in Hrun. congruence.
  - intros [= _ <-]. by eapply Hm.
Qed.

Lemma reads_only_deref l : reads_only (deref l).
Proof. intros h r h'. unfold deref. by destruct (h !! l); intros [= _ ->]. Qed.

Lemma reads_only_get v k : reads_only (get v k).
Proof.
  unfold get. destruct v; auto using reads_only_ret, reads_only_throw.
  apply reads_only_bind; auto using reads_only_deref, reads_only_ret.
Qed.

Lemma reads_only_js_lt a b : reads_only (js_lt a b).
Proof.
  unfold js_lt. repeat (apply reads_only_bind; [apply reads_only_lift|intros ?]).
  apply reads_only_ret.
Qed.

Lemma reads_only_js_add a b : reads_only (js_add a b).
Proof.
  unfold js_add.
  destruct a, b;
    repeat first [apply reads_only_throw | apply reads_only_ret
                 | apply reads_only_bind; [apply reads_only_lift|intros ?]].
Qed.

Lemma reads_only_writes_only q {A} (m : M A) : reads_only m → writes_only q m.
Proof. intros Hm h r h' Hrun x _. by rewrite (Hm _ _ _ Hrun). Qed.

Lemma writes_only_bind q {A B} (m : M A) (f : A → M B) :
  writes_only q m → (∀ a, writes_only q (f a)) → writes_only q (m ≫= f).
Proof.
  intros Hm Hf h r h'. unfold mbind, M_bind.
  destruct (m h) as [[a|e] h1] eqn:Hrun.
  - intros Hrun' x Hx. rewrite (Hf _ _ _ _ Hrun' x Hx). by eapply Hm.
  - intros [= _ <-]. by eapply Hm.
Qed.

Lemma writes_only_set q k v : writes_only q (set (VRef q) k v).
Proof.
  intros h r h'. unfold set, deref, mbind, M_bind, lift, store.
  destruct (h !! q) as [o|]; [|by intros [= _ ->]].
  destruct (put_prop o k v); intros [= _ <-] x Hx; [|done].
  by rewrite lookup_insert_ne.
Qed.

Lemma writes_only_forEach q {A} (xs : list A) (f : A → M unit) :
  (∀ x, writes_only q (f x)) → writes_only q (forEach xs f).
Proof.
  intros Hf. induction xs as [|x xs IH]; simpl.
  - apply reads_only_writes_only, reads_only_ret.
  - apply writes_only_bind; [apply Hf|]. by intros _.
Qed.

Section Proofs.
Context `{!KeyOrder}.

Lemma reads_only_Object_keys v : reads_only (Object_keys v).
Proof.
  unfold Object_keys. destruct v; auto using reads_only_throw.
  apply reads_only_bind; auto using reads_only_deref, reads_only_ret.
Qed.

(** C5: [addDerivedInfoForFile] is guarded and idempotent.  On a file
    object that has an [l] (any value that counts as true, as every object
    does) it returns without changing anything in the store; and whenever a
    call returns, a second call on the same object returns and leaves the
    store, [l] included, as the first call left it. *)
Theorem addDerivedInfoForFile_idempotent (h : heap) (fileCoverage : val) :
  (∀ props l,
      read_object h fileCoverage = Some props →
      props !! "l"%string = Some l → truthy l = true →
      addDerivedInfoForFile fileCoverage h = (Ok tt, h)) ∧
  (∀ h',
      addDerivedInfoForFile fileCoverage h = (Ok tt, h') →
      addDerivedInfoForFile fileCoverage h' = (Ok tt, h')).
Proof.
  split.
  - intros props l Ho Hl Ht. unfold addDerivedInfoForFile.
    do 3 (erewrite bind_run by (by eapply get_object)).
    by rewrite Hl; simpl; rewrite Ht.
  - intros h' Hrun. pose proof Hrun as Hrun0. unfold addDerivedInfoForFile in Hrun.
    apply bind_inv in Hrun as (statementMap & h1 & Hsm & Hrun).
    pose proof (reads_only_get _ _ _ _ _ Hsm) as ->.
    apply bind_inv in Hrun as (statements & h1 & Hs & Hrun).
    pose proof (reads_only_get _ _ _ _ _ Hs) as ->.
    apply bind_inv in Hrun as (l & h1 & Hl & Hrun).
    pose proof (reads_only_get _ _ _ _ _ Hl) as ->.
    destruct (truthy l) eqn:Ht.
    { injection Hrun as <-. exact Hrun0. }
    apply bind_inv in Hrun as (lineMap & ha & Halloc & Hrun).
    unfold alloc in Halloc. injection Halloc as <- <-.
    set (q := fresh (dom h)) in *.
    assert (Hq : h !! q = None) by (apply not_elem_of_dom, is_fresh).
    apply bind_inv in Hrun as ([] & hb & Hset & Hrun).
    apply bind_inv in Hrun as (keys & hc & Hkeys & Hrun).
    pose proof (reads_only_Object_keys _ _ _ _ Hkeys) as ->.
    (* the file object is an object of the store, other than the new one *)
    assert (∃ p props, fileCoverage = VRef p ∧ p ≠ q ∧ h !! p = Some (Obj props) ∧
              hb = <[p := Obj (<["l"%string := VRef q]> props)]> (<[q := Obj ∅]> h))
      as (p & props & -> & Hpq & Hp & ->).
    { destruct fileCoverage as [| | |n| |p]; try done.
      unfold get, deref, mbind, M_bind in Hsm.
      destruct (h !! p) as [o|] eqn:Hp; [|done].
      assert (p ≠ q) by congruence.
      unfold set, deref, mbind, M_bind, lift, store in Hset.
      rewrite lookup_insert_ne in Hset by done. rewrite Hp in Hset.
      destruct o as [props|elems]; simpl in Hset.
      - exists p, props. by injection Hset as <-.
      - rewrite array_index_None in Hset; [done|]. apply pretty_nat_not_l. }
    assert (Hp' : h' !! p = Some (Obj (<["l"%string := VRef q]> props))).
    { erewrite (writes_only_forEach q); [|..|exact Hrun|done].
      - apply lookup_insert_eq.
      - intros st.
        repeat (apply writes_only_bind;
                [first [apply reads_only_writes_only;
                        first [apply reads_only_get | apply reads_only_lift]
                       | idtac]|intros ?]).
        + case_decide; apply reads_only_writes_only;
            [apply reads_only_ret|apply reads_only_js_lt].
        + case_match; [apply writes_only_set|].
          apply reads_only_writes_only, reads_only_ret. }
    unfold addDerivedInfoForFile.
    do 3 (erewrite bind_run by (by eapply get_ref)).
    simpl. by rewrite lookup_insert_eq.
Qed.

End Proofs.

Lemma addDerivedInfoForFile_idempotent_witness :
  addDerivedInfoForFile (VRef 1) (addDerivedInfoForFile (VRef 1) sample_store).2
  = (Ok tt, (addDerivedInfoForFile (VRef 1) sample_store).2).
Proof.
  apply (addDerivedInfoForFile_idempotent sample_store (VRef 1)).
  vm_compute; reflexivity.
Defined.

(** ** The totals of a category *)

Lemma sumZ_perm xs ys : xs ≡ₚ ys → sumZ xs = sumZ ys.
Proof. induction 1; simpl; lia. Qed.

Lemma size_map_filter {A} (P : string * A → Prop) `{!∀ x, Decision (P x)}
    (m : gmap string A) :
  size (filter P m) = length (filter P (map_to_list m)).
Proof.
  rewrite map_filter_alt, <-length_map_to_list, map_to_list_to_map; [done|].
  eapply sublist_NoDup; [apply (NoDup_fst_map_to_list m)|].
  apply fmap_sublist, sublist_filter.
Qed.

Lemma length_filter_fmap_ext {A B} (P : B → Prop) (Q : A → Prop)
    `{!∀ x, Decision (P x), !∀ x, Decision (Q x)} (f : A → B) (l : list A) :
  (∀ x, x ∈ l → P (f x) ↔ Q x) →
  length (filter P (f <$> l)) = length (filter Q l).
Proof.
  induction l as [|x l IH]; intros Hl; [done|].
  rewrite fmap_cons, !filter_cons.
  pose proof (Hl x ltac:(left)) as Hx.
  assert (IH' := IH (λ y Hy, Hl y (list_elem_of_further _ _ _ Hy))).
  destruct (decide (P (f x))), (decide (Q x)); simpl; rewrite ?IH'; tauto || done.
Qed.

Section Proofs.
Context `{!KeyOrder}.

(** The keys of an object, whatever their order, stand for its entries. *)
Lemma own_keys_fmap_perm {A} (g : A → val) (m : gmap string A) :
  own_keys (g <$> m) ≡ₚ (map_to_list m).*1.
Proof.
  rewrite own_keys_perm, map_to_list_fmap, <-list_fmap_compose.
  erewrite list_fmap_ext; [done|]. by intros ? [].
Qed.

Lemma foldM_simple (props : gmap string val) (stats : val) h ks total0 covered0 :
  read_object h stats = Some props →
  foldM (λ '(total, covered) key,
           let total := total + 1 in
           v ← get stats key;
           mret (total, if truthy v then covered + 1 else covered))
        (total0, covered0) ks h
  = (Ok (total0 + Z.of_nat (length ks),
         covered0 + Z.of_nat (length (filter (λ k, truthy (default VUndef (props !! k)) = true) ks))),
     h).
Proof.
  intros Ho. revert total0 covered0.
  induction ks as [|k ks IH]; intros total0 covered0; simpl.
  - unfold mret, M_ret. do 2 f_equal; f_equal; lia.
  - erewrite bind_run; [|erewrite bind_run by (by eapply get_object); reflexivity].
    rewrite IH. rewrite filter_cons.
    destruct (truthy (default VUndef (props !! k))) eqn:Ht.
    + rewrite decide_True by done. simpl. do 2 f_equal; f_equal; lia.
    + rewrite decide_False by done. do 2 f_equal; f_equal; lia.
Qed.

(** [computeSimpleTotals] on a property that holds counts. *)
Lemma computeSimpleTotals_counts h fileCoverage props property stats m :
  read_object h fileCoverage = Some props →
  props !! property = Some stats →
  read_counts h stats = Some m →
  computeSimpleTotals fileCoverage property h = (Ok (simple_totals m), h).
Proof.
  intros Ho Hprop Hm%read_counts_inv. unfold computeSimpleTotals.
  erewrite bind_run by (by eapply get_object). rewrite Hprop. simpl.
  erewrite bind_run by (by eapply Object_keys_object).
  erewrite bind_run by (by eapply foldM_simple).
  simpl. unfold mret, M_ret, simple_totals.
  assert (Htotal : Z.of_nat (length (own_keys (VNum <$> m))) = Z.of_nat (size m)).
  { by rewrite own_keys_fmap_perm, length_fmap, length_map_to_list. }
  assert (Hcov : length (filter (λ k, truthy (default VUndef ((VNum <$> m) !! k)) = true)
                           (own_keys (VNum <$> m)))
                 = size (filter (λ kv : string * Z, kv.2 ≠ 0) m)).
  { rewrite own_keys_fmap_perm, size_map_filter.
    apply length_filter_fmap_ext. intros [k c] Hkc%elem_of_map_to_list.
    simpl. rewrite lookup_fmap, Hkc. simpl. rewrite negb_true_iff. apply Z.eqb_neq. }
  rewrite !Z.add_0_l, Htotal, Hcov. done.
Qed.

End Proofs.

(** ** Branches *)

Lemma read_arms_inv h v arms :
  read_arms h v = Some arms → read_array h v = Some (VNum <$> arms).
Proof.
  unfold read_arms. destruct (read_array h v) as [elems|]; [|done]. simpl.
  intros Hm. f_equal. revert arms Hm.
  induction elems as [|x elems IH]; intros arms Hm.
  - by injection Hm as <-.
  - simpl in Hm. destruct x; try done. simpl in Hm.
    destruct (mapM as_num elems) as [ns|]; [|done]. injection Hm as <-.
    by rewrite (IH ns).
Qed.

Lemma read_branches_inv h v b :
  read_branches h v = Some b →
  ∃ props, read_object h v = Some props ∧ dom props = dom b ∧
    ∀ k arms, b !! k = Some arms →
      ∃ va, props !! k = Some va ∧ read_arms h va = Some arms.
Proof.
  unfold read_branches. destruct (read_object h v) as [props|]; [|done]. simpl.
  intros Ht. exists props. split; [done|]. split.
  { symmetry. by eapply traverse_dom. }
  intros k arms Hk. rewrite (traverse_Some _ _ _ Ht) in Hk.
  destruct (props !! k) as [va|]; [|done]. by exists va.
Qed.

Lemma filterM_gt0 h (arms : list Z) :
  filterM (λ num, js_lt (VNum 0) num) (VNum <$> arms) h
  = (Ok (VNum <$> filter (λ c, 0 < c) arms), h).
Proof.
  induction arms as [|c arms IH]; [done|].
  rewrite fmap_cons. simpl filterM.
  erewrite bind_run by reflexivity. erewrite bind_run by exact IH.
  rewrite filter_cons. simpl. unfold mret, M_ret.
  case_bool_decide; [by rewrite decide_True|by rewrite decide_False].
Qed.

Lemma array_filter_gt0 h v arms :
  read_arms h v = Some arms →
  array_filter v (λ num, js_lt (VNum 0) num) h
  = (Ok (VNum <$> filter (λ c, 0 < c) arms), h).
Proof.
  intros Ha%read_arms_inv. unfold read_array in Ha. unfold array_filter.
  destruct v as [| | | | |l]; try done.
  destruct (h !! l) as [[|elems]|] eqn:Hl; simplify_eq.
  unfold deref, mbind, M_bind. rewrite Hl. apply filterM_gt0.
Qed.

Lemma array_length_arms h v arms :
  read_arms h v = Some arms → array_length v h = (Ok (Z.of_nat (length arms)), h).
Proof.
  intros Ha%read_arms_inv. unfold read_array in Ha. unfold array_length.
  destruct v as [| | | | |l]; try done.
  destruct (h !! l) as [[|elems]|] eqn:Hl; simplify_eq.
  erewrite bind_run by (by eapply get_ref). simpl. by rewrite length_fmap.
Qed.

Section Proofs.
Context `{!KeyOrder}.

Lemma foldM_branches h (stats : val) (b : gmap string (list Z)) ks total0 covered0 :
  read_branches h stats = Some b →
  (∀ k, k ∈ ks → k ∈ dom b) →
  foldM (λ '(total, covered) key,
           branches ← get stats key;
           covered_arms ← array_filter branches (λ num, js_lt (VNum 0) num);
           len ← array_length branches;
           mret (total + len, covered + Z.of_nat (length covered_arms)))
        (total0, covered0) ks h
  = (Ok (total0 + sumZ ((λ k, Z.of_nat (length (default [] (b !! k)))) <$> ks),
         covered0 + sumZ ((λ k, Z.of_nat (length (filter (λ c, 0 < c) (default [] (b !! k)))))
                            <$> ks)),
     h).
Proof.
  intros Hb. destruct (read_branches_inv _ _ _ Hb) as (props & Ho & _ & Harms).
  revert total0 covered0.
  induction ks as [|k ks IH]; intros total0 covered0 Hks; simpl.
  - unfold mret, M_ret. do 2 f_equal; f_equal; lia.
  - assert (k ∈ dom b) as [arms Hk]%elem_of_dom by (apply Hks; left).
    destruct (Harms _ _ Hk) as (va & Hva & Ha).
    erewrite bind_run.
    2:{ erewrite bind_run by (by eapply get_object). rewrite Hva. simpl.
        erewrite bind_run by (by eapply array_filter_gt0).
        erewrite bind_run by (by eapply array_length_arms).
        reflexivity. }
    rewrite IH by (intros; apply Hks; by right).
    rewrite Hk, length_fmap. simpl. by rewrite !Z.add_assoc.
Qed.

(** [computeBranchTotals] on a file object with branch coverage. *)
Lemma computeBranchTotals_branches h fileCoverage props stats b :
  read_object h fileCoverage = Some props →
  props !! "b"%string = Some stats →
  read_branches h stats = Some b →
  computeBranchTotals fileCoverage h = (Ok (branch_totals b), h).
Proof.
  intros Ho Hprop Hb. unfold computeBranchTotals.
  destruct (read_branches_inv _ _ _ Hb) as (bprops & Hbo & Hdom & _).
  erewrite bind_run by (by eapply get_object). rewrite Hprop. simpl.
  erewrite bind_run by (by eapply Object_keys_object).
  erewrite bind_run.
  2:{ eapply foldM_branches; [done|]. intros k Hk%own_keys_elem.
      by rewrite <-Hdom, elem_of_dom. }
  simpl. unfold mret, M_ret, branch_totals. rewrite !Z.add_0_l.
  assert (Hsum : ∀ w : list Z → Z,
    sumZ ((λ k, w (default [] (b !! k))) <$> own_keys bprops)
    = sumZ ((λ kv, w kv.2) <$> map_to_list b)).
  { intros w. apply sumZ_perm.
    assert (own_keys bprops ≡ₚ (map_to_list b).*1) as ->.
    { apply NoDup_Permutation; [apply own_keys_NoDup|apply NoDup_fst_map_to_list|].
      intros k. rewrite own_keys_elem, <-elem_of_dom, Hdom, elem_of_dom.
      rewrite list_elem_of_fmap. split.
      - intros [arms Hk]. exists (k, arms). by rewrite elem_of_map_to_list.
      - intros [[k' arms] [-> Hk%elem_of_map_to_list]]. by exists arms. }
    rewrite <-list_fmap_compose. erewrite list_fmap_ext; [done|].
    intros i [k arms] Hi%list_elem_of_lookup_2%elem_of_map_to_list. simpl.
    by rewrite Hi. }
  rewrite (Hsum (λ arms, Z.of_nat (length arms))).
  by rewrite (Hsum (λ arms, Z.of_nat (length (filter (λ c, 0 < c) arms)))).
Qed.

(** C6: for every file coverage record, [computeBranchTotals] returns the
    number of arms of all branches as total, the number of arms with a count
    above 0 as covered, and percent(covered, total) as pct; the store is
    unchanged. *)
Theorem computeBranchTotals_counts_arms (h : heap) (fileCoverage : val)
    (r : FileCoverage.t) :
  read_file h fileCoverage = Some r →
  let total :=
    sumZ ((λ kv, Z.of_nat (length kv.2)) <$> map_to_list (FileCoverage.b r)) in
  let covered :=
    sumZ ((λ kv, Z.of_nat (length (filter (λ c, 0 < c) kv.2)))
            <$> map_to_list (FileCoverage.b r)) in
  computeBranchTotals fileCoverage h
  = (Ok {| total := total; covered := covered; pct := Pct (percent covered total) |}, h).
Proof.
  intros Hr total covered.
  destruct (read_file_inv _ _ _ Hr)
    as (props & vsm & vs & vfn & vf & vb & Ho & _ & _ & _ & _ & _ & _ & _ & _ & Hb & Hbc & _).
  by erewrite computeBranchTotals_branches.
Qed.

End Proofs.

Lemma computeBranchTotals_counts_arms_witness :
  read_file sample_store (VRef 1) = Some sample_file ∧
  FileCoverage.b sample_file = {[ "br1"%string := [1; 0; 2] ]} ∧
  computeBranchTotals (VRef 1) sample_store
  = (Ok {| total := 3; covered := 2; pct := Pct 66.67 |}, sample_store).
Proof.
  split; [vm_compute; reflexivity|]. split; [vm_compute; reflexivity|].
  apply (computeBranchTotals_counts_arms sample_store (VRef 1) sample_file).
  vm_compute; reflexivity.
Defined.

Section Proofs.
Context `{!KeyOrder}.

(** ** summarizeFileCoverage *)



End Proofs.


(** ** toYUICoverage *)

Lemma reads_only_foldM {A B} (f : B → A → M B) acc xs :
  (∀ b a, reads_only (f b a)) → reads_only (foldM f acc xs).
Proof.
  intros Hf. revert acc. induction xs as [|x xs IH]; intros acc; simpl.
  - apply reads_only_ret.
  - apply reads_only_bind; [apply Hf|]. intros b. apply IH.
Qed.

Lemma read_function_inv h entry fn :
  read_function h entry = Some fn →
  ∃ props, read_object h entry = Some props ∧
    props !! "name"%string = Some (VStr fn.1) ∧ props !! "line"%string = Some (VNum fn.2).
Proof.
  unfold read_function. destruct (read_object h entry) as [props|]; [|done]. simpl.
  destruct (props !! "name"%string) as [[]|] eqn:Hname; try done. simpl.
  destruct (props !! "line"%string) as [[]|] eqn:Hline; try done. simpl.
  intros [= <-]. by exists props.
Qed.

Lemma read_fnMap_inv h v fns :
  read_fnMap h v = Some fns →
  ∃ props, read_object h v = Some props ∧ dom props = dom fns ∧
    ∀ id fn, fns !! id = Some fn →
      ∃ entry, props !! id = Some entry ∧ read_function h entry = Some fn.
Proof.
  unfold read_fnMap. destruct (read_object h v) as [props|]; [|done]. simpl.
  intros Ht. exists props. split; [done|]. split.
  { symmetry. by eapply traverse_dom. }
  intros id fn Hid. rewrite (traverse_Some _ _ _ Ht) in Hid.
  destruct (props !! id) as [entry|]; [|done]. by exists entry.
Qed.

Lemma js_lt_0_count h (c : option Z) :
  js_lt (VNum 0) (default VUndef (VNum <$> c)) h
  = (Ok (bool_decide (0 < default 0 c)), h).
Proof. by destruct c. Qed.

(** The loop over the lines of a file. *)
Lemma foldM_yui_lines h (lines : val) (lm : gmap string Z) ks o :
  read_counts h lines = Some lm →
  foldM (λ o k,
           v ← get lines k;
           let o := YUI.set_lines (<[k := v]> (YUI.lines o)) o in
           let o := YUI.set_coveredLines (YUI.coveredLines o + 1) o in
           v ← get lines k;
           called ← js_lt (VNum 0) v;
           mret (if called : bool
                 then YUI.set_calledLines (YUI.calledLines o + 1) o else o))
        o ks h
  = (Ok (YUI.File
           (foldl (λ acc k, <[k := default VUndef (VNum <$> lm !! k)]> acc) (YUI.lines o) ks)
           (YUI.calledLines o
            + Z.of_nat (length (filter (λ k, 0 < default 0 (lm !! k)) ks)))
           (YUI.coveredLines o + Z.of_nat (length ks))
           (YUI.functions o) (YUI.calledFunctions o) (YUI.coveredFunctions o)), h).
Proof.
  intros Hlm%read_counts_inv. revert o.
  induction ks as [|k ks IH]; intros o; simpl.
  - unfold mret, M_ret. destruct o. simpl. do 2 f_equal. f_equal; lia.
  - erewrite bind_run.
    2:{ cbv zeta.
        rewrite (bind_run _ _ _ _ _ (get_object h lines _ k Hlm)).
        rewrite (bind_run _ _ _ _ _ (get_object h lines _ k Hlm)).
        rewrite lookup_fmap.
        rewrite (bind_run _ _ _ _ _ (js_lt_0_count _ _)).
        reflexivity. }
    rewrite IH. rewrite filter_cons. destruct o. simpl.
    case_bool_decide.
    + rewrite decide_True by done. simpl. do 2 f_equal. f_equal; lia.
    + rewrite decide_False by done. simpl. do 2 f_equal. f_equal; lia.
Qed.

(** The loop over the functions of a file. *)
Lemma foldM_yui_functions h (functions fnMap : val) (f : gmap string Z)
    (fns : gmap string (string * Z)) ks o :
  read_counts h functions = Some f →
  read_fnMap h fnMap = Some fns →
  (∀ id, id ∈ ks → id ∈ dom fns) →
  foldM (λ o k,
           entry ← get fnMap k;
           name ← get entry "name";
           name ← js_add name (VStr ":");
           entry ← get fnMap k;
           line ← get entry "line";
           name ← js_add name line;
           name ← lift (ToString name);
           v ← get functions k;
           let o := YUI.set_functions (<[name := v]> (YUI.functions o)) o in
           let o := YUI.set_coveredFunctions (YUI.coveredFunctions o + 1) o in
           v ← get functions k;
           called ← js_lt (VNum 0) v;
           mret (if called : bool
                 then YUI.set_calledFunctions (YUI.calledFunctions o + 1) o else o))
        o ks h
  = (Ok (YUI.File (YUI.lines o) (YUI.calledLines o) (YUI.coveredLines o)
           (foldl (λ acc id, <[function_key (default (""%string, 0) (fns !! id))
                                 := default VUndef (VNum <$> f !! id)]> acc)
                  (YUI.functions o) ks)
           (YUI.calledFunctions o
            + Z.of_nat (length (filter (λ id, 0 < default 0 (f !! id)) ks)))
           (YUI.coveredFunctions o + Z.of_nat (length ks))), h).
Proof.
  intros Hf%read_counts_inv Hfns. 
  destruct (read_fnMap_inv _ _ _ Hfns) as (fnprops & Hfno & _ & Hentries).
  revert o. induction ks as [|id ks IH]; intros o Hks; simpl.
  - unfold mret, M_ret. destruct o. simpl. do 2 f_equal. f_equal; lia.
  - assert (id ∈ dom fns) as [fn Hfn]%elem_of_dom by (apply Hks; left).
    destruct (Hentries _ _ Hfn) as (entry & Hentry & Hread).
    destruct (read_function_inv _ _ _ Hread) as (eprops & Heo & Hname & Hline).
    erewrite bind_run.
    2:{ erewrite bind_run by (by eapply get_object). rewrite Hentry. simpl.
        erewrite bind_run by (by eapply get_object). rewrite Hname. simpl.
        erewrite bind_run by reflexivity.
        erewrite bind_run by (by eapply get_object). rewrite Hentry. simpl.
        erewrite bind_run by (by eapply get_object). rewrite Hline. simpl.
        erewrite bind_run by reflexivity.
        erewrite bind_run by reflexivity.
        cbv zeta.
        rewrite (bind_run _ _ _ _ _ (get_object h functions _ id Hf)).
        rewrite (bind_run _ _ _ _ _ (get_object h functions _ id Hf)).
        rewrite lookup_fmap.
        rewrite (bind_run _ _ _ _ _ (js_lt_0_count _ _)).
        reflexivity. }
    rewrite IH by (intros; apply Hks; by right).
    rewrite filter_cons, Hfn. destruct o. simpl.
    case_bool_decide.
    + rewrite decide_True by done. simpl. do 2 f_equal. f_equal; lia.
    + rewrite decide_False by done. simpl. do 2 f_equal. f_equal; lia.
Qed.

(** Maps filled by a loop of assignments. *)
Lemma foldl_insert_lookup {A} (key : A → string) (value : A → val) xs
    (acc : gmap string val) k v :
  foldl (λ acc a, <[key a := value a]> acc) acc xs !! k = Some v →
  acc !! k = Some v ∨ ∃ a, a ∈ xs ∧ key a = k ∧ value a = v.
Proof.
  revert acc. induction xs as [|x xs IH]; intros acc; simpl; [by left|].
  intros [Hk|(a & ? & ? & ?)]%IH.
  - destruct (decide (key x = k)) as [<-|Hne].
    + rewrite lookup_insert_eq in Hk. injection Hk as <-. right. exists x.
      split; [left|done].
    + rewrite lookup_insert_ne in Hk by done. by left.
  - right. exists a. split; [by right|done].
Qed.

Lemma foldl_insert_is_Some {A} (key : A → string) (value : A → val) xs
    (acc : gmap string val) k :
  (is_Some (acc !! k) ∨ ∃ a, a ∈ xs ∧ key a = k) →
  is_Some (foldl (λ acc a, <[key a := value a]> acc) acc xs !! k).
Proof.
  revert acc. induction xs as [|x xs IH]; intros acc; simpl.
  - intros [?|(a & []%elem_of_nil & _)]. done.
  - intros [Hk|(a & [->|Ha]%elem_of_cons & Hkey)]; apply IH.
    + left. destruct (decide (key x = k)) as [<-|Hne].
      * by rewrite lookup_insert_eq.
      * by rewrite lookup_insert_ne.
    + left. rewrite <-Hkey. by rewrite lookup_insert_eq.
    + right. by exists a.
Qed.

Lemma foldl_insert_keys (value : string → val) (m : gmap string val) ks :
  (∀ k, k ∈ ks ↔ is_Some (m !! k)) →
  (∀ k v, m !! k = Some v → value k = v) →
  foldl (λ acc k, <[k := value k]> acc) ∅ ks = m.
Proof.
  intros Hks Hvalue. apply map_eq. intros k.
  destruct (foldl _ _ _ !! k) as [v|] eqn:Hk.
  - apply (foldl_insert_lookup (λ k, k)) in Hk as [Hk|(a & Ha & -> & <-)]; [done|].
    apply Hks in Ha as [v Hv]. by rewrite Hv, (Hvalue _ _ Hv).
  - destruct (m !! k) as [v|] eqn:Hm; [|done].
    destruct (foldl_insert_is_Some (λ k, k) value ks ∅ k) as [? ?]; [|congruence].
    right. exists k. split; [|done]. apply Hks. by eexists.
Qed.

Section Proofs.
Context `{!KeyOrder}.

Lemma size_filter_positive (m : gmap string Z) :
  length (filter (λ k, 0 < default 0 (m !! k)) (own_keys (VNum <$> m)))
  = size (filter (λ kv : string * Z, 0 < kv.2) m).
Proof.
  rewrite own_keys_fmap_perm, size_map_filter.
  apply length_filter_fmap_ext. intros [k c] Hkc%elem_of_map_to_list.
  simpl. by rewrite Hkc.
Qed.

Lemma length_own_keys_fmap {A} (g : A → val) (m : gmap string A) :
  length (own_keys (g <$> m)) = size m.
Proof. by rewrite own_keys_fmap_perm, length_fmap, length_map_to_list. Qed.

End Proofs.

Ltac solve_reads_only :=
  repeat first
    [ apply reads_only_ret | apply reads_only_throw | apply reads_only_lift
    | apply reads_only_get | apply reads_only_js_lt | apply reads_only_js_add
    | apply reads_only_Object_keys
    | apply reads_only_foldM; intros
    | apply reads_only_bind; [|intros] ].


Section Proofs.
Context `{!KeyOrder}.

(** A loop over the functions that returns has found every function in the
    function map. *)
Lemma foldM_yui_functions_ok h (functions fnMap : val)
    (fns : gmap string (string * Z)) ks o o' h' :
  read_fnMap h fnMap = Some fns →
  foldM (λ o k,
           entry ← get fnMap k;
           name ← get entry "name";
           name ← js_add name (VStr ":");
           entry ← get fnMap k;
           line ← get entry "line";
           name ← js_add name line;
           name ← lift (ToString name);
           v ← get functions k;
           let o := YUI.set_functions (<[name := v]> (YUI.functions o)) o in
           let o := YUI.set_coveredFunctions (YUI.coveredFunctions o + 1) o in
           v ← get functions k;
           called ← js_lt (VNum 0) v;
           mret (if called : bool
                 then YUI.set_calledFunctions (YUI.calledFunctions o + 1) o else o))
        o ks h = (Ok o', h') →
  ∀ id, id ∈ ks → id ∈ dom fns.
Proof.
  intros Hfns. destruct (read_fnMap_inv _ _ _ Hfns) as (fnprops & Hfno & Hdom & _).
  revert o. induction ks as [|k ks IH]; intros o Hrun id Hid.
  { by apply elem_of_nil in Hid. }
  simpl in Hrun. apply bind_inv in Hrun as (o1 & h1 & Hstep & Hrun).
  assert (h1 = h) as ->.
  { match type of Hstep with
    | ?m h = _ => assert (reads_only m) as Hro by solve_reads_only
    end.
    by eapply Hro. }
  apply elem_of_cons in Hid as [->|Hid]; [|by eapply IH].
  rewrite (bind_run _ _ _ _ _ (get_object h fnMap _ k Hfno)) in Hstep.
  rewrite <-Hdom. apply elem_of_dom.
  destruct (fnprops !! k); [done|]. simpl in Hstep. done.
Qed.

Lemma foldM_insert_keys {O} (F : gmap string O → string → M (gmap string O))
    (P : string → O → Prop) h ks :
  (∀ ret k ret' h', F ret k h = (Ok ret', h') →
     h' = h ∧ ∃ o, ret' = <[k := o]> ret ∧ P k o) →
  NoDup ks →
  ∀ ret out h', foldM F ret ks h = (Ok out, h') →
    h' = h ∧ (∀ k, k ∉ ks → out !! k = ret !! k) ∧
    (∀ k, k ∈ ks → ∃ o, out !! k = Some o ∧ P k o).
Proof.
  intros Hstep. induction 1 as [|k ks Hk _ IH]; intros ret out h' Hrun; simpl in Hrun.
  - injection Hrun as <- <-. split; [done|]. split; [done|].
    by intros k ?%elem_of_nil.
  - apply bind_inv in Hrun as (ret1 & h1 & Hfirst & Hrun).
    apply Hstep in Hfirst as (-> & o & -> & Ho).
    apply IH in Hrun as (-> & Hother & Hin).
    split; [done|]. split.
    + intros k' [Hne Hnin]%not_elem_of_cons.
      by rewrite Hother, lookup_insert_ne.
    + intros k' [->|Hk']%elem_of_cons; [|by apply Hin].
      exists o. by rewrite Hother, lookup_insert_eq.
Qed.

(** When [toYUICoverage] returns, it has done to the store what
    [addDerivedInfo] does, and the object it returns has one entry per file
    of the coverage object.  For a file that (with its derived [l]) is a file
    coverage record, the entry is as [yui_of_file] has it. *)
Lemma toYUICoverage_result (h : heap) (coverage : val)
    (out : gmap string YUI.file) (h' : heap) (files : gmap string val) :
  toYUICoverage coverage h = (Ok out, h') →
  read_object h' coverage = Some files →
  addDerivedInfo coverage h = (Ok tt, h') ∧
  dom out = dom files ∧
  ∀ path fileCoverage r,
    files !! path = Some fileCoverage →
    read_file h' fileCoverage = Some r →
    ∃ o lm, out !! path = Some o ∧ FileCoverage.l r = Some lm ∧ yui_of_file r lm o.
Proof.
  intros Hrun Hfiles. unfold toYUICoverage in Hrun. cbv zeta in Hrun.
  apply bind_inv in Hrun as ([] & h1 & Hadd & Hrun).
  apply bind_inv in Hrun as (keys & h2 & Hkeys & Hrun).
  pose proof (reads_only_Object_keys _ _ _ _ Hkeys) as ->.
  assert (h' = h1) as ->.
  { match type of Hrun with
    | ?m h1 = _ => assert (reads_only m) as Hro by solve_reads_only
    end.
    by eapply Hro. }
  split; [done|].
  rewrite (Object_keys_object _ _ _ Hfiles) in Hkeys. injection Hkeys as <-.
  eapply (foldM_insert_keys _
            (λ k o, ∀ fc r, files !! k = Some fc → read_file h1 fc = Some r →
                      ∃ lm, FileCoverage.l r = Some lm ∧ yui_of_file r lm o))
    in Hrun as (_ & Hother & Hin); [|clear Hrun|apply own_keys_NoDup].
  - split.
    + apply set_eq. intros k. rewrite !elem_of_dom, <-own_keys_elem.
      split.
      * intros [o Ho]. destruct (decide (k ∈ own_keys files)) as [|Hk]; [done|].
        rewrite (Hother _ Hk), lookup_empty in Ho. done.
      * intros (o & Ho & _)%Hin. by exists o.
    + intros path fc r Hpath Hr.
      destruct (Hin path) as (o & Ho & Hspec).
      { apply own_keys_elem. by eexists. }
      destruct (Hspec _ _ Hpath Hr) as (lm & ? & ?). by exists o, lm.
  - intros ret k ret' h2 Hstep.
    rewrite (bind_run _ _ _ _ _ (get_object h1 coverage _ k Hfiles)) in Hstep.
    apply bind_inv in Hstep as (lines & h3 & Hlines & Hstep).
    pose proof (reads_only_get _ _ _ _ _ Hlines) as ->.
    apply bind_inv in Hstep as (functions & h3 & Hfunctions & Hstep).
    pose proof (reads_only_get _ _ _ _ _ Hfunctions) as ->.
    apply bind_inv in Hstep as (fnMap & h3 & HfnMap & Hstep).
    pose proof (reads_only_get _ _ _ _ _ HfnMap) as ->.
    apply bind_inv in Hstep as (keys1 & h3 & Hkeys1 & Hstep).
    pose proof (reads_only_Object_keys _ _ _ _ Hkeys1) as ->.
    apply bind_inv in Hstep as (o1 & h3 & Hloop1 & Hstep).
    assert (h3 = h1) as ->.
    { match type of Hloop1 with
      | ?m h1 = _ => assert (reads_only m) as Hro by solve_reads_only
      end.
      by eapply Hro. }
    apply bind_inv in Hstep as (keys2 & h3 & Hkeys2 & Hstep).
    pose proof (reads_only_Object_keys _ _ _ _ Hkeys2) as ->.
    apply bind_inv in Hstep as (o2 & h3 & Hloop2 & Hstep).
    assert (h3 = h1) as ->.
    { match type of Hloop2 with
      | ?m h1 = _ => assert (reads_only m) as Hro by solve_reads_only
      end.
      by eapply Hro. }
    injection Hstep as <- <-. split; [done|]. exists o2. split; [done|].
    intros fc r Hfc Hr. rewrite Hfc in Hlines, Hfunctions, HfnMap. simpl in *.
    destruct (read_file_inv _ _ _ Hr)
      as (props & vsm & vs & vfn & vf & vb & Ho & _ & _ & _ & _
          & Hfn & Hfns & Hf & Hfc' & _ & _ & Hlprop).
    rewrite (get_object _ _ _ _ Ho) in Hlines.
    rewrite (get_object _ _ _ _ Ho), Hf in Hfunctions.
    rewrite (get_object _ _ _ _ Ho), Hfn in HfnMap.
    injection Hlines as <-. injection Hfunctions as <-. injection HfnMap as <-.
    destruct (props !! "l"%string) as [vl|]; [|done].
    destruct Hlprop as (lm & Hlm & Hl). exists lm. split; [done|].
    simpl in *.
    rewrite (Object_keys_object _ _ _ (read_counts_inv _ _ _ Hlm)) in Hkeys1.
    injection Hkeys1 as <-.
    rewrite (foldM_yui_lines _ _ _ _ _ Hlm) in Hloop1. injection Hloop1 as <-.
    rewrite (Object_keys_object _ _ _ (read_counts_inv _ _ _ Hfc')) in Hkeys2.
    injection Hkeys2 as <-.
    pose proof (foldM_yui_functions_ok _ _ _ _ _ _ _ _ Hfns Hloop2) as Hids.
    rewrite (foldM_yui_functions _ _ _ _ _ _ _ Hfc' Hfns Hids) in Hloop2.
    injection Hloop2 as <-. simpl.
    assert (Hkeys : ∀ id, id ∈ own_keys (VNum <$> FileCoverage.f r)
                          ↔ id ∈ dom (FileCoverage.f r)).
    { intros id. by rewrite own_keys_elem, lookup_fmap, fmap_is_Some, elem_of_dom. }
    unfold yui_of_file. simpl. rewrite !Z.add_0_l.
    split; [|split; [|split; [|split; [|split; [|split]]]]].
    + apply foldl_insert_keys.
      * intros k'. by rewrite own_keys_elem.
      * intros k' v Hv. rewrite lookup_fmap in Hv. by rewrite Hv.
    + by rewrite length_own_keys_fmap.
    + by rewrite size_filter_positive.
    + intros id Hid. pose proof Hid as Hid'. apply Hkeys, Hids in Hid'.
      apply elem_of_dom in Hid' as [fn Hfn'].
      exists fn. split; [done|].
      apply (foldl_insert_is_Some
               (λ id, function_key (default (""%string, 0) (FileCoverage.fnMap r !! id)))).
      right. exists id. split; [by apply Hkeys|]. by rewrite Hfn'.
    + intros key v
        [?|(id & Hid & <- & <-)]%(foldl_insert_lookup
          (λ id, function_key (default (""%string, 0) (FileCoverage.fnMap r !! id))));
        [done|].
      pose proof Hid as Hid'. apply Hids, elem_of_dom in Hid' as [fn Hfn'].
      apply Hkeys, elem_of_dom in Hid as [c Hc].
      exists id, fn, c. by rewrite Hfn', Hc.
    + by rewrite length_own_keys_fmap.
    + by rewrite size_filter_positive.
Qed.

End Proofs.

(** ** Computations that leave the objects of a store alone *)

Lemma extends_refl h0 : extends h0 h0.
Proof. split; [done|]. intros x o Hx Hx'. congruence. Qed.

Lemma keeps_ret h0 {A} (a : A) (Q : A → Prop) : Q a → keeps h0 (mret a) Q.
Proof. intros Ha h r h' Hext [= <- <-]. split; [done|]. by intros ? [= <-]. Qed.

Lemma keeps_throw h0 {A} e (Q : A → Prop) : keeps h0 (throw e) Q.
Proof. intros h r h' Hext [= <- <-]. by split. Qed.

Lemma keeps_bind h0 {A B} (m : M A) (f : A → M B) (Q : A → Prop) (R : B → Prop) :
  keeps h0 m Q → (∀ a, Q a → keeps h0 (f a) R) → keeps h0 (m ≫= f) R.
Proof.
  intros Hm Hf h r h' Hext. unfold mbind, M_bind.
  destruct (m h) as [[a|e] h1] eqn:Hrun; intros Hrun'.
  - destruct (Hm _ _ _ Hext Hrun) as [Hext1 Ha].
    eapply Hf; [by apply Ha|done..].
  - injection Hrun' as <- <-. destruct (Hm _ _ _ Hext Hrun) as [Hext1 _].
    by split.
Qed.

Lemma keeps_reads_only h0 {A} (m : M A) : reads_only m → keeps h0 m (λ _, True).
Proof. intros Hm h r h' Hext Hrun. by rewrite (Hm _ _ _ Hrun). Qed.

Lemma new_val_own_prop h0 o k : new_object h0 o → new_val h0 (own_prop o k).
Proof.
  destruct o as [props|elems]; simpl.
  - intros Hall. destruct (props !! k) as [v|] eqn:Hk; [|done]. by eapply Hall.
  - intros Hall. case_decide; [done|].
    destruct (array_index k (length elems) ≫= _) as [v|] eqn:Hv; [|done].
    apply bind_Some in Hv as (i & _ & Hi). simpl.
    eapply Forall_forall; [done|]. by eapply list_elem_of_lookup_2.
Qed.

(** Reading a new object gives a new value. *)
Lemma keeps_get h0 v k : new_val h0 v → keeps h0 (get v k) (new_val h0).
Proof.
  intros Hv h r h' Hext Hrun. pose proof (reads_only_get _ _ _ _ _ Hrun) as ->.
  split; [done|]. intros a ->. destruct v as [| | | | |x]; try done.
  - by injection Hrun as <-.
  - by injection Hrun as <-.
  - unfold get, deref, mbind, M_bind in Hrun.
    destruct (h !! x) as [o|] eqn:Hx; [|done]. injection Hrun as <-.
    apply new_val_own_prop. by eapply (proj2 Hext).
Qed.

Lemma new_object_put h0 o k w o' :
  new_object h0 o → new_val h0 w → put_prop o k w = Ok o' → new_object h0 o'.
Proof.
  destruct o as [props|elems]; simpl.
  - intros Hall Hw [= <-]. by apply map_Forall_insert_2.
  - intros Hall Hw. destruct (array_index _ _) as [i|]; [|done].
    case_decide; intros [= <-]; simpl.
    + by apply Forall_insert.
    + apply Forall_app. split; [done|]. by apply Forall_singleton.
Qed.

Lemma extends_store h0 h x o :
  extends h0 h → h0 !! x = None → new_object h0 o → extends h0 (<[x := o]> h).
Proof.
  intros [Hsub Hnew] Hx Ho. split.
  - by apply insert_subseteq_r.
  - intros y o' Hy Hy'. destruct (decide (x = y)) as [->|Hne].
    + rewrite lookup_insert_eq in Hy. by injection Hy as <-.
    + rewrite lookup_insert_ne in Hy by done. by eapply Hnew.
Qed.

(** Writing a new value to a new object. *)
Lemma keeps_set h0 v k w :
  new_val h0 v → new_val h0 w → keeps h0 (set v k w) (λ _, True).
Proof.
  intros Hv Hw h r h' Hext Hrun. destruct v as [| | | | |x];
    try (injection Hrun as <- <-; by split).
  unfold set, deref, mbind, M_bind, lift, store in Hrun.
  destruct (h !! x) as [o|] eqn:Hx; [|injection Hrun as <- <-; by split].
  destruct (put_prop o k w) as [o'|e] eqn:Hput; injection Hrun as <- <-; [|by split].
  split; [|done]. apply extends_store; [done..|].
  eapply new_object_put; [|done..]. by eapply (proj2 Hext).
Qed.

Lemma keeps_delete_prop h0 v k : new_val h0 v → keeps h0 (delete_prop v k) (λ _, True).
Proof.
  intros Hv h r h' Hext Hrun. destruct v as [| | | | |x];
    try (injection Hrun as <- <-; by split).
  unfold delete_prop, deref, mbind, M_bind, store in Hrun.
  destruct (h !! x) as [[props|elems]|] eqn:Hx; injection Hrun as <- <-; try by split.
  split; [|done]. apply extends_store; [done..|].
  pose proof (proj2 Hext _ _ Hx Hv) as Hall. simpl in *.
  intros k' v' [_ Hk']%lookup_delete_Some. by eapply Hall.
Qed.

(** A new object that refers to new objects. *)
Lemma keeps_alloc h0 o : new_object h0 o → keeps h0 (alloc o) (new_val h0).
Proof.
  intros Ho h r h' Hext [= <- <-].
  assert (h0 !! fresh (dom h) = None).
  { apply not_elem_of_dom. intros Hin.
    apply (is_fresh (dom h)). apply (subseteq_dom _ _ (proj1 Hext)), Hin. }
  split; [by apply extends_store|]. by intros a [= <-].
Qed.

Lemma keeps_forEach h0 {A} (xs : list A) (f : A → M unit) :
  (∀ x, keeps h0 (f x) (λ _, True)) → keeps h0 (forEach xs f) (λ _, True).
Proof.
  intros Hf. induction xs as [|x xs IH]; simpl.
  - by apply keeps_ret.
  - eapply keeps_bind; [apply Hf|]. by intros _ _.
Qed.

Lemma keeps_for_loop h0 fuel i (cond : Z → M bool) (body : Z → M unit) :
  (∀ i, keeps h0 (cond i) (λ _, True)) →
  (∀ i, keeps h0 (body i) (λ _, True)) →
  keeps h0 (for_loop fuel i cond body) (λ _, True).
Proof.
  intros Hcond Hbody. revert i. induction fuel as [|fuel IH]; intros i; simpl.
  - apply keeps_throw.
  - eapply keeps_bind; [apply Hcond|]. intros [] _.
    + eapply keeps_bind; [apply Hbody|]. intros _ _. apply IH.
    + by apply keeps_ret.
Qed.

(** The sum of two values is no object. *)
Lemma keeps_js_add h0 a b : keeps h0 (js_add a b) (new_val h0).
Proof.
  intros h r h' Hext Hrun. pose proof (reads_only_js_add _ _ _ _ _ Hrun) as ->.
  split; [done|]. intros v ->. unfold js_add in Hrun.
  destruct a, b; simpl in Hrun;
    try discriminate; try (by injection Hrun as <-);
    unfold mbind, M_bind, lift, mret, M_ret in Hrun; simpl in Hrun;
    by injection Hrun as <-.
Qed.

(** ** JSON values *)

Lemma json_ind' (P : json → Prop) :
  P JNull → (∀ n, P (JNum n)) → (∀ s, P (JStr s)) →
  (∀ js, Forall P js → P (JArr js)) →
  (∀ kvs, Forall (λ kv, P kv.2) kvs → P (JObj kvs)) →
  ∀ j, P j.
Proof.
  intros Hnull Hnum Hstr Harr Hobj. fix IH 1.
  intros [|n|s|js|kvs]; [exact Hnull|exact (Hnum n)|exact (Hstr s)|..].
  - apply Harr. induction js as [|j js IHjs]; constructor; [apply IH|exact IHjs].
  - apply Hobj. induction kvs as [|[k j] kvs IHk]; constructor; [apply IH|exact IHk].
Qed.

Lemma keeps_traverseM h0 {A B} (f : A → M B) (Q : B → Prop) xs :
  Forall (λ x, keeps h0 (f x) Q) xs → keeps h0 (traverseM f xs) (Forall Q).
Proof.
  induction 1 as [|x xs Hx _ IH]; simpl.
  - by apply keeps_ret.
  - eapply keeps_bind; [exact Hx|]. intros y Hy.
    eapply keeps_bind; [exact IH|]. intros ys Hys.
    apply keeps_ret. by constructor.
Qed.

Lemma keeps_JSON_parse h0 j : keeps h0 (JSON_parse j) (new_val h0).
Proof.
  induction j as [| | |js IH|kvs IH] using json_ind'; simpl.
  - by apply keeps_ret.
  - by apply keeps_ret.
  - by apply keeps_ret.
  - eapply keeps_bind; [by apply keeps_traverseM|]. intros vs Hvs.
    by apply keeps_alloc.
  - eapply keeps_bind.
    + apply (keeps_traverseM h0 _ (λ kv, new_val h0 kv.2)).
      eapply Forall_impl; [exact IH|]. intros [k j] Hj. simpl in *.
      eapply keeps_bind; [exact Hj|]. intros v Hv. by apply keeps_ret.
    + intros kvals Hkvals. apply keeps_alloc. simpl.
      intros k v Hk%elem_of_list_to_map_2.
      rewrite Forall_forall in Hkvals. exact (Hkvals (k, v) Hk).
Qed.

Section Proofs.
Context `{!KeyOrder}.

Lemma reads_only_JSON_stringify v : reads_only (JSON_stringify v).
Proof. by intros h r h' [= _ <-]. Qed.

Lemma keeps_JSON_clone h0 v : keeps h0 (JSON_clone v) (new_val h0).
Proof.
  unfold JSON_clone.
  eapply keeps_bind; [apply keeps_reads_only, reads_only_JSON_stringify|].
  intros [j|] _; [apply keeps_JSON_parse|apply keeps_throw].
Qed.

(** [mergeFileCoverage] writes to the objects of its copy only. *)
Lemma keeps_mergeFileCoverage h0 first second :
  keeps h0 (mergeFileCoverage first second) (new_val h0).
Proof.
  unfold mergeFileCoverage.
  eapply keeps_bind; [apply keeps_JSON_clone|]. intros ret Hret.
  eapply keeps_bind; [by apply keeps_delete_prop|]. intros _ _.
  eapply keeps_bind; [apply keeps_reads_only, reads_only_get|]. intros second_s _.
  eapply keeps_bind; [apply keeps_reads_only, reads_only_Object_keys|]. intros keys _.
  eapply keeps_bind.
  { apply keeps_forEach. intros k.
    eapply keeps_bind; [by apply keeps_get|]. intros ret_s Hret_s.
    eapply keeps_bind; [apply keeps_reads_only, reads_only_get|]. intros old _.
    eapply keeps_bind; [apply keeps_reads_only, reads_only_get|]. intros second_s' _.
    eapply keeps_bind; [apply keeps_reads_only, reads_only_get|]. intros v _.
    eapply keeps_bind; [apply keeps_js_add|]. intros sum Hsum.
    by apply keeps_set. }
  intros _ _.
  eapply keeps_bind; [apply keeps_reads_only, reads_only_get|]. intros second_f _.
  eapply keeps_bind; [apply keeps_reads_only, reads_only_Object_keys|]. intros keys' _.
  eapply keeps_bind.
  { apply keeps_forEach. intros k.
    eapply keeps_bind; [by apply keeps_get|]. intros ret_f Hret_f.
    eapply keeps_bind; [apply keeps_reads_only, reads_only_get|]. intros old _.
    eapply keeps_bind; [apply keeps_reads_only, reads_only_get|]. intros second_f' _.
    eapply keeps_bind; [apply keeps_reads_only, reads_only_get|]. intros v _.
    eapply keeps_bind; [apply keeps_js_add|]. intros sum Hsum.
    by apply keeps_set. }
  intros _ _.
  eapply keeps_bind; [apply keeps_reads_only, reads_only_get|]. intros second_b _.
  eapply keeps_bind; [apply keeps_reads_only, reads_only_Object_keys|]. intros keys'' _.
  eapply keeps_bind.
  { apply keeps_forEach. intros k.
    eapply keeps_bind; [by apply keeps_get|]. intros ret_b Hret_b.
    eapply keeps_bind; [by apply keeps_get|]. intros retArray HretArray.
    eapply keeps_bind; [apply keeps_reads_only, reads_only_get|]. intros second_b' _.
    eapply keeps_bind; [apply keeps_reads_only, reads_only_get|]. intros secondArray _.
    eapply keeps_bind; [apply keeps_reads_only, reads_only_get|]. intros len _.
    apply keeps_for_loop.
    - intros i. apply keeps_reads_only.
      apply reads_only_bind; [apply reads_only_get|]. intros ?. apply reads_only_js_lt.
    - intros i.
      eapply keeps_bind; [apply keeps_reads_only, reads_only_get|]. intros old _.
      eapply keeps_bind; [apply keeps_reads_only, reads_only_get|]. intros v _.
      eapply keeps_bind; [apply keeps_js_add|]. intros sum Hsum.
      by apply keeps_set. }
  intros _ _. by apply keeps_ret.
Qed.

End Proofs.

(** ** Reads in a store with more objects *)

Lemma read_object_not_fresh (h : heap) v props :
  read_object h v = Some props → v ≠ VRef (fresh (dom h)).
Proof.
  intros Hv ->. unfold read_object in Hv.
  destruct (h !! fresh (dom h)) eqn:Hx; [|done].
  apply elem_of_dom_2 in Hx. by apply is_fresh in Hx.
Qed.

Lemma read_object_Some_inv {A} (h : heap) v (f : gmap string val → option A) a :
  read_object h v ≫= f = Some a → ∃ props, read_object h v = Some props.
Proof. destruct (read_object h v) as [props|]; [by exists props|done]. Qed.

Lemma read_file_extend (h h' : heap) v r :
  h ⊆ h' → read_file h v = Some r → read_file h' v = Some r.
Proof.
  intros Hsub%same_but_l_extend Hr.
  destruct (read_file_inv _ _ _ Hr)
    as (props & vsm & vs & vfn & vf & vb & Ho & Hsm & Hlines & Hs & Hcounts
        & Hfn & Hfns & Hf & Hfc & Hb & Hbc & Hl).
  destruct r as [lines s fns f b l]. simpl in *.
  assert (Hnf : ∀ {A} (g : gmap string val → option A) w a,
            read_object h w ≫= g = Some a → w ≠ VRef (fresh (dom h))).
  { intros A g w a [? ?]%read_object_Some_inv. by eapply read_object_not_fresh. }
  eapply read_file_intro; try done.
  - eapply read_object_frame; [done| |done]. by eapply read_object_not_fresh.
  - eapply read_statementMap_frame; [done| |done]. by eapply Hnf.
  - eapply read_counts_frame; [done| |done]. by eapply Hnf.
  - eapply read_fnMap_frame; [done| |done]. by eapply Hnf.
  - eapply read_counts_frame; [done| |done]. by eapply Hnf.
  - eapply read_branches_frame; [done| |done]. by eapply Hnf.
  - destruct (props !! "l"%string) as [vl|]; [|done].
    destruct Hl as (lm & Hlm & ->). exists lm. split; [|done].
    eapply read_counts_frame; [done| |done]. by eapply Hnf.
Qed.

Section Proofs.
Context `{!KeyOrder}.

(** C9: [mergeFileCoverage] changes neither of its arguments.  Whatever the
    two values are and whatever the outcome of the call, every object that
    the store had before the call is in it after the call, unchanged; so a
    file coverage record given as first or second argument is, field for
    field ([l] included), what it was. *)
Theorem mergeFileCoverage_leaves_arguments (h : heap) (first second : val)
    (outcome : result val) (h' : heap) :
  mergeFileCoverage first second h = (outcome, h') →
  (∀ x o, h !! x = Some o → h' !! x = Some o) ∧
  (∀ a, read_file h first = Some a → read_file h' first = Some a) ∧
  (∀ b, read_file h second = Some b → read_file h' second = Some b).
Proof.
  intros Hrun.
  destruct (keeps_mergeFileCoverage h first second h outcome h' (extends_refl h) Hrun)
    as [[Hsub _] _].
  split; [|split].
  - intros x o Hx. by eapply lookup_weaken.
  - intros a. by apply read_file_extend.
  - intros b. by apply read_file_extend.
Qed.

End Proofs.

Lemma mergeFileCoverage_leaves_arguments_witness :
  read_file sample_store (VRef 1) = Some sample_file ∧
  read_file sample_store (VRef 21) = Some sample_file_again ∧
  read_file (mergeFileCoverage (VRef 1) (VRef 21) sample_store).2 (VRef 1)
  = Some sample_file ∧
  read_file (mergeFileCoverage (VRef 1) (VRef 21) sample_store).2 (VRef 21)
  = Some sample_file_again.
Proof.
  assert (Ha : read_file sample_store (VRef 1) = Some sample_file)
    by (vm_compute; reflexivity).
  assert (Hb : read_file sample_store (VRef 21) = Some sample_file_again)
    by (vm_compute; reflexivity).
  destruct (mergeFileCoverage_leaves_arguments sample_store (VRef 1) (VRef 21) _ _
              (surjective_pairing _)) as (_ & Hfirst & Hsecond).
  split; [exact Ha|]. split; [exact Hb|].
  split; [exact (Hfirst _ Ha)|exact (Hsecond _ Hb)].
Defined.

(** ** The objects that make up a JSON value *)

Lemma owns_all_impl {J V} (R R' : J → V → gset loc → Prop) js vs F :
  Forall (λ j, ∀ v F, R j v F → R' j v F) js →
  owns_all R js vs F → owns_all R' js vs F.
Proof.
  intros Hall. revert vs F. induction Hall as [|j js Hj _ IH]; intros [|v vs] F; try done.
  simpl. intros (F1 & F2 & ? & ? & ? & ?). exists F1, F2. auto.
Qed.

Lemma owns_all_subseteq {J V} (R : J → V → gset loc → Prop) (D : gset loc) js vs F :
  Forall (λ j, ∀ v F, R j v F → F ⊆ D) js → owns_all R js vs F → F ⊆ D.
Proof.
  intros Hall. revert vs F. induction Hall as [|j js Hj _ IH]; intros [|v vs] F; try done.
  - simpl. intros ->. apply empty_subseteq.
  - simpl. intros (F1 & F2 & HR & Hrest & _ & ->).
    apply Hj in HR. apply IH in Hrest. set_solver.
Qed.

(** The objects of a value are objects of the store. *)
Lemma owns_dom h j v F : owns h j v F → F ⊆ dom h.
Proof.
  revert v F. induction j as [| | |js IH|kvs IH] using json_ind'; intros v F; simpl.
  - intros [_ ->]. set_solver.
  - intros [_ ->]. set_solver.
  - intros [_ ->]. set_solver.
  - intros (l & vs & F' & _ & Hl%elem_of_dom_2 & Hall & _ & ->).
    apply (owns_all_subseteq _ (dom h)) in Hall; [set_solver|]. done.
  - intros (l & vs & F' & _ & Hl%elem_of_dom_2 & Hall & _ & ->).
    apply (owns_all_subseteq _ (dom h)) in Hall; [set_solver|].
    eapply Forall_impl; [exact IH|]. intros [k j] Hj [k' w] Fw [_ Hw]. by eapply Hj.
Qed.

(** A value is what it is as long as its objects are what they are. *)
Lemma owns_frame h h' j v F :
  (∀ x, x ∈ F → h' !! x = h !! x) → owns h j v F → owns h' j v F.
Proof.
  revert v F. induction j as [| | |js IH|kvs IH] using json_ind'; intros v F Hag; simpl;
    try done.
  - intros (l & vs & F' & -> & Hl & Hall & Hnin & ->).
    exists l, vs, F'. split; [done|]. split; [rewrite Hag; [done|set_solver]|].
    split; [|done]. revert Hall. 
    assert (HF' : ∀ x, x ∈ F' → h' !! x = h !! x) by (intros; apply Hag; set_solver).
    clear Hag Hnin Hl. revert vs F' HF'.
    induction IH as [|j js Hj _ IHjs]; intros [|w ws] F' HF'; try done.
    simpl. intros (F1 & F2 & Hw & Hrest & Hdisj & ->).
    exists F1, F2. split; [apply Hj; [|done]; intros; apply HF'; set_solver|].
    split; [apply IHjs; [|done]; intros; apply HF'; set_solver|]. done.
  - intros (l & kvals & F' & -> & Hl & Hall & Hnin & ->).
    exists l, kvals, F'. split; [done|]. split; [rewrite Hag; [done|set_solver]|].
    split; [|done]. revert Hall.
    assert (HF' : ∀ x, x ∈ F' → h' !! x = h !! x) by (intros; apply Hag; set_solver).
    clear Hag Hnin Hl. revert kvals F' HF'.
    induction IH as [|[k j] kvs Hj _ IHkvs]; intros [|[k' w] ws] F' HF'; try done.
    simpl. intros (F1 & F2 & [-> Hw] & Hrest & Hdisj & ->).
    exists F1, F2. split; [split; [done|]; apply Hj; [|done]; intros; apply HF'; set_solver|].
    split; [apply IHkvs; [|done]; intros; apply HF'; set_solver|]. done.
Qed.

Lemma owns_extend (h h' : heap) j v F : h ⊆ h' → owns h j v F → owns h' j v F.
Proof.
  intros Hsub Hown. eapply owns_frame; [|done].
  intros x Hx. apply (owns_dom _ _ _ _ Hown), elem_of_dom in Hx as [o Hx].
  rewrite Hx. by eapply lookup_weaken.
Qed.

(** ** JSON.parse builds a tree of new objects *)

Lemma traverseM_owns {J V} (f : J → M V) (R : heap → J → V → gset loc → Prop) js :
  Forall (λ j, ∀ h, ∃ v h' F, f j h = (Ok v, h') ∧ h ⊆ h' ∧ R h' j v F ∧
                      ∀ x, x ∈ F → h !! x = None) js →
  Forall (λ j, ∀ (h h' : heap) v F, h ⊆ h' → R h j v F → R h' j v F) js →
  Forall (λ j, ∀ h v F, R h j v F → F ⊆ dom h) js →
  ∀ h, ∃ vs h' F, traverseM f js h = (Ok vs, h') ∧ h ⊆ h' ∧
         owns_all (R h') js vs F ∧ ∀ x, x ∈ F → h !! x = None.
Proof.
  intros Hf Hmono Hdom. induction Hf as [|j js Hj _ IH]; intros h.
  - exists [], h, ∅. split; [done|]. split; [done|]. split; [done|]. set_solver.
  - apply Forall_cons in Hmono as [Hmj Hmono]. apply Forall_cons in Hdom as [Hdj Hdom].
    destruct (Hj h) as (v & h1 & F1 & Hrun1 & Hsub1 & HR1 & Hfresh1).
    destruct (IH Hmono Hdom h1) as (vs & h2 & F2 & Hrun2 & Hsub2 & Hall & Hfresh2).
    exists (v :: vs), h2, (F1 ∪ F2). split; [|split; [|split]].
    + simpl. rewrite (bind_run _ _ _ _ _ Hrun1), (bind_run _ _ _ _ _ Hrun2). done.
    + by etrans.
    + simpl. exists F1, F2. split; [by eapply Hmj|]. split; [done|]. split; [|done].
      apply Hdj in HR1. intros x Hx1 Hx2. apply HR1, elem_of_dom in Hx1 as [? Hx1].
      rewrite (Hfresh2 _ Hx2) in Hx1. done.
    + intros x [Hx|Hx]%elem_of_union; [by apply Hfresh1|].
      apply Hfresh2 in Hx. by eapply lookup_weaken_None.
Qed.

Lemma alloc_fresh (h : heap) o :
  alloc o h = (Ok (VRef (fresh (dom h))), <[fresh (dom h) := o]> h) ∧
  h !! fresh (dom h) = None ∧ h ⊆ <[fresh (dom h) := o]> h.
Proof.
  assert (h !! fresh (dom h) = None) by apply not_elem_of_dom, is_fresh.
  split; [done|]. split; [done|]. by apply insert_subseteq.
Qed.

Lemma JSON_parse_owns j h :
  ∃ v h' F, JSON_parse j h = (Ok v, h') ∧ h ⊆ h' ∧ owns h' j v F ∧
    ∀ x, x ∈ F → h !! x = None.
Proof.
  revert h. induction j as [|n|s|js IH|kvs IH] using json_ind'; intros h.
  - exists VNull, h, ∅. set_solver.
  - exists (VNum n), h, ∅. set_solver.
  - exists (VStr s), h, ∅. set_solver.
  - destruct (traverseM_owns JSON_parse owns js IH) with (h := h)
      as (vs & h1 & F & Hrun & Hsub & Hall & Hfresh).
    { apply Forall_forall. intros j _ h0 h0' v F. apply owns_extend. }
    { apply Forall_forall. intros j _ h0 v F. apply owns_dom. }
    destruct (alloc_fresh h1 (Arr vs)) as (Halloc & Hl & Hsub').
    set (l := fresh (dom h1)) in *.
    exists (VRef l), (<[l := Arr vs]> h1), ({[l]} ∪ F). split; [|split; [|split]].
    + simpl. by rewrite (bind_run _ _ _ _ _ Hrun).
    + by etrans.
    + simpl. exists l, vs, F. split; [done|]. split; [by rewrite lookup_insert_eq|].
      split; [|split; [|done]].
      * eapply owns_all_impl; [|done]. apply Forall_forall.
        intros j _ v F'. by apply owns_extend.
      * intros Hin. eapply (owns_all_subseteq _ (dom h1)) in Hall.
        -- apply Hall, elem_of_dom in Hin as [? ?]. congruence.
        -- apply Forall_forall. intros j _ v F'. apply owns_dom.
    + intros x [->%elem_of_singleton|Hx]%elem_of_union; [|by apply Hfresh].
      by eapply lookup_weaken_None.
  - destruct (traverseM_owns (λ '(k, j), v ← JSON_parse j; mret (k, v))
                (λ h '(k, j) '(k', v) F, k' = k ∧ owns h j v F) kvs) with (h := h)
      as (kvals & h1 & F & Hrun & Hsub & Hall & Hfresh).
    { eapply Forall_impl; [exact IH|]. intros [k j] Hj h0. simpl in Hj.
      destruct (Hj h0) as (v & h0' & F & Hrun & ? & ? & ?).
      exists (k, v), h0', F. by rewrite (bind_run _ _ _ _ _ Hrun). }
    { apply Forall_forall. intros [k j] _ h0 h0' [k' v] F ? [-> ?].
      split; [done|]. by eapply owns_extend. }
    { apply Forall_forall. intros [k j] _ h0 [k' v] F [_ ?]. by eapply owns_dom. }
    destruct (alloc_fresh h1 (Obj (list_to_map kvals))) as (Halloc & Hl & Hsub').
    set (l := fresh (dom h1)) in *.
    exists (VRef l), (<[l := Obj (list_to_map kvals)]> h1), ({[l]} ∪ F).
    split; [|split; [|split]].
    + simpl. by rewrite (bind_run _ _ _ _ _ Hrun).
    + by etrans.
    + simpl. exists l, kvals, F. split; [done|]. split; [by rewrite lookup_insert_eq|].
      split; [|split; [|done]].
      * eapply owns_all_impl; [|done]. apply Forall_forall.
        intros [k j] _ [k' v] F' [-> ?]. split; [done|]. by eapply owns_extend.
      * intros Hin. eapply (owns_all_subseteq _ (dom h1)) in Hall.
        -- apply Hall, elem_of_dom in Hin as [? ?]. congruence.
        -- apply Forall_forall. intros [k j] _ [k' v] F' [_ ?]. by eapply owns_dom.
    + intros x [->%elem_of_singleton|Hx]%elem_of_union; [|by apply Hfresh].
      by eapply lookup_weaken_None.
Qed.

(** ** JSON.stringify reads a value off the store *)

Lemma mapM_result_inv {A B} (g : A → result B) xs ys :
  mapM g xs = Ok ys → Forall2 (λ x y, g x = Ok y) xs ys.
Proof.
  revert ys. induction xs as [|x xs IH]; intros ys; simpl.
  - intros [= <-]. constructor.
  - unfold mbind, result_bind. destruct (g x) as [y|] eqn:Hx; [|done].
    destruct (mapM g xs) as [ys'|]; [|done]. intros [= <-].
    constructor; [done|]. by apply IH.
Qed.

Lemma concat_entries (g : string → result (option json)) keys kvss :
  Forall2 (λ k kv, (j ← g k; Ok (option_list ((k,.) <$> j))) = Ok kv) keys kvss →
  (∀ k jk, (k, jk) ∈ concat kvss ↔ k ∈ keys ∧ g k = Ok (Some jk)) ∧
  (∀ k, k ∈ keys → ∃ r, g k = Ok r) ∧
  (NoDup keys → NoDup (concat kvss).*1).
Proof.
  induction 1 as [|k kv keys kvss Hk _ IH]; simpl.
  - split; [|split]; [|by intros ? ?%elem_of_nil|by constructor].
    intros k jk. split; [by intros ?%elem_of_nil|by intros [?%elem_of_nil _]].
  - destruct IH as (Hin & Hok & Hnodup).
    unfold mbind, result_bind in Hk. destruct (g k) as [r|] eqn:Hgk; [|done].
    injection Hk as <-. split; [|split].
    + intros k' jk. rewrite elem_of_app, Hin, elem_of_cons. split.
      * intros [Hhere|[? ?]]; [|by auto].
        destruct r as [j|]; simpl in Hhere; [|by apply elem_of_nil in Hhere].
        apply list_elem_of_singleton in Hhere as [= -> ->]. auto.
      * intros [[->|?] Hg]; [|by auto]. left. rewrite Hgk in Hg.
        injection Hg as ->. simpl. by apply list_elem_of_singleton.
    + intros k' [->|?]%elem_of_cons; [by eexists|by apply Hok].
    + intros [Hk Hkeys]%NoDup_cons. rewrite fmap_app. apply NoDup_app.
      split; [|split; [|by apply Hnodup]].
      * destruct r; simpl; [apply NoDup_singleton|constructor].
      * intros k' Hk' Hk''. apply list_elem_of_fmap in Hk'' as [[k'' jk] [-> Hk'']].
        apply Hin in Hk'' as [Hk'' _]. simpl in *.
        destruct r; simpl in Hk'; [|by apply elem_of_nil in Hk'].
        apply list_elem_of_singleton in Hk' as ->. done.
Qed.

Section Proofs.
Context `{!KeyOrder}.

(** The text of an object has an entry for each property that is not
    [undefined]: its key and the text of its value. *)
Lemma stringify_object n h v props j :
  read_object h v = Some props →
  stringify n h v = Ok (Some j) →
  ∃ n' kvs, n = S n' ∧ j = JObj kvs ∧ NoDup kvs.*1 ∧
    (∀ k jk, (k, jk) ∈ kvs ↔
             ∃ w, props !! k = Some w ∧ stringify n' h w = Ok (Some jk)) ∧
    (∀ k w, props !! k = Some w → ∃ r, stringify n' h w = Ok r).
Proof.
  intros (l & -> & Hl)%read_object_ref. destruct n as [|n']; [done|]. simpl.
  rewrite Hl. unfold mbind at 1, result_bind at 1.
  destruct (mapM _ _) as [kvss|] eqn:Hm; [|done]. intros [= <-].
  apply mapM_result_inv in Hm.
  apply (concat_entries (λ k, stringify n' h (default VUndef (props !! k)))) in Hm
    as (Hin & Hok & Hnodup).
  exists n', (concat kvss). split; [done|]. split; [done|].
  split; [apply Hnodup, own_keys_NoDup|]. split.
  - intros k jk. rewrite Hin, own_keys_elem. split.
    + intros [[w Hw] Hs]. rewrite Hw in Hs. by exists w.
    + intros (w & Hw & Hs). rewrite Hw. by eauto.
  - intros k w Hw. destruct (Hok k) as [r Hr]; [apply own_keys_elem; by eexists|].
    rewrite Hw in Hr. by exists r.
Qed.

End Proofs.

(** The properties of an object laid out as a tree, by key. *)
Lemma owns_all_keys h kvs kvals F :
  owns_all (λ '(k, j) '(k', v) F, k' = k ∧ owns h j v F) kvs kvals F →
  NoDup kvs.*1 →
  ∃ Fm : gmap string (gset loc),
    (∀ k jk, (k, jk) ∈ kvs →
       ∃ w Fk, (list_to_map kvals : gmap string val) !! k = Some w ∧
               Fm !! k = Some Fk ∧ owns h jk w Fk) ∧
    (∀ k Fk, Fm !! k = Some Fk → Fk ⊆ F ∧ k ∈ kvs.*1) ∧
    (∀ k1 k2 F1 F2, k1 ≠ k2 → Fm !! k1 = Some F1 → Fm !! k2 = Some F2 → F1 ## F2) ∧
    (∀ k, is_Some ((list_to_map kvals : gmap string val) !! k) ↔ k ∈ kvs.*1).
Proof.
  revert kvals F. induction kvs as [|[k j] kvs IH]; intros [|[k' w] kvals] F; try done.
  - simpl. intros -> _. exists ∅. split; [by intros ?? ?%elem_of_nil|].
    split; [by intros ?? ?%lookup_empty_Some|]. split; [by intros ???? _ ?%lookup_empty_Some|].
    intros k. rewrite lookup_empty. split; [by intros []|by intros ?%elem_of_nil].
  - simpl. intros (F1 & F2 & [-> Hw] & Hrest & Hdisj & ->) [Hk Hnodup]%NoDup_cons.
    destruct (IH _ _ Hrest Hnodup) as (Fm & Hlook & Hsub & Hdis & Hdom).
    assert (HkFm : Fm !! k = None).
    { destruct (Fm !! k) eqn:HFk; [|done]. by apply Hsub in HFk as [_ ?]. }
    exists (<[k := F1]> Fm). split; [|split; [|split]].
    + intros k0 jk [[= -> ->]|Hin]%elem_of_cons.
      * exists w, F1. by rewrite !lookup_insert_eq.
      * assert (k0 ≠ k).
        { intros ->. apply Hk, list_elem_of_fmap. by exists (k, jk). }
        destruct (Hlook _ _ Hin) as (w0 & Fk & ? & ? & ?). exists w0, Fk.
        by rewrite !lookup_insert_ne.
    + intros k0 Fk. destruct (decide (k0 = k)) as [->|Hne].
      * rewrite lookup_insert_eq. intros [= <-]. split; [set_solver|left].
      * rewrite lookup_insert_ne by done. intros [? ?]%Hsub. split; [set_solver|by right].
    + intros k1 k2 G1 G2 Hne.
      destruct (decide (k1 = k)) as [->|Hne1], (decide (k2 = k)) as [->|Hne2]; try done.
      * rewrite lookup_insert_eq, lookup_insert_ne by done.
        intros [= <-] [? _]%Hsub. set_solver.
      * rewrite lookup_insert_ne, lookup_insert_eq by done.
        intros [? _]%Hsub [= <-]. set_solver.
      * rewrite !lookup_insert_ne by done. by apply Hdis.
    + intros k0. destruct (decide (k0 = k)) as [->|Hne].
      * rewrite lookup_insert_eq. split; [left|by eexists].
      * rewrite lookup_insert_ne by done. rewrite Hdom. split; [by right|].
        by intros [?|?]%elem_of_cons.
Qed.

Section Proofs.
Context `{!KeyOrder}.

Lemma stringify_defined n h v r : stringify n h v = Ok r → v ≠ VUndef → is_Some r.
Proof.
  destruct v as [| | | | |l]; try done; destruct n as [|n']; simpl;
    try (intros [= <-] _; by eexists); try done.
  destruct (h !! l) as [[props|elems]|]; [| |done].
  - unfold mbind, result_bind. destruct (mapM _ _); [|done]. intros [= <-]. by eexists.
  - unfold mbind, result_bind. destruct (mapM _ _); [|done]. intros [= <-]. by eexists.
Qed.

Lemma stringify_num n h c j : stringify n h (VNum c) = Ok (Some j) → j = JNum c.
Proof. destruct n; by intros [= <-]. Qed.

Lemma stringify_str n h s j : stringify n h (VStr s) = Ok (Some j) → j = JStr s.
Proof. destruct n; by intros [= <-]. Qed.

(** ** The copy [JSON.parse(JSON.stringify(v))] makes *)

(** The copy of an object: an object with a copy of each property that is not
    [undefined], each in a part of the store of its own. *)
Lemma copy_object n h v props j h1 v' F :
  read_object h v = Some props →
  stringify n h v = Ok (Some j) →
  owns h1 j v' F →
  ∃ n' l' props' (Fm : gmap string (gset loc)),
    n = S n' ∧ v' = VRef l' ∧ h1 !! l' = Some (Obj props') ∧ l' ∈ F ∧
    (∀ k w, props !! k = Some w → w ≠ VUndef →
       ∃ jk w' Fk, stringify n' h w = Ok (Some jk) ∧ props' !! k = Some w' ∧
                   Fm !! k = Some Fk ∧ owns h1 jk w' Fk) ∧
    (∀ k w', props' !! k = Some w' → ∃ w, props !! k = Some w ∧ w ≠ VUndef) ∧
    (∀ k Fk, Fm !! k = Some Fk → Fk ⊆ F ∧ l' ∉ Fk) ∧
    (∀ k1 k2 F1 F2, k1 ≠ k2 → Fm !! k1 = Some F1 → Fm !! k2 = Some F2 → F1 ## F2).
Proof.
  intros Hv Hs Ho.
  destruct (stringify_object _ _ _ _ _ Hv Hs) as (n' & kvs & -> & -> & Hnodup & Hkvs & Hok).
  simpl in Ho. destruct Ho as (l' & kvals & F' & -> & Hl' & Hall & HlF & ->).
  destruct (owns_all_keys _ _ _ _ Hall Hnodup) as (Fm & Hlook & Hsub & Hdis & Hdom).
  exists n', l', (list_to_map kvals), Fm.
  split; [done|]. split; [done|]. split; [done|]. split; [set_solver|].
  split; [|split; [|split]].
  - intros k w Hw Hdef. destruct (Hok _ _ Hw) as [r Hr].
    destruct (stringify_defined _ _ _ _ Hr Hdef) as [jk ->].
    destruct (Hlook k jk) as (w' & Fk & ? & ? & ?).
    { apply Hkvs. by exists w. }
    by exists jk, w', Fk.
  - intros k w' Hw'. assert (k ∈ kvs.*1) as Hk by (apply Hdom; by eexists).
    apply list_elem_of_fmap in Hk as [[k' jk] [-> Hk]].
    apply Hkvs in Hk as (w & Hw & Hs'). exists w. split; [done|]. intros ->.
    by destruct n'.
  - intros k Fk [? ?]%Hsub. split; [set_solver|set_solver].
  - done.
Qed.

(** The copy of an object of counts has the same counts. *)
Lemma copy_counts n h v m j h1 v' F :
  read_counts h v = Some m →
  stringify n h v = Ok (Some j) →
  owns h1 j v' F →
  ∃ l', v' = VRef l' ∧ h1 !! l' = Some (Obj (VNum <$> m)) ∧ l' ∈ F.
Proof.
  intros Hv%read_counts_inv Hs Ho.
  destruct (copy_object _ _ _ _ _ _ _ _ Hv Hs Ho)
    as (n' & l' & props' & Fm & -> & -> & Hl' & HlF & Hcopy & Hback & _).
  exists l'. split; [done|]. split; [|done]. rewrite Hl'. do 2 f_equal.
  apply map_eq. intros k. destruct ((VNum <$> m) !! k) as [w|] eqn:Hk.
  - rewrite lookup_fmap in Hk. destruct (m !! k) as [c|] eqn:Hc; simplify_eq/=.
    destruct (Hcopy k (VNum c)) as (jk & w' & Fk & Hjk & -> & _ & Hown); [|done|].
    { by rewrite lookup_fmap, Hc. }
    apply stringify_num in Hjk as ->. by destruct Hown as [-> _].
  - destruct (props' !! k) as [w'|] eqn:Hw'; [|done].
    destruct (Hback _ _ Hw') as (w & Hw & _). congruence.
Qed.

(** The copy of an array of counts has the same counts. *)
Lemma copy_arms n h v arms j h1 v' F :
  read_arms h v = Some arms →
  stringify n h v = Ok (Some j) →
  owns h1 j v' F →
  ∃ l', v' = VRef l' ∧ h1 !! l' = Some (Arr (VNum <$> arms)) ∧ l' ∈ F.
Proof.
  unfold read_arms, read_array. destruct v as [| | | | |l]; try done.
  destruct (h !! l) as [[|elems]|] eqn:Hl; try done. simpl.
  intros Harms%mapM_Some Hs Ho. destruct n as [|n']; [done|]. simpl in Hs.
  rewrite Hl in Hs. unfold mbind at 1, result_bind at 1 in Hs.
  destruct (mapM _ _) as [js|] eqn:Hjs; [|done]. injection Hs as <-.
  apply mapM_result_inv in Hjs. simpl in Ho.
  destruct Ho as (l' & vs & F' & -> & Hl' & Hall & _ & ->).
  exists l'. split; [done|]. split; [|set_solver]. rewrite Hl'. do 2 f_equal.
  clear Hl Hl'. revert js vs F' Hjs Hall.
  induction Harms as [|x c elems arms Hx _ IH]; intros js vs F' Hjs Hall.
  - apply Forall2_nil_inv_l in Hjs as ->. by destruct vs.
  - apply Forall2_cons_inv_l in Hjs as (jx & js' & Hjx & Hjs & ->).
    destruct vs as [|w vs]; [done|]. simpl in Hall.
    destruct Hall as (F1 & F2 & Hw & Hall & _ & _).
    destruct x; simplify_eq/=. destruct n'; simpl in Hjx; simplify_eq;
      destruct Hw as [-> _]; f_equal; by eapply IH.
Qed.

(** The copy of an object whose properties are all read by [rd], when the
    copy of each property reads the same. *)
Lemma copy_map {B} (rd : heap → val → option B) n h v props m j h1 v' F :
  read_object h v = Some props →
  traverse (rd h) props = Some m →
  (∀ n' w y jw w' Fw, rd h w = Some y → stringify n' h w = Ok (Some jw) →
                      owns h1 jw w' Fw → rd h1 w' = Some y) →
  (∀ y, rd h VUndef ≠ Some y) →
  stringify n h v = Ok (Some j) →
  owns h1 j v' F →
  ∃ props', read_object h1 v' = Some props' ∧ traverse (rd h1) props' = Some m.
Proof.
  intros Hv Hm Hrd Hundef Hs Ho.
  destruct (copy_object _ _ _ _ _ _ _ _ Hv Hs Ho)
    as (n' & l' & props' & Fm & -> & -> & Hl' & HlF & Hcopy & Hback & _).
  exists props'. split; [by simpl; rewrite Hl'|].
  assert (Hsame : ∀ k, props' !! k ≫= rd h1 = m !! k).
  { intros k. rewrite (traverse_Some _ _ _ Hm).
    destruct (props !! k) as [w|] eqn:Hw.
    - destruct (traverse_lookup _ _ _ _ _ Hm Hw) as (y & Hy & _).
      destruct (Hcopy k w Hw) as (jk & w' & Fk & Hjk & -> & _ & Hown).
      { intros ->. by eapply Hundef. }
      simpl. rewrite Hy. by eapply Hrd.
    - destruct (props' !! k) as [w'|] eqn:Hw'; [|done].
      destruct (Hback _ _ Hw') as (w & Hw0 & _). congruence. }
  rewrite traverse_intro.
  - f_equal. apply map_eq. intros k. by rewrite lookup_omap, <-Hsame.
  - intros k w' Hw'. destruct (Hback _ _ Hw') as (w & Hw & _).
    destruct (traverse_lookup _ _ _ _ _ Hm Hw) as (y & _ & Hy).
    specialize (Hsame k). rewrite Hw', Hy in Hsame. by exists y.
Qed.

(** The copy of an entry of the statement map starts on the same line. *)
Lemma copy_start_line n h entry line j h1 entry' F :
  read_start_line h entry = Some line →
  stringify n h entry = Ok (Some j) →
  owns h1 j entry' F →
  read_start_line h1 entry' = Some line.
Proof.
  intros (eprops & start & sprops & He & Hstart & Hso & Hline)%read_start_line_inv Hs Ho.
  destruct (copy_object _ _ _ _ _ _ _ _ He Hs Ho)
    as (n' & l' & eprops' & Fm & -> & -> & Hl' & _ & Hcopy & _).
  destruct (Hcopy _ _ Hstart) as (js & start' & Fs & Hjs & Hstart' & _ & Hown).
  { by intros ->. }
  destruct (copy_object _ _ _ _ _ _ _ _ Hso Hjs Hown)
    as (n'' & ls & sprops' & Fm' & -> & -> & Hls & _ & Hcopy' & _).
  destruct (Hcopy' _ _ Hline) as (jl & line' & Fl & Hjl & Hline' & _ & Hown'); [done|].
  apply stringify_num in Hjl as ->. destruct Hown' as [-> _].
  unfold read_start_line. simpl. rewrite Hl'. simpl. rewrite Hstart'. simpl.
  rewrite Hls. simpl. by rewrite Hline'.
Qed.

(** The copy of an entry of the function map has the same name and line. *)
Lemma copy_function n h entry fn j h1 entry' F :
  read_function h entry = Some fn →
  stringify n h entry = Ok (Some j) →
  owns h1 j entry' F →
  read_function h1 entry' = Some fn.
Proof.
  intros (props & He & Hname & Hline)%read_function_inv Hs Ho.
  destruct (copy_object _ _ _ _ _ _ _ _ He Hs Ho)
    as (n' & l' & props' & Fm & -> & -> & Hl' & _ & Hcopy & _).
  destruct (Hcopy _ _ Hname) as (jn & name' & Fn & Hjn & Hname' & _ & Hown); [done|].
  destruct (Hcopy _ _ Hline) as (jl & line' & Fl & Hjl & Hline' & _ & Hown'); [done|].
  apply stringify_str in Hjn as ->. destruct Hown as [-> _].
  apply stringify_num in Hjl as ->. destruct Hown' as [-> _].
  unfold read_function. simpl. rewrite Hl'. simpl. rewrite Hname', Hline'. simpl.
  by destruct fn.
Qed.

Lemma copy_statementMap n h v lines j h1 v' F :
  read_statementMap h v = Some lines →
  stringify n h v = Ok (Some j) →
  owns h1 j v' F →
  read_statementMap h1 v' = Some lines.
Proof.
  unfold read_statementMap at 1. destruct (read_object h v) as [props|] eqn:Hv; [|done].
  simpl. intros Hm Hs Ho.
  destruct (copy_map read_start_line n h v props lines j h1 v' F Hv Hm)
    as (props' & Hv' & Hm'); [|done..|].
  - intros. by eapply copy_start_line.
  - unfold read_statementMap. by rewrite Hv'.
Qed.

Lemma copy_fnMap n h v fns j h1 v' F :
  read_fnMap h v = Some fns →
  stringify n h v = Ok (Some j) →
  owns h1 j v' F →
  read_fnMap h1 v' = Some fns.
Proof.
  unfold read_fnMap at 1. destruct (read_object h v) as [props|] eqn:Hv; [|done].
  simpl. intros Hm Hs Ho.
  destruct (copy_map read_function n h v props fns j h1 v' F Hv Hm)
    as (props' & Hv' & Hm'); [|done..|].
  - intros. by eapply copy_function.
  - unfold read_fnMap. by rewrite Hv'.
Qed.

End Proofs.

Section Proofs.
Context `{!KeyOrder}.

(** The copy of the branches: an object of new arrays with the same counts,
    one array for each branch. *)
Lemma copy_branches n h v bm j h1 v' F :
  read_branches h v = Some bm →
  stringify n h v = Ok (Some j) →
  owns h1 j v' F →
  ∃ l' (arrays : gmap string loc),
    v' = VRef l' ∧ h1 !! l' = Some (Obj (VRef <$> arrays)) ∧ l' ∈ F ∧
    (∀ k la, arrays !! k = Some la →
       la ∈ F ∧ la ≠ l' ∧
       ∃ arms, bm !! k = Some arms ∧ h1 !! la = Some (Arr (VNum <$> arms))) ∧
    (∀ k arms, bm !! k = Some arms → is_Some (arrays !! k)) ∧
    (∀ k1 k2 la, arrays !! k1 = Some la → arrays !! k2 = Some la → k1 = k2).
Proof.
  unfold read_branches. destruct (read_object h v) as [props|] eqn:Hv; [|done]. simpl.
  intros Hbm Hs Ho.
  destruct (copy_object _ _ _ _ _ _ _ _ Hv Hs Ho)
    as (n' & l' & props' & Fm & -> & -> & Hl' & HlF & Hcopy & Hback & Hsub & Hdis).
  assert (Hcopy' : ∀ k w arms, props !! k = Some w → read_arms h w = Some arms →
            ∃ la Fk, props' !! k = Some (VRef la) ∧ Fm !! k = Some Fk ∧
                     la ∈ Fk ∧ h1 !! la = Some (Arr (VNum <$> arms))).
  { intros k w arms Hw Harms.
    destruct (Hcopy k w Hw) as (jk & w' & Fk & Hjk & Hw' & HFk & Hown); [by intros ->|].
    destruct (copy_arms _ _ _ _ _ _ _ _ Harms Hjk Hown) as (la & -> & Hla & HlaF).
    by exists la, Fk. }
  assert (Hback' : ∀ k w', props' !! k = Some w' →
            ∃ la arms Fk, w' = VRef la ∧ bm !! k = Some arms ∧ Fm !! k = Some Fk ∧
                          la ∈ Fk ∧ h1 !! la = Some (Arr (VNum <$> arms))).
  { intros k w' Hw'. destruct (Hback _ _ Hw') as (w & Hw & _).
    destruct (traverse_lookup _ _ _ _ _ Hbm Hw) as (arms & Harms & Hk).
    destruct (Hcopy' _ _ _ Hw Harms) as (la & Fk & ? & ? & ? & ?).
    exists la, arms, Fk. split; [congruence|done]. }
  exists l', (omap as_ref props'). split; [done|]. split; [|split; [done|]].
  { rewrite Hl'. do 2 f_equal. apply map_eq. intros k.
    rewrite lookup_fmap, lookup_omap. destruct (props' !! k) as [w'|] eqn:Hw'; [|done].
    by destruct (Hback' _ _ Hw') as (la & _ & _ & -> & _). }
  split; [|split].
  - intros k la. rewrite lookup_omap. destruct (props' !! k) as [w'|] eqn:Hw'; [|done].
    destruct (Hback' _ _ Hw') as (la' & arms & Fk & -> & Hk & HFk & HlaF & Hla).
    intros [= <-]. destruct (Hsub _ _ HFk). split; [set_solver|].
    split; [set_solver|]. by exists arms.
  - intros k arms Hk. rewrite lookup_omap.
    rewrite (traverse_Some _ _ _ Hbm) in Hk.
    destruct (props !! k) as [w|] eqn:Hw; [|done]. simpl in Hk.
    destruct (Hcopy' _ _ _ Hw Hk) as (la & Fk & -> & _). by eexists.
  - intros k1 k2 la. rewrite !lookup_omap.
    destruct (props' !! k1) as [w1|] eqn:Hw1; [|done].
    destruct (props' !! k2) as [w2|] eqn:Hw2; [|done].
    destruct (Hback' _ _ Hw1) as (la1 & _ & F1 & -> & _ & HF1 & Hla1 & _).
    destruct (Hback' _ _ Hw2) as (la2 & _ & F2 & -> & _ & HF2 & Hla2 & _).
    intros [= ->] [= ->]. destruct (decide (k1 = k2)) as [|Hne]; [done|].
    specialize (Hdis _ _ _ _ Hne HF1 HF2). set_solver.
Qed.

End Proofs.

(** ** The loops of mergeFileCoverage *)

Lemma foldl_add_at_lookup {A} `{!Inhabited A} (g : A → A → A) y ks (m : gmap string A) k :
  NoDup ks →
  foldl (add_at g y) m ks !! k
  = if decide (k ∈ ks) then Some (g (m !!! k) (y !!! k)) else m !! k.
Proof.
  intros Hnodup. revert m. induction Hnodup as [|k0 ks Hk0 _ IH]; intros m.
  - case_decide as Hin; [by apply elem_of_nil in Hin|done].
  - cbn [foldl]. rewrite IH. destruct (decide (k = k0)) as [->|Hne].
    + rewrite decide_False by done. unfold add_at. rewrite lookup_insert_eq.
      rewrite decide_True; [done|left].
    + unfold add_at. rewrite lookup_total_insert_ne, lookup_insert_ne by done.
      destruct (decide (k ∈ ks)) as [Hin|Hnin].
      * rewrite decide_True; [done|by right].
      * rewrite decide_False; [done|]. by intros [?|?]%elem_of_cons.
Qed.

Lemma add_onto_lookup {A} (g : A → A → A) (m y : gmap string A) k :
  add_onto g m y !! k = x ← m !! k; Some (from_option (g x) x (y !! k)).
Proof. unfold add_onto. by rewrite map_lookup_imap. Qed.

Lemma dom_add_onto {A} (g : A → A → A) (m y : gmap string A) :
  dom (add_onto g m y) = dom m.
Proof.
  apply set_eq. intros k. rewrite !elem_of_dom, add_onto_lookup.
  destruct (m !! k); simpl; split; intros [? ?]; by eauto.
Qed.

Lemma add_onto_zip {A} (g : A → A → A) (m y : gmap string A) :
  dom m = dom y → add_onto g m y = map_zip_with g m y.
Proof.
  intros Hdom. apply map_eq. intros k. rewrite add_onto_lookup, map_lookup_zip_with.
  destruct (m !! k) as [x|] eqn:Hx; [|done]. simpl.
  assert (is_Some (y !! k)) as [v ->]; [|done].
  apply elem_of_dom. rewrite <-Hdom. apply elem_of_dom. by eexists.
Qed.

Lemma foldl_add_at_onto {A} `{!Inhabited A} (g : A → A → A) y ks (m : gmap string A) :
  NoDup ks → (∀ k, k ∈ ks ↔ is_Some (y !! k)) → dom y ⊆ dom m →
  foldl (add_at g y) m ks = add_onto g m y.
Proof.
  intros Hnodup Hks Hdom. apply map_eq. intros k.
  rewrite foldl_add_at_lookup, add_onto_lookup by done.
  destruct (decide (k ∈ ks)) as [Hin|Hnin].
  - apply Hks in Hin as Hy. destruct Hy as [v Hv].
    assert (is_Some (m !! k)) as [x Hx].
    { apply elem_of_dom, Hdom, elem_of_dom. by eexists. }
    by rewrite !lookup_total_alt, Hx, Hv.
  - destruct (y !! k) as [v|] eqn:Hv.
    + destruct Hnin. apply Hks. by eexists.
    + by destruct (m !! k).
Qed.

Lemma js_add_num a b h : js_add (VNum a) (VNum b) h = (Ok (VNum (double_add a b)), h).
Proof. done. Qed.

(** [ret.s[k] += second.s[k]] and [ret.f[k] += second.f[k]]: [ls] is the
    object of counts of the copy, [ls2] that of [second]. *)
Lemma merge_counts_step name lr rprops l2 props2 ls ls2 (sb cur : gmap string Z) k x y h :
  rprops !! name = Some (VRef ls) →
  props2 !! name = Some (VRef ls2) →
  h !! lr = Some (Obj rprops) →
  h !! l2 = Some (Obj props2) →
  h !! ls2 = Some (Obj (VNum <$> sb)) →
  h !! ls = Some (Obj (VNum <$> cur)) →
  cur !! k = Some x → sb !! k = Some y →
  (ret_s ← get (VRef lr) name;
   old ← get ret_s k;
   second_s ← get (VRef l2) name;
   v ← get second_s k;
   sum ← js_add old v;
   set ret_s k sum) h
  = (Ok tt, <[ls := Obj (VNum <$> <[k := double_add x y]> cur)]> h).
Proof.
  intros Hname Hname2 Hr H2 Hs2 Hs Hx Hy.
  rewrite (bind_run _ _ _ _ _ (get_ref _ _ _ name Hr)). simpl. rewrite Hname. simpl.
  rewrite (bind_run _ _ _ _ _ (get_ref _ _ _ k Hs)). simpl.
  rewrite (bind_run _ _ _ _ _ (get_ref _ _ _ name H2)). simpl. rewrite Hname2. simpl.
  rewrite (bind_run _ _ _ _ _ (get_ref _ _ _ k Hs2)). simpl.
  rewrite !lookup_fmap, Hx, Hy. simpl.
  rewrite (bind_run _ _ _ _ _ (js_add_num x y h)).
  rewrite (set_object _ _ _ k _ Hs). by rewrite fmap_insert.
Qed.

(** The loop over the keys of [second.s] and the one over those of [second.f]. *)
Lemma merge_counts_loop name lr rprops l2 props2 ls ls2 (sb : gmap string Z) ks :
  rprops !! name = Some (VRef ls) →
  props2 !! name = Some (VRef ls2) →
  ls ≠ lr → ls ≠ l2 → ls ≠ ls2 →
  ∀ (cur : gmap string Z) h,
  h !! lr = Some (Obj rprops) →
  h !! l2 = Some (Obj props2) →
  h !! ls2 = Some (Obj (VNum <$> sb)) →
  h !! ls = Some (Obj (VNum <$> cur)) →
  (∀ k, k ∈ ks → is_Some (cur !! k) ∧ is_Some (sb !! k)) →
  forEach ks (λ k,
    ret_s ← get (VRef lr) name;
    old ← get ret_s k;
    second_s ← get (VRef l2) name;
    v ← get second_s k;
    sum ← js_add old v;
    set ret_s k sum) h
  = (Ok tt, <[ls := Obj (VNum <$> foldl (add_at double_add sb) cur ks)]> h).
Proof.
  intros Hname Hname2 Hlr Hl2 Hls2. induction ks as [|k ks IH]; intros cur h Hr H2 Hs2 Hs Hks.
  - simpl. by rewrite insert_id.
  - destruct (Hks k) as [[x Hx] [y Hy]]; [left|]. cbn [forEach foldl].
    rewrite (bind_run _ _ _ _ _
      (merge_counts_step _ _ _ _ _ _ _ _ _ _ _ _ _ Hname Hname2 Hr H2 Hs2 Hs Hx Hy)).
    rewrite (IH (<[k := double_add x y]> cur)).
    + rewrite insert_insert_eq.
      replace (add_at double_add sb cur k) with (<[k := double_add x y]> cur); [done|].
      unfold add_at. by rewrite !lookup_total_alt, Hx, Hy.
    + by rewrite lookup_insert_ne.
    + by rewrite lookup_insert_ne.
    + by rewrite lookup_insert_ne.
    + by rewrite lookup_insert_eq.
    + intros k' Hk'. destruct (Hks k') as [Hc Hb]; [by right|]. split; [|done].
      destruct (decide (k' = k)) as [->|Hne].
      * rewrite lookup_insert_eq. by eexists.
      * by rewrite lookup_insert_ne.
Qed.

Lemma own_prop_array elems (i : nat) v :
  elems !! i = Some v → own_prop (Arr elems) (pretty (Z.of_nat i)) = v.
Proof.
  intros Hi. simpl. rewrite decide_False by apply pretty_nat_not_length.
  rewrite array_index_lookup by (by eapply lookup_lt_Some). simpl. by rewrite Hi.
Qed.

Lemma set_array h l elems (i : nat) v :
  h !! l = Some (Arr elems) → (i < length elems)%nat →
  set (VRef l) (pretty (Z.of_nat i)) v h = (Ok tt, <[l := Arr (<[i := v]> elems)]> h).
Proof.
  intros Hl Hi. unfold set, deref, mbind, M_bind. rewrite Hl. simpl.
  rewrite array_index_lookup by lia. simpl. by rewrite decide_True.
Qed.

Lemma for_loop_S fuel i cond body :
  for_loop (S fuel) i cond body
  = (continue ← cond i;
     if continue : bool then body i;; for_loop fuel (i + 1) cond body else mret tt).
Proof. done. Qed.

(** [i < retArray.length] *)
Lemma merge_arms_cond h la elems i :
  h !! la = Some (Arr elems) →
  (len ← get (VRef la) "length"; js_lt (VNum i) len) h
  = (Ok (bool_decide (i < Z.of_nat (length elems))), h).
Proof. intros Ha. by rewrite (bind_run _ _ _ _ _ (get_ref _ _ _ "length" Ha)). Qed.

(** [retArray[i] += secondArray[i]] *)
Lemma merge_arms_step h la la2 elems elems2 (i : nat) x y :
  h !! la = Some (Arr elems) → h !! la2 = Some (Arr elems2) →
  elems !! i = Some (VNum x) → elems2 !! i = Some (VNum y) →
  (old ← get (VRef la) (pretty (Z.of_nat i));
   v ← get (VRef la2) (pretty (Z.of_nat i));
   sum ← js_add old v;
   set (VRef la) (pretty (Z.of_nat i)) sum) h
  = (Ok tt, <[la := Arr (<[i := VNum (double_add x y)]> elems)]> h).
Proof.
  intros Ha Ha2 Hx Hy.
  rewrite (bind_run _ _ _ _ _ (get_ref _ _ _ _ Ha)), (own_prop_array _ _ _ Hx).
  rewrite (bind_run _ _ _ _ _ (get_ref _ _ _ _ Ha2)), (own_prop_array _ _ _ Hy).
  rewrite (bind_run _ _ _ _ _ (js_add_num x y h)).
  apply set_array; [done|]. by eapply lookup_lt_Some.
Qed.

(** The loop over the arms of one branch, from the arm after those [done]. *)
Lemma merge_arms_from la la2 xs :
  la ≠ la2 →
  ∀ ys done pre h,
  h !! la = Some (Arr (VNum <$> (done ++ xs))) →
  h !! la2 = Some (Arr (VNum <$> (pre ++ ys))) →
  length pre = length done → (length xs ≤ length ys)%nat →
  for_loop (S (length xs)) (Z.of_nat (length done))
    (λ i, len ← get (VRef la) "length"; js_lt (VNum i) len)
    (λ i,
      old ← get (VRef la) (pretty i);
      v ← get (VRef la2) (pretty i);
      sum ← js_add old v;
      set (VRef la) (pretty i) sum) h
  = (Ok tt, <[la := Arr (VNum <$> (done ++ zip_with double_add xs ys))]> h).
Proof.
  intros Hne. induction xs as [|x xs IH]; intros ys done pre h Ha Ha2 Hpre Hlen.
  - rewrite for_loop_S.
    rewrite (bind_run _ _ _ _ _ (merge_arms_cond _ _ _ _ Ha)).
    rewrite bool_decide_eq_false_2, insert_id; [done..|].
    rewrite length_fmap, length_app. simpl. lia.
  - destruct ys as [|y ys]; [simpl in Hlen; lia|].
    assert (length xs ≤ length ys)%nat as Hlen' by (simpl in Hlen; lia).
    assert ((VNum <$> done ++ x :: xs) !! length done = Some (VNum x)) as Hx.
    { rewrite list_lookup_fmap, lookup_app_r by lia. by rewrite Nat.sub_diag. }
    assert ((VNum <$> pre ++ y :: ys) !! length done = Some (VNum y)) as Hy.
    { rewrite <-Hpre, list_lookup_fmap, lookup_app_r by lia. by rewrite Nat.sub_diag. }
    cbn [length]. rewrite for_loop_S.
    rewrite (bind_run _ _ _ _ _ (merge_arms_cond _ _ _ _ Ha)).
    rewrite bool_decide_eq_true_2.
    2:{ rewrite length_fmap, length_app. simpl. lia. }
    rewrite (bind_run _ _ _ _ _ (merge_arms_step _ _ _ _ _ _ _ _ Ha Ha2 Hx Hy)).
    replace (<[length done := VNum (double_add x y)]> (VNum <$> done ++ x :: xs))
      with (VNum <$> ((done ++ [double_add x y]) ++ xs)).
    2:{ rewrite <-list_fmap_insert. f_equal. rewrite <-app_assoc. simpl.
        rewrite insert_app_r_alt, Nat.sub_diag by lia. done. }
    replace (Z.of_nat (length done) + 1) with (Z.of_nat (length (done ++ [double_add x y]))).
    2:{ rewrite length_app. simpl. lia. }
    rewrite (IH ys (done ++ [double_add x y]) (pre ++ [y])).
    + rewrite insert_insert_eq. simpl. by rewrite <-app_assoc.
    + by rewrite lookup_insert_eq.
    + rewrite lookup_insert_ne by done. by rewrite <-app_assoc.
    + rewrite !length_app. simpl. lia.
    + done.
Qed.

(** [for (i = 0; i < retArray.length; i += 1) retArray[i] += secondArray[i]] *)
Lemma merge_arms_loop h la la2 xs ys :
  la ≠ la2 →
  h !! la = Some (Arr (VNum <$> xs)) →
  h !! la2 = Some (Arr (VNum <$> ys)) →
  (length xs ≤ length ys)%nat →
  (len ← get (VRef la) "length";
   for_loop (loop_bound len) 0
     (λ i, len ← get (VRef la) "length"; js_lt (VNum i) len)
     (λ i,
       old ← get (VRef la) (pretty i);
       v ← get (VRef la2) (pretty i);
       sum ← js_add old v;
       set (VRef la) (pretty i) sum)) h
  = (Ok tt, <[la := Arr (VNum <$> zip_with double_add xs ys)]> h).
Proof.
  intros Hne Ha Ha2 Hlen.
  rewrite (bind_run _ _ _ _ _ (get_ref _ _ _ "length" Ha)). simpl own_prop.
  rewrite length_fmap. simpl loop_bound. rewrite Nat2Z.id.
  by apply (merge_arms_from la la2 xs Hne ys [] []).
Qed.

Lemma read_branches_arrays h lb arrays cur :
  h !! lb = Some (Obj (VRef <$> arrays)) →
  arrays_hold h arrays cur →
  dom arrays = dom cur →
  read_branches h (VRef lb) = Some cur.
Proof.
  intros Hlb Hhold Hdom. unfold read_branches. simpl. rewrite Hlb. simpl.
  assert (Hread : ∀ k, (VRef <$> arrays) !! k ≫= read_arms h = cur !! k).
  { intros k. rewrite lookup_fmap. destruct (arrays !! k) as [la|] eqn:Hla; simpl.
    - destruct (Hhold _ _ Hla) as (arms & -> & Harr).
      unfold read_arms. simpl. rewrite Harr. simpl. apply mapM_Some.
      apply Forall2_fmap_l, Forall_Forall2_diag, Forall_true. done.
    - symmetry. apply not_elem_of_dom. rewrite <-Hdom. by apply not_elem_of_dom. }
  rewrite traverse_intro.
  - f_equal. apply map_eq. intros k. by rewrite lookup_omap.
  - intros k w Hw. specialize (Hread k). rewrite Hw in Hread. simpl in Hread.
    rewrite lookup_fmap in Hw. destruct (arrays !! k) as [la|] eqn:Hla; [|done].
    destruct (Hhold _ _ Hla) as (arms & Hk & _). rewrite Hread, Hk. by eexists.
Qed.

Section Proofs.
Context `{!KeyOrder}.

(** The loop over the keys of [second.b].  The arrays of the copy are not of
    the store [h0] the call began with, where those of [second] are.  The loop
    ends in a TypeError at the first key the copy has no array for. *)
Lemma merge_branches_loop h0 lr rprops lb arrays l2 props2 lb2 bprops2
    (b2 : gmap string (list Z)) ks :
  rprops !! "b"%string = Some (VRef lb) →
  props2 !! "b"%string = Some (VRef lb2) →
  h0 !! l2 = Some (Obj props2) →
  h0 !! lb2 = Some (Obj bprops2) →
  traverse (read_arms h0) bprops2 = Some b2 →
  (∀ k la, arrays !! k = Some la → h0 !! la = None ∧ la ≠ lr ∧ la ≠ lb) →
  (∀ k1 k2 la, arrays !! k1 = Some la → arrays !! k2 = Some la → k1 = k2) →
  (∀ k, k ∈ ks → is_Some (b2 !! k)) →
  ∀ cur h,
  h0 ⊆ h →
  h !! lr = Some (Obj rprops) →
  h !! lb = Some (Obj (VRef <$> arrays)) →
  arrays_hold h arrays cur →
  dom arrays = dom cur →
  arms_fit cur b2 →
  ∃ outcome h',
    forEach ks (λ k,
      ret_b ← get (VRef lr) "b";
      retArray ← get ret_b k;
      second_b ← get (VRef l2) "b";
      secondArray ← get second_b k;
      len ← get retArray "length";
      for_loop (loop_bound len) 0
        (λ i, len ← get retArray "length"; js_lt (VNum i) len)
        (λ i,
          old ← get retArray (pretty i);
          v ← get secondArray (pretty i);
          sum ← js_add old v;
          set retArray (pretty i) sum)) h = (outcome, h') ∧
    (∀ x, (∀ k, arrays !! k ≠ Some x) → h' !! x = h !! x) ∧
    ((∀ k, k ∈ ks → is_Some (cur !! k)) →
       outcome = Ok tt ∧
       arrays_hold h' arrays (foldl (add_at (zip_with double_add) b2) cur ks)) ∧
    ((∃ k, k ∈ ks ∧ cur !! k = None) → outcome = Err TypeError).
Proof.
  intros Hb Hb2 Hl2 Hlb2 Hread Hfresh Hinj. induction ks as [|k ks IH];
    intros Hks cur h Hsub Hlr Hlb Hhold Hdom Hfit.
  { exists (Ok tt), h. split; [done|]. split; [done|]. split; [done|].
    by intros (k & ?%elem_of_nil & _). }
  destruct (Hks k) as [ys Hys]; [left|].
  assert (∃ la2, bprops2 !! k = Some (VRef la2) ∧
                 h0 !! la2 = Some (Arr (VNum <$> ys))) as (la2 & Hk2 & Harr2).
  { rewrite (traverse_Some _ _ _ Hread) in Hys.
    destruct (bprops2 !! k) as [w|]; [|done]. simpl in Hys.
    apply read_arms_inv in Hys. unfold read_array in Hys.
    destruct w as [| | | | |la2]; try done. exists la2. split; [done|].
    by destruct (h0 !! la2) as [[]|]; simplify_eq. }
  pose proof (lookup_weaken _ _ _ _ Hl2 Hsub) as Hl2'.
  pose proof (lookup_weaken _ _ _ _ Hlb2 Hsub) as Hlb2'.
  pose proof (lookup_weaken _ _ _ _ Harr2 Hsub) as Harr2'.
  destruct (cur !! k) as [xs|] eqn:Hxs.
  - pose proof (Hfit _ _ _ Hxs Hys) as Hxy.
    assert (is_Some (arrays !! k)) as [la Hla].
    { apply elem_of_dom. rewrite Hdom. apply elem_of_dom. by eexists. }
    destruct (Hhold _ _ Hla) as (xs' & Hxs' & Harr). simplify_eq.
    destruct (Hfresh _ _ Hla) as (Hla0 & Hlar & Hlab).
    assert (la ≠ la2) by congruence.
    assert (Hcur' : add_at (zip_with double_add) b2 cur k = <[k := zip_with double_add xs ys]> cur).
    { unfold add_at. by rewrite !lookup_total_alt, Hxs, Hys. }
    destruct (IH (λ k' Hk', Hks k' (list_elem_of_further _ _ _ Hk'))
                 (add_at (zip_with double_add) b2 cur k)
                 (<[la := Arr (VNum <$> zip_with double_add xs ys)]> h))
      as (outcome & h' & Hrun & Hframe & Hok & Hfail).
    + by apply insert_subseteq_r.
    + by rewrite lookup_insert_ne.
    + by rewrite lookup_insert_ne.
    + rewrite Hcur'. intros k' la' Hla'. destruct (decide (k' = k)) as [->|Hne].
      * simplify_eq. exists (zip_with double_add xs ys). by rewrite !lookup_insert_eq.
      * destruct (Hhold _ _ Hla') as (arms & Hk' & Harr').
        exists arms. rewrite !lookup_insert_ne; [done| |done].
        intros ->. apply Hne. by eapply Hinj.
    + rewrite Hcur', dom_insert_L, <-Hdom.
      apply elem_of_dom_2 in Hla. set_solver.
    + rewrite Hcur'. intros k' xs' ys' Hxs' Hys'.
      destruct (decide (k' = k)) as [->|Hne].
      * rewrite lookup_insert_eq in Hxs'. simplify_eq.
        rewrite length_zip_with_l by done. done.
      * rewrite lookup_insert_ne in Hxs' by done. by eapply Hfit.
    + exists outcome, h'. split; [|split; [|split]].
      * cbn [forEach]. erewrite bind_run; [exact Hrun|].
        rewrite (bind_run _ _ _ _ _ (get_ref _ _ _ _ Hlr)). simpl. rewrite Hb. simpl.
        rewrite (bind_run _ _ _ _ _ (get_ref _ _ _ _ Hlb)). simpl.
        rewrite lookup_fmap, Hla. simpl.
        rewrite (bind_run _ _ _ _ _ (get_ref _ _ _ _ Hl2')). simpl. rewrite Hb2. simpl.
        rewrite (bind_run _ _ _ _ _ (get_ref _ _ _ _ Hlb2')). simpl. rewrite Hk2. simpl.
        by apply merge_arms_loop.
      * intros x Hx. rewrite Hframe by done. apply lookup_insert_ne.
        intros <-. by apply (Hx k).
      * intros Hall. apply Hok. intros k' Hk'. rewrite Hcur'.
        destruct (decide (k' = k)) as [->|Hne].
        -- rewrite lookup_insert_eq. by eexists.
        -- rewrite lookup_insert_ne by done. apply Hall. by right.
      * intros (k' & [->|Hk']%elem_of_cons & Hnone); [congruence|].
        apply Hfail. exists k'. split; [done|]. rewrite Hcur'.
        rewrite lookup_insert_ne; [done|]. intros <-. congruence.
  - assert (arrays !! k = None) as Hla.
    { apply not_elem_of_dom. rewrite Hdom. by apply not_elem_of_dom. }
    exists (Err TypeError), h. split; [|split; [done|split]].
    + cbn [forEach]. apply bind_fail.
      rewrite (bind_run _ _ _ _ _ (get_ref _ _ _ _ Hlr)). simpl. rewrite Hb. simpl.
      rewrite (bind_run _ _ _ _ _ (get_ref _ _ _ _ Hlb)). simpl.
      rewrite lookup_fmap, Hla. simpl.
      rewrite (bind_run _ _ _ _ _ (get_ref _ _ _ _ Hl2')). simpl. rewrite Hb2. simpl.
      rewrite (bind_run _ _ _ _ _ (get_ref _ _ _ _ Hlb2')). simpl. rewrite Hk2. simpl.
      done.
    + intros Hall. destruct (Hall k) as [? ?]; [left|congruence].
    + done.
Qed.

End Proofs.

Lemma delete_prop_object h l props k :
  h !! l = Some (Obj props) →
  delete_prop (VRef l) k h = (Ok tt, <[l := Obj (delete k props)]> h).
Proof. intros Hl. unfold delete_prop, deref, mbind, M_bind. by rewrite Hl. Qed.

Lemma read_counts_ref h v m :
  read_counts h v = Some m → ∃ l, v = VRef l ∧ h !! l = Some (Obj (VNum <$> m)).
Proof. by intros ?%read_counts_inv%read_object_ref. Qed.

Lemma read_counts_object h l (m : gmap string Z) :
  h !! l = Some (Obj (VNum <$> m)) → read_counts h (VRef l) = Some m.
Proof.
  intros Hl. unfold read_counts. simpl. rewrite Hl. simpl. apply traverse_as_num_fmap.
Qed.

Section Proofs.
Context `{!KeyOrder}.

(** One call of mergeFileCoverage on two records, the second with no
    statement and no function that the first has not, and with no branch of
    fewer arms: it returns unless the second has a branch that the first has
    not. *)
Lemma mergeFileCoverage_run_any h first second a b text :
  read_file h first = Some a →
  read_file h second = Some b →
  stringify (size h) h first = Ok (Some text) →
  dom (FileCoverage.s b) ⊆ dom (FileCoverage.s a) →
  dom (FileCoverage.f b) ⊆ dom (FileCoverage.f a) →
  arms_fit (FileCoverage.b a) (FileCoverage.b b) →
  (dom (FileCoverage.b b) ⊆ dom (FileCoverage.b a) →
   ∃ ret h',
     mergeFileCoverage first second h = (Ok ret, h') ∧
     read_file h' ret = Some
       (FileCoverage.Make
          (FileCoverage.statementMap a)
          (add_onto double_add (FileCoverage.s a) (FileCoverage.s b))
          (FileCoverage.fnMap a)
          (add_onto double_add (FileCoverage.f a) (FileCoverage.f b))
          (add_onto (zip_with double_add) (FileCoverage.b a) (FileCoverage.b b))
          None)) ∧
  (∀ k, k ∈ dom (FileCoverage.b b) → k ∉ dom (FileCoverage.b a) →
   ∃ h', mergeFileCoverage first second h = (Err TypeError, h')).
Proof.
  intros Ha Hb Htext Hds Hdf Hfit.
  destruct (read_file_inv _ _ _ Ha)
    as (props & vsm & vs & vfn & vf & vb & Hfirst & Hksm & Hsm & Hks & Hs &
        Hkfn & Hfn & Hkf & Hf & Hkb & Hbr & _).
  destruct (read_file_inv _ _ _ Hb)
    as (props2 & vsm2 & vs2 & vfn2 & vf2 & vb2 & Hsecond & _ & _ & Hks2 & Hs2 &
        _ & _ & Hkf2 & Hf2 & Hkb2 & Hbr2 & _).
  (* the copy *)
  destruct (JSON_parse_owns text h) as (ret & h1 & F & Hparse & Hsub & Hown & Hfresh).
  destruct (copy_object _ _ _ _ _ _ _ _ Hfirst Htext Hown)
    as (n' & lr & props' & Fm & Hn & -> & Hlr & HlrF & Hcopy & Hback & HFm & Hdis).
  destruct (Hcopy _ _ Hksm) as (jsm & vsm' & Fsm & Hjsm & Hksm' & HFsm & Hosm);
    [by intros ->|].
  destruct (Hcopy _ _ Hkfn) as (jfn & vfn' & Ffn & Hjfn & Hkfn' & HFfn & Hofn);
    [by intros ->|].
  destruct (Hcopy _ _ Hks) as (js & vs' & Fs & Hjs & Hks' & HFs & Hos); [by intros ->|].
  destruct (Hcopy _ _ Hkf) as (jf & vf' & Ff & Hjf & Hkf' & HFf & Hof); [by intros ->|].
  destruct (Hcopy _ _ Hkb) as (jb & vb' & Fb & Hjb & Hkb' & HFb & Hob); [by intros ->|].
  destruct (copy_counts _ _ _ _ _ _ _ _ Hs Hjs Hos) as (ls & -> & Hls & HlsF).
  destruct (copy_counts _ _ _ _ _ _ _ _ Hf Hjf Hof) as (lf & -> & Hlf & HlfF).
  destruct (copy_branches _ _ _ _ _ _ _ _ Hbr Hjb Hob)
    as (lb & arrays & -> & Hlb & HlbF & Harrays & Hall & Hinj).
  (* the arguments *)
  apply read_object_ref in Hsecond as (l2 & -> & Hl2).
  apply read_counts_ref in Hs2 as (ls2 & -> & Hls2).
  apply read_counts_ref in Hf2 as (lf2 & -> & Hlf2).
  unfold read_branches in Hbr2.
  destruct (read_object h vb2) as [bprops2|] eqn:Hvb2; [|done]. simpl in Hbr2.
  apply read_object_ref in Hvb2 as (lb2 & -> & Hlb2).
  (* the objects of the copy are new, and apart from each other *)
  destruct (HFm _ _ HFsm) as [HFsmF HlrFsm]. destruct (HFm _ _ HFfn) as [HFfnF HlrFfn].
  destruct (HFm _ _ HFs) as [HFsF HlrFs]. destruct (HFm _ _ HFf) as [HFfF HlrFf].
  destruct (HFm _ _ HFb) as [HFbF HlrFb].
  pose proof (Hdis "s" "f" _ _ ltac:(done) HFs HFf) as Hsf.
  pose proof (Hdis "s" "b" _ _ ltac:(done) HFs HFb) as Hsb.
  pose proof (Hdis "f" "b" _ _ ltac:(done) HFf HFb) as Hfb.
  pose proof (Hdis "statementMap" "s" _ _ ltac:(done) HFsm HFs) as Hsms.
  pose proof (Hdis "statementMap" "f" _ _ ltac:(done) HFsm HFf) as Hsmf.
  pose proof (Hdis "statementMap" "b" _ _ ltac:(done) HFsm HFb) as Hsmb.
  pose proof (Hdis "fnMap" "s" _ _ ltac:(done) HFfn HFs) as Hfns.
  pose proof (Hdis "fnMap" "f" _ _ ltac:(done) HFfn HFf) as Hfnf.
  pose proof (Hdis "fnMap" "b" _ _ ltac:(done) HFfn HFb) as Hfnb.
  assert (Hold : ∀ x o, h !! x = Some o → x ∉ F).
  { intros x o Hx HxF. rewrite (Hfresh _ HxF) in Hx. done. }
  pose proof (Hold _ _ Hl2) as Hl2F. pose proof (Hold _ _ Hls2) as Hls2F.
  pose proof (Hold _ _ Hlf2) as Hlf2F. pose proof (Hold _ _ Hlb2) as Hlb2F.
  assert (lr ≠ ls) by (clear -HlrFs HlsF; set_solver).
  assert (lr ≠ lf) by (clear -HlrFf HlfF; set_solver).
  assert (lr ≠ lb) by (clear -HlrFb HlbF; set_solver).
  assert (ls ≠ lf) by (clear -Hsf HlsF HlfF; set_solver).
  assert (ls ≠ lb) by (clear -Hsb HlsF HlbF; set_solver).
  assert (lf ≠ lb) by (clear -Hfb HlfF HlbF; set_solver).
  assert (lr ≠ l2) by (clear -HlrF Hl2F; set_solver).
  assert (ls ≠ l2) by (clear -HlsF HFsF Hl2F; set_solver).
  assert (lf ≠ l2) by (clear -HlfF HFfF Hl2F; set_solver).
  assert (ls ≠ ls2) by (clear -HlsF HFsF Hls2F; set_solver).
  assert (lf ≠ lf2) by (clear -HlfF HFfF Hlf2F; set_solver).
  assert (Harr : ∀ k la, arrays !! k = Some la →
            h !! la = None ∧ la ≠ lr ∧ la ≠ ls ∧ la ≠ lf ∧ la ≠ lb ∧ la ∈ Fb).
  { intros k la Hla. destruct (Harrays _ _ Hla) as (HlaF & Hlalb & _).
    split; [apply Hfresh; clear -HlaF HFbF; set_solver|].
    clear -HlaF Hlalb HlrFb Hsb Hfb HlsF HlfF. set_solver. }
  (* the stores the call goes through *)
  set (rprops := delete "l"%string props').
  set (h2 := <[lr := Obj rprops]> h1).
  set (sum_s := add_onto double_add (FileCoverage.s a) (FileCoverage.s b)).
  set (sum_f := add_onto double_add (FileCoverage.f a) (FileCoverage.f b)).
  set (sum_b := add_onto (zip_with double_add) (FileCoverage.b a) (FileCoverage.b b)).
  set (h3 := <[ls := Obj (VNum <$> sum_s)]> h2).
  set (h4 := <[lf := Obj (VNum <$> sum_f)]> h3).
  assert (Hclone : JSON_clone first h = (Ok (VRef lr), h1)).
  { unfold JSON_clone, JSON_stringify.
    by rewrite (bind_run _ _ h (Some text) h) by (by rewrite Htext). }
  assert (Hsub2 : h ⊆ h2).
  { apply insert_subseteq_r; [|done]. by apply Hfresh. }
  assert (Hsub3 : h ⊆ h3).
  { apply insert_subseteq_r; [|done]. apply Hfresh. clear -HlsF HFsF. set_solver. }
  assert (Hsub4 : h ⊆ h4).
  { apply insert_subseteq_r; [|done]. apply Hfresh. clear -HlfF HFfF. set_solver. }
  assert (Hloop_s :
    forEach (own_keys (VNum <$> FileCoverage.s b)) (λ k,
      ret_s ← get (VRef lr) "s";
      old ← get ret_s k;
      second_s ← get (VRef l2) "s";
      v ← get second_s k;
      sum ← js_add old v;
      set ret_s k sum) h2 = (Ok tt, h3)).
  { rewrite (merge_counts_loop "s" lr rprops l2 props2 ls ls2
               (FileCoverage.s b) _ ) with (cur := FileCoverage.s a); try done.
    - unfold h3, sum_s. rewrite foldl_add_at_onto; [done|apply own_keys_NoDup| |done].
      intros k. by rewrite own_keys_elem, lookup_fmap, fmap_is_Some.
    - unfold rprops. by rewrite lookup_delete_ne.
    - unfold h2. by rewrite lookup_insert_eq.
    - by apply (lookup_weaken _ _ _ _ Hl2).
    - by apply (lookup_weaken _ _ _ _ Hls2).
    - unfold h2. by rewrite lookup_insert_ne.
    - intros k. rewrite own_keys_elem, lookup_fmap, fmap_is_Some.
      intros Hk. split; [|done]. apply elem_of_dom, Hds. by apply elem_of_dom. }
  assert (Hloop_f :
    forEach (own_keys (VNum <$> FileCoverage.f b)) (λ k,
      ret_f ← get (VRef lr) "f";
      old ← get ret_f k;
      second_f ← get (VRef l2) "f";
      v ← get second_f k;
      sum ← js_add old v;
      set ret_f k sum) h3 = (Ok tt, h4)).
  { rewrite (merge_counts_loop "f" lr rprops l2 props2 lf lf2
               (FileCoverage.f b) _ ) with (cur := FileCoverage.f a); try done.
    - unfold h4, sum_f. rewrite foldl_add_at_onto; [done|apply own_keys_NoDup| |done].
      intros k. by rewrite own_keys_elem, lookup_fmap, fmap_is_Some.
    - unfold rprops. by rewrite lookup_delete_ne.
    - unfold h3, h2. by rewrite lookup_insert_ne, lookup_insert_eq by done.
    - by apply (lookup_weaken _ _ _ _ Hl2).
    - by apply (lookup_weaken _ _ _ _ Hlf2).
    - unfold h3, h2. by rewrite !lookup_insert_ne by done.
    - intros k. rewrite own_keys_elem, lookup_fmap, fmap_is_Some.
      intros Hk. split; [|done]. apply elem_of_dom, Hdf. by apply elem_of_dom. }
  assert (Hdoma : dom arrays = dom (FileCoverage.b a)).
  { apply set_eq. intros k. rewrite !elem_of_dom. split.
    - intros [la Hla]. destruct (Harrays _ _ Hla) as (_ & _ & arms & ? & _). by eexists.
    - intros [arms Harms]. by eapply Hall. }
  assert (Hkeys_b : ∀ k, k ∈ own_keys bprops2 ↔ is_Some (FileCoverage.b b !! k)).
  { intros k. rewrite own_keys_elem, <-!elem_of_dom.
    by rewrite (traverse_dom _ _ _ Hbr2). }
  destruct (merge_branches_loop h lr rprops lb arrays l2 props2 lb2 bprops2
              (FileCoverage.b b) (own_keys bprops2)) with (cur := FileCoverage.b a) (h := h4)
    as (outcome & h5 & Hloop_b & Hframe & Hok & Hfail); try done.
  { unfold rprops. by rewrite lookup_delete_ne. }
  { intros k la Hla. destruct (Harr _ _ Hla) as (? & ? & ? & ? & ? & ?). done. }
  { intros k Hk. by apply Hkeys_b. }
  { unfold h4, h3, h2. by rewrite !lookup_insert_ne, lookup_insert_eq by done. }
  { unfold h4, h3, h2. by rewrite !lookup_insert_ne by done. }
  { intros k la Hla. destruct (Harrays _ _ Hla) as (_ & _ & arms & Harms & Hlookup).
    destruct (Harr _ _ Hla) as (? & ? & ? & ? & ? & ?).
    exists arms. split; [done|]. unfold h4, h3, h2. by rewrite !lookup_insert_ne by done. }
  assert (Hrest : ∀ x, (∀ k, arrays !! k ≠ Some x) → x ≠ lr → x ≠ ls → x ≠ lf →
                       h5 !! x = h1 !! x).
  { intros x Hx ? ? ?. rewrite Hframe by done. unfold h4, h3, h2.
    by rewrite !lookup_insert_ne by done. }
  assert (Hnot : ∀ x, x ∉ Fb → ∀ k, arrays !! k ≠ Some x).
  { intros x Hx k Hk. by destruct (Harr _ _ Hk) as (_ & _ & _ & _ & _ & ?). }
  assert (Hrun : mergeFileCoverage first (VRef l2) h
                 = match outcome with
                   | Ok _ => (Ok (VRef lr), h5)
                   | Err e => (Err e, h5)
                   end).
  { unfold mergeFileCoverage.
    rewrite (bind_run _ _ _ _ _ Hclone).
    rewrite (bind_run _ _ _ _ _ (delete_prop_object _ _ _ "l" Hlr)). fold rprops h2.
    rewrite (bind_run _ _ _ _ _ (get_ref _ _ _ "s" (lookup_weaken _ _ _ _ Hl2 Hsub2))).
    simpl own_prop. rewrite Hks2. simpl default.
    rewrite (bind_run _ _ h2 (own_keys (VNum <$> FileCoverage.s b)) h2).
    2:{ apply Object_keys_object. simpl. by rewrite (lookup_weaken _ _ _ _ Hls2 Hsub2). }
    rewrite (bind_run _ _ _ _ _ Hloop_s).
    rewrite (bind_run _ _ _ _ _ (get_ref _ _ _ "f" (lookup_weaken _ _ _ _ Hl2 Hsub3))).
    simpl own_prop. rewrite Hkf2. simpl default.
    rewrite (bind_run _ _ h3 (own_keys (VNum <$> FileCoverage.f b)) h3).
    2:{ apply Object_keys_object. simpl. by rewrite (lookup_weaken _ _ _ _ Hlf2 Hsub3). }
    rewrite (bind_run _ _ _ _ _ Hloop_f).
    rewrite (bind_run _ _ _ _ _ (get_ref _ _ _ "b" (lookup_weaken _ _ _ _ Hl2 Hsub4))).
    simpl own_prop. rewrite Hkb2. simpl default.
    rewrite (bind_run _ _ h4 (own_keys bprops2) h4).
    2:{ apply Object_keys_object. simpl. by rewrite (lookup_weaken _ _ _ _ Hlb2 Hsub4). }
    rewrite (bind_outcome _ _ _ _ _ Hloop_b). by destruct outcome as [[]|]. }
  split; [|intros k Hin2 Hnin1].
  2:{ rewrite Hrun, Hfail; [by eexists|].
      exists k. split; [by apply Hkeys_b, elem_of_dom|by apply not_elem_of_dom]. }
  intros Hdb. destruct Hok as [-> Hhold].
  { intros k Hk%Hkeys_b. by apply elem_of_dom, Hdb, elem_of_dom. }
  rewrite foldl_add_at_onto in Hhold; [|apply own_keys_NoDup|done..].
  fold sum_b in Hhold.
  exists (VRef lr), h5. split; [done|].
  apply (read_file_intro h5 (VRef lr) rprops vsm' (VRef ls) vfn' (VRef lf) (VRef lb)).
  - simpl. rewrite Hframe by (by apply Hnot). unfold h4, h3, h2.
    by rewrite !lookup_insert_ne, lookup_insert_eq by done.
  - unfold rprops. by rewrite lookup_delete_ne.
  - eapply copy_statementMap; [exact Hsm|exact Hjsm|].
    eapply owns_frame; [|exact Hosm]. intros x Hx.
    apply Hrest; [apply Hnot|..];
      clear -Hx Hsmb HlrFsm Hsms Hsmf HlsF HlfF; set_solver.
  - unfold rprops. by rewrite lookup_delete_ne.
  - apply read_counts_object.
    rewrite Hframe by (apply Hnot; clear -Hsb HlsF; set_solver).
    unfold h4, h3. by rewrite lookup_insert_ne, lookup_insert_eq by done.
  - unfold rprops. by rewrite lookup_delete_ne.
  - eapply copy_fnMap; [exact Hfn|exact Hjfn|].
    eapply owns_frame; [|exact Hofn]. intros x Hx.
    apply Hrest; [apply Hnot|..];
      clear -Hx Hfnb HlrFfn Hfns Hfnf HlsF HlfF; set_solver.
  - unfold rprops. by rewrite lookup_delete_ne.
  - apply read_counts_object.
    rewrite Hframe by (apply Hnot; clear -Hfb HlfF; set_solver).
    unfold h4. by rewrite lookup_insert_eq.
  - unfold rprops. by rewrite lookup_delete_ne.
  - apply (read_branches_arrays _ _ arrays); [|done|].
    + rewrite Hframe. { unfold h4, h3, h2. by rewrite !lookup_insert_ne by done. }
      intros k Hk. by destruct (Harr _ _ Hk) as (_ & _ & _ & _ & ? & _).
    + unfold sum_b. by rewrite dom_add_onto.
  - unfold rprops. by rewrite lookup_delete_eq.
Qed.

(** One call of mergeFileCoverage on two records of the same shape. *)
Lemma mergeFileCoverage_run h first second a b text :
  read_file h first = Some a →
  read_file h second = Some b →
  stringify (size h) h first = Ok (Some text) →
  dom (FileCoverage.s a) = dom (FileCoverage.s b) →
  dom (FileCoverage.f a) = dom (FileCoverage.f b) →
  length <$> FileCoverage.b a = length <$> FileCoverage.b b →
  ∃ ret h',
    mergeFileCoverage first second h = (Ok ret, h') ∧
    read_file h' ret = Some
      (FileCoverage.Make
         (FileCoverage.statementMap a)
         (map_zip_with double_add (FileCoverage.s a) (FileCoverage.s b))
         (FileCoverage.fnMap a)
         (map_zip_with double_add (FileCoverage.f a) (FileCoverage.f b))
         (map_zip_with (zip_with double_add) (FileCoverage.b a) (FileCoverage.b b))
         None).
Proof.
  intros Ha Hb Htext Hds Hdf Hlen.
  assert (Hdb : dom (FileCoverage.b a) = dom (FileCoverage.b b)).
  { by rewrite <-(dom_fmap_L length (FileCoverage.b a)), Hlen, dom_fmap_L. }
  destruct (mergeFileCoverage_run_any h first second a b text Ha Hb Htext) as [Hok _].
  - by rewrite Hds.
  - by rewrite Hdf.
  - intros k xs ys Hxs Hys.
    assert ((length <$> FileCoverage.b a) !! k = (length <$> FileCoverage.b b) !! k) as Hk
      by (by rewrite Hlen).
    rewrite !lookup_fmap, Hxs, Hys in Hk. injection Hk as ->. done.
  - destruct Hok as (ret & h' & Hrun & Hread); [by rewrite Hdb|].
    exists ret, h'. split; [done|]. by rewrite <-!add_onto_zip.
Qed.

End Proofs.

Lemma map_zip_with_comm {A} (g : A → A → A) (m1 m2 : gmap string A) :
  (∀ x y, g x y = g y x) → map_zip_with g m1 m2 = map_zip_with g m2 m1.
Proof.
  intros Hg. apply map_eq. intros k. rewrite !map_lookup_zip_with.
  destruct (m1 !! k), (m2 !! k); simpl; [f_equal; apply Hg|done..].
Qed.

Lemma zip_with_comm {A} (g : A → A → A) (xs ys : list A) :
  (∀ x y, g x y = g y x) → zip_with g xs ys = zip_with g ys xs.
Proof.
  intros Hg. revert ys. induction xs as [|x xs IH]; intros [|y ys]; simpl; [done..|].
  by rewrite IH, Hg.
Qed.

Lemma zip_with_double_add_exact (xs ys : list Z) :
  Forall (λ c, - 2 ^ 53 ≤ c ≤ 2 ^ 53) (zip_with Z.add xs ys) →
  zip_with double_add xs ys = zip_with Z.add xs ys.
Proof.
  revert ys. induction xs as [|x xs IH]; intros [|y ys]; simpl; [done..|].
  intros [Hxy Hrest]%Forall_cons. by rewrite IH, double_add_exact.
Qed.

Lemma map_zip_with_exact {A} (g g' : A → A → A) (P : A → Prop) (m1 m2 : gmap string A) :
  (∀ x y, P (g' x y) → g x y = g' x y) →
  map_Forall (λ _, P) (map_zip_with g' m1 m2) →
  map_zip_with g m1 m2 = map_zip_with g' m1 m2.
Proof.
  intros Hg Hall. apply map_eq. intros k. rewrite !map_lookup_zip_with.
  destruct (m1 !! k) as [x|] eqn:Hx, (m2 !! k) as [y|] eqn:Hy; simpl; [|done..].
  f_equal. apply Hg. apply (Hall k). by rewrite map_lookup_zip_with, Hx, Hy.
Qed.

(** C3, as the specification states it, fails where a sum is beyond 2^53:
    two records of the same shape whose counts of the statement [s1] are
    2^53 - 1 and 2 merge to a record whose count is 2^53, and the sum is
    2^53 + 1. *)
Lemma mergeFileCoverage_sum_rounded :
  ∃ a b ret h' r,
    read_file sample_store_large (VRef 1) = Some a ∧
    read_file sample_store_large (VRef 21) = Some b ∧
    same_shape a b ∧
    mergeFileCoverage (VRef 1) (VRef 21) sample_store_large = (Ok ret, h') ∧
    read_file h' ret = Some r ∧
    FileCoverage.s a !! "s1"%string = Some 9007199254740991 ∧
    FileCoverage.s b !! "s1"%string = Some 2 ∧
    FileCoverage.s r !! "s1"%string = Some 9007199254740992 ∧
    FileCoverage.s r ≠ map_zip_with Z.add (FileCoverage.s a) (FileCoverage.s b).
Proof.
  eexists _, _, _, _, _.
  split; [vm_compute; reflexivity|]. split; [vm_compute; reflexivity|].
  split; [apply (bool_decide_unpack _); vm_compute; exact I|].
  split; [vm_compute; reflexivity|]. split; [vm_compute; reflexivity|].
  split; [vm_compute; reflexivity|]. split; [vm_compute; reflexivity|].
  split; [vm_compute; reflexivity|].
  intros Heq. apply (f_equal (.!! "s1"%string)) in Heq. vm_compute in Heq. discriminate.
Qed.

Lemma add_onto_exact {A} (g g' : A → A → A) (P : A → Prop) (m y : gmap string A) :
  (∀ x v, P (g' x v) → g x v = g' x v) →
  map_Forall (λ _, P) (map_zip_with g' m y) →
  add_onto g m y = add_onto g' m y.
Proof.
  intros Hg Hall. apply map_eq. intros k. rewrite !add_onto_lookup.
  destruct (m !! k) as [x|] eqn:Hx; [|done]. simpl.
  destruct (y !! k) as [v|] eqn:Hv; [|done]. simpl.
  f_equal. apply Hg. apply (Hall k). by rewrite map_lookup_zip_with, Hx, Hv.
Qed.

Section Proofs.
Context `{!KeyOrder}.

(** C3 (amended): for two file coverage records [a] and [b] of the same
    shape, none of whose sums of counters is beyond 2^53, [mergeFileCoverage]
    returns a record whose counters are the sums of the counters of [a] and
    [b]: key by key in [s] and [f], and arm by arm in each branch of [b].  The
    record has no [l], whether [a] and [b] had one or not, and the statement
    and function maps of the first argument.  Merged the other way round, the
    two records give the same counters. *)
Theorem mergeFileCoverage_sums_counters (h : heap) (first second : val)
    (a b : FileCoverage.t) (text_a text_b : json) :
  read_file h first = Some a →
  read_file h second = Some b →
  same_shape a b →
  small_sums a b →
  JSON_stringify first h = (Ok (Some text_a), h) →
  JSON_stringify second h = (Ok (Some text_b), h) →
  ∃ ab h_ab ba h_ba r_ab r_ba,
    mergeFileCoverage first second h = (Ok ab, h_ab) ∧
    mergeFileCoverage second first h = (Ok ba, h_ba) ∧
    read_file h_ab ab = Some r_ab ∧
    read_file h_ba ba = Some r_ba ∧
    FileCoverage.s r_ab = map_zip_with Z.add (FileCoverage.s a) (FileCoverage.s b) ∧
    FileCoverage.f r_ab = map_zip_with Z.add (FileCoverage.f a) (FileCoverage.f b) ∧
    FileCoverage.b r_ab
    = map_zip_with (zip_with Z.add) (FileCoverage.b a) (FileCoverage.b b) ∧
    FileCoverage.l r_ab = None ∧
    FileCoverage.statementMap r_ab = FileCoverage.statementMap a ∧
    FileCoverage.fnMap r_ab = FileCoverage.fnMap a ∧
    FileCoverage.s r_ba = FileCoverage.s r_ab ∧
    FileCoverage.f r_ba = FileCoverage.f r_ab ∧
    FileCoverage.b r_ba = FileCoverage.b r_ab ∧
    FileCoverage.l r_ba = None.
Proof.
  intros Ha Hb (Hds & Hdf & Hlen) (Hs & Hf & Hbr) Hta Htb.
  unfold JSON_stringify in Hta, Htb. injection Hta as Hta. injection Htb as Htb.
  destruct (mergeFileCoverage_run h first second a b text_a Ha Hb Hta Hds Hdf Hlen)
    as (ab & h_ab & Hab & Hrab).
  destruct (mergeFileCoverage_run h second first b a text_b Hb Ha Htb)
    as (ba & h_ba & Hba & Hrba); [done..|].
  exists ab, h_ab, ba, h_ba. eexists _, _.
  split; [exact Hab|]. split; [exact Hba|]. split; [exact Hrab|]. split; [exact Hrba|].
  cbn [FileCoverage.s FileCoverage.f FileCoverage.b FileCoverage.l
       FileCoverage.statementMap FileCoverage.fnMap].
  split.
  { apply (map_zip_with_exact _ _ (λ c, - 2 ^ 53 ≤ c ≤ 2 ^ 53)); [|done].
    intros x y Hxy. by apply double_add_exact. }
  split.
  { apply (map_zip_with_exact _ _ (λ c, - 2 ^ 53 ≤ c ≤ 2 ^ 53)); [|done].
    intros x y Hxy. by apply double_add_exact. }
  split.
  { apply (map_zip_with_exact _ _ (Forall (λ c, - 2 ^ 53 ≤ c ≤ 2 ^ 53))); [|done].
    intros xs ys Hxy. by apply zip_with_double_add_exact. }
  repeat (split; [reflexivity|]).
  split; [apply map_zip_with_comm, double_add_comm|].
  split; [apply map_zip_with_comm, double_add_comm|].
  split; [|reflexivity]. apply map_zip_with_comm. intros xs ys.
  apply zip_with_comm, double_add_comm.
Qed.

End Proofs.

Lemma mergeFileCoverage_sums_counters_witness :
  ∃ ab h_ab ba h_ba r_ab r_ba,
    mergeFileCoverage (VRef 1) (VRef 21) sample_store = (Ok ab, h_ab) ∧
    mergeFileCoverage (VRef 21) (VRef 1) sample_store = (Ok ba, h_ba) ∧
    read_file h_ab ab = Some r_ab ∧
    read_file h_ba ba = Some r_ba ∧
    FileCoverage.s r_ab
    = map_zip_with Z.add (FileCoverage.s sample_file) (FileCoverage.s sample_file_again) ∧
    FileCoverage.f r_ab
    = map_zip_with Z.add (FileCoverage.f sample_file) (FileCoverage.f sample_file_again) ∧
    FileCoverage.b r_ab
    = map_zip_with (zip_with Z.add)
        (FileCoverage.b sample_file) (FileCoverage.b sample_file_again) ∧
    FileCoverage.l r_ab = None ∧
    FileCoverage.statementMap r_ab = FileCoverage.statementMap sample_file ∧
    FileCoverage.fnMap r_ab = FileCoverage.fnMap sample_file ∧
    FileCoverage.s r_ba = FileCoverage.s r_ab ∧
    FileCoverage.f r_ba = FileCoverage.f r_ab ∧
    FileCoverage.b r_ba = FileCoverage.b r_ab ∧
    FileCoverage.l r_ba = None.
Proof.
  eapply (mergeFileCoverage_sums_counters sample_store (VRef 1) (VRef 21)
            sample_file sample_file_again).
  - vm_compute; reflexivity.
  - vm_compute; reflexivity.
  - vm_compute. repeat split.
  - apply (bool_decide_unpack _). vm_compute. exact I.
  - vm_compute; reflexivity.
  - vm_compute; reflexivity.
Defined.

(** ** addDerivedInfo on a coverage object of well-formed records *)

(** A file object is no object of counts. *)
Lemma read_file_not_counts h v r m : read_file h v = Some r → read_counts h v = Some m → False.
Proof.
  intros Hr Hm%read_counts_inv.
  destruct (read_file_inv _ _ _ Hr)
    as (props & vsm & vs & vfn & vf & vb & Ho & Hsm & Hlines & _).
  rewrite Ho in Hm. injection Hm as ->. rewrite lookup_fmap in Hsm.
  destruct (m !! "statementMap"%string); simplify_eq/=.
Qed.

(** What a change of the [l] of the file object [p] leaves of another file. *)
Lemma read_file_same_but_l h h' p props vs s v r :
  same_but_l p h h' →
  h !! p = Some (Obj props) → props !! "s"%string = Some vs →
  read_counts h vs = Some s →
  v ≠ VRef p →
  read_file h v = Some r → read_file h' v = Some r.
Proof.
  intros Hframe Hp Hvs Hs Hv Hr.
  destruct (read_file_inv _ _ _ Hr)
    as (props' & vsm & vs' & vfn & vf & vb & Ho & Hsm & Hlines & Hs' & Hcounts
        & Hfn & Hfns & Hf & Hfc & Hb & Hbc & Hl).
  destruct r as [lines s' fns f b l]. simpl in *.
  eapply read_file_intro; try done.
  - by eapply read_object_frame.
  - eapply read_statementMap_frame; [done| |done]. by eapply file_object_not_statementMap.
  - eapply read_counts_frame; [done| |done]. by eapply file_object_not_counts.
  - eapply read_fnMap_frame; [done| |done]. by eapply file_object_not_fnMap.
  - eapply read_counts_frame; [done| |done]. by eapply file_object_not_counts.
  - eapply read_branches_frame; [done| |done]. by eapply file_object_not_branches.
  - destruct (props' !! "l"%string) as [vl|]; [|done].
    destruct Hl as (lm & Hlm & ->). exists lm. split; [|done].
    eapply read_counts_frame; [done| |done]. by eapply file_object_not_counts.
Qed.

Lemma derived_from_refl r : is_Some (FileCoverage.l r) → derived_from r r.
Proof. intros Hl. by repeat split. Qed.

Lemma derived_from_trans r1 r2 r3 :
  derived_from r1 r2 → derived_from r2 r3 → derived_from r1 r3.
Proof.
  intros (? & ? & ? & ? & ? & Hl2 & Hl12) (? & ? & ? & ? & ? & Hl3 & Hl23).
  repeat split; try congruence. intros Hl1. rewrite Hl23 by done. by apply Hl12.
Qed.

Lemma derived_from_well_formed r r' : derived_from r r' → well_formed r → well_formed r'.
Proof.
  intros (Hsm & Hs & Hfn & Hf & _) [? ?]. unfold well_formed.
  by rewrite Hsm, Hs, Hfn, Hf.
Qed.

Section Proofs.
Context `{!KeyOrder}.

(** One call of [addDerivedInfoForFile], on a file whose statements are all
    in the statement map: it returns, the file has line coverage after it, and
    the other objects of the store are as before. *)
Lemma addDerivedInfoForFile_returns h fc r :
  read_file h fc = Some r →
  dom (FileCoverage.s r) ⊆ dom (FileCoverage.statementMap r) →
  ∃ h',
    addDerivedInfoForFile fc h = (Ok tt, h') ∧
    (∃ r', read_file h' fc = Some r' ∧ derived_from r r') ∧
    (∀ v r0, v ≠ fc → read_file h v = Some r0 → read_file h' v = Some r0) ∧
    (∀ v props, v ≠ fc → read_object h v = Some props → read_object h' v = Some props).
Proof.
  intros Hr Hdom.
  destruct (read_file_inv _ _ _ Hr)
    as (props & vsm & vs & vfn & vf & vb & Ho & Hsm & Hlines & Hs & Hcounts
        & Hfn & Hfns & Hf & Hfc & Hb & Hbc & Hl).
  destruct (props !! "l"%string) as [vl|] eqn:Hvl.
  - destruct Hl as (lm & Hlm & Hlr). exists h. split; [|split; [|done]].
    + unfold addDerivedInfoForFile.
      do 3 (erewrite bind_run by (by eapply get_object)).
      rewrite Hvl. simpl. apply read_counts_inv, read_object_ref in Hlm as (q & -> & _).
      done.
    + exists r. split; [done|]. apply derived_from_refl. by rewrite Hlr.
  - destruct (addDerivedInfoForFile_derives _ _ _ _ _ _ _ Ho Hvl Hsm Hlines Hs Hcounts Hdom)
      as (p & lm & -> & Hrun & _).
    apply read_object_ref in Ho as (p' & [= <-] & Hp).
    set (q := fresh (dom h)) in *.
    assert (Hq : h !! q = None) by (apply not_elem_of_dom, is_fresh).
    set (h' := <[q := _]> _) in *.
    assert (Hframe : same_but_l p h h').
    { apply same_but_l_alloc; [|done]. by apply same_but_l_set. }
    exists h'. split; [done|]. split; [|split].
    + eexists. split; [by apply read_file_derived|]. simpl. repeat split; [by eexists|].
      rewrite Hl. by intros [].
    + intros v r0 Hv Hr0. by eapply read_file_same_but_l.
    + intros v props0 Hv Hv0. by eapply read_object_frame.
Qed.

Lemma coverage_of_not_file h coverage files fc path :
  coverage_of h coverage files → files !! path = Some fc → coverage ≠ fc.
Proof.
  intros [Hfiles Hall] Hfc <-. destruct (Hall _ _ Hfc) as (r & Hr & _).
  destruct (read_file_inv _ _ _ Hr)
    as (props & vsm & vs & vfn & vf & vb & Ho & Hsm & Hlines & Hs & Hcounts & _).
  rewrite Hfiles in Ho. injection Ho as <-.
  destruct (Hall _ _ Hs) as (rs & Hrs & _). by eapply read_file_not_counts.
Qed.

(** The loop of [addDerivedInfo]. *)
Lemma addDerivedInfo_loop coverage files ks :
  (∀ k, k ∈ ks → is_Some (files !! k)) →
  ∀ h, coverage_of h coverage files →
  ∃ h',
    forEach ks (λ k, fileCoverage ← get coverage k; addDerivedInfoForFile fileCoverage) h
    = (Ok tt, h') ∧
    coverage_of h' coverage files ∧
    (∀ v r, read_file h v = Some r →
       ∃ r', read_file h' v = Some r' ∧
             (derived_from r r' ∨ r' = r)) ∧
    (∀ k fc, k ∈ ks → files !! k = Some fc →
       ∃ r', read_file h' fc = Some r' ∧ is_Some (FileCoverage.l r')).
Proof.
  induction ks as [|k ks IH]; intros Hks h Hcov.
  { exists h. split; [done|]. split; [done|]. split; [by eauto|].
    by intros ?? ?%elem_of_nil. }
  destruct (Hks k) as [fc Hfc]; [left|].
  pose proof Hcov as [Hfiles Hall]. destruct (Hall _ _ Hfc) as (r & Hr & Hwf).
  destruct (addDerivedInfoForFile_returns _ _ _ Hr (proj1 Hwf))
    as (h1 & Hrun & (r1 & Hr1 & Hder) & Hother & Hobj).
  assert (Hcov1 : coverage_of h1 coverage files).
  { split.
    - apply Hobj; [|done]. by eapply coverage_of_not_file.
    - intros path fc' Hfc'. destruct (Hall _ _ Hfc') as (r' & Hr' & Hwf').
      destruct (decide (fc' = fc)) as [->|Hne].
      + simplify_eq. exists r1. split; [done|]. by eapply derived_from_well_formed.
      + exists r'. split; [by apply Hother|done]. }
  destruct (IH (λ k' Hk', Hks k' (list_elem_of_further _ _ _ Hk')) h1 Hcov1)
    as (h' & Hloop & Hcov' & Hreads & Hdone).
  exists h'. split; [|split; [done|split]].
  - cbn [forEach]. erewrite bind_run; [exact Hloop|].
    rewrite (bind_run _ _ _ _ _ (get_object _ _ _ k Hfiles)). by rewrite Hfc.
  - intros v r0 Hr0. destruct (decide (v = fc)) as [->|Hne].
    + simplify_eq. destruct (Hreads _ _ Hr1) as (r' & Hr' & Hrel).
      exists r'. split; [done|]. left. destruct Hrel as [Hrel| ->]; [|done].
      by eapply derived_from_trans.
    + apply Hreads. by apply Hother.
  - intros k' fc' [->|Hk']%elem_of_cons Hfc'; [|by eapply Hdone].
    simplify_eq. destruct (Hreads _ _ Hr1) as (r' & Hr' & Hrel).
    exists r'. split; [done|]. destruct Hder as (_ & _ & _ & _ & _ & Hl1 & _).
    destruct Hrel as [(_ & _ & _ & _ & _ & Hl' & _)| ->]; done.
Qed.

End Proofs.

(** A loop whose steps all return, and leave the store as it is, returns. *)
Lemma foldM_returns {A B} (F : B → A → M B) h ks :
  (∀ acc k, k ∈ ks → ∃ acc', F acc k h = (Ok acc', h)) →
  ∀ acc, ∃ out, foldM F acc ks h = (Ok out, h).
Proof.
  induction ks as [|k ks IH]; intros Hstep acc.
  - by exists acc.
  - destruct (Hstep acc k) as [acc' Hacc]; [left|].
    destruct (IH (λ acc k' Hk', Hstep acc k' (list_elem_of_further _ _ _ Hk')) acc')
      as [out Hout].
    exists out. cbn [foldM]. by rewrite (bind_run _ _ _ _ _ Hacc).
Qed.

Section Proofs.
Context `{!KeyOrder}.

(** [toYUICoverage] returns on a coverage object of well-formed records. *)
Lemma toYUICoverage_returns h coverage files :
  coverage_of h coverage files →
  ∃ out h',
    toYUICoverage coverage h = (Ok out, h') ∧
    read_object h' coverage = Some files ∧
    (∀ v r, read_file h v = Some r →
       ∃ r', read_file h' v = Some r' ∧ (derived_from r r' ∨ r' = r)).
Proof.
  intros Hcov. pose proof Hcov as [Hfiles _].
  destruct (addDerivedInfo_loop coverage files (own_keys files)) with (h := h)
    as (h' & Hloop & [Hfiles' Hall] & Hreads & Hdone); [|done|].
  { intros k. by rewrite own_keys_elem. }
  assert (Hadd : addDerivedInfo coverage h = (Ok tt, h')).
  { unfold addDerivedInfo. by rewrite (bind_run _ _ _ _ _ (Object_keys_object _ _ _ Hfiles)). }
  unfold toYUICoverage. cbv zeta.
  rewrite (bind_run _ _ _ _ _ Hadd).
  rewrite (bind_run _ _ _ _ _ (Object_keys_object _ _ _ Hfiles')).
  match goal with
  | |- context [foldM ?F ?ret ?ks h'] =>
      assert (∀ acc k, k ∈ ks → ∃ acc', F acc k h' = (Ok acc', h')) as Hstep;
        [|destruct (foldM_returns F h' ks Hstep ret) as [out Hout]]
  end; last first.
  { exists out, h'. split; [exact Hout|]. by split. }
  intros ret k [fc Hfc]%own_keys_elem.
  destruct (Hdone k fc) as (r & Hr & [lm Hlm]); [by apply own_keys_elem|done|].
  destruct (Hall _ _ Hfc) as (r0 & Hr0 & [_ Hwf]). simplify_eq.
  destruct (read_file_inv _ _ _ Hr)
    as (props & vsm & vs & vfn & vf & vb & Ho & _ & _ & _ & _
        & Hfn & Hfns & Hf & Hfc' & _ & _ & Hl).
  destruct (props !! "l"%string) as [vl|] eqn:Hvl; [|congruence].
  destruct Hl as (lm' & Hvlm & Hlm'). 
  rewrite (bind_run _ _ _ _ _ (get_object _ _ _ k Hfiles')). rewrite Hfc. simpl.
  rewrite (bind_run _ _ _ _ _ (get_object _ _ _ "l" Ho)). rewrite Hvl. simpl.
  rewrite (bind_run _ _ _ _ _ (get_object _ _ _ "f" Ho)). rewrite Hf. simpl.
  rewrite (bind_run _ _ _ _ _ (get_object _ _ _ "fnMap" Ho)). rewrite Hfn. simpl.
  rewrite (bind_run _ _ _ _ _ (Object_keys_object _ _ _ (read_counts_inv _ _ _ Hvlm))).
  rewrite (bind_run _ _ _ _ _ (foldM_yui_lines _ _ _ _ _ Hvlm)).
  rewrite (bind_run _ _ _ _ _ (Object_keys_object _ _ _ (read_counts_inv _ _ _ Hfc'))).
  erewrite bind_run; [by eexists|].
  apply foldM_yui_functions; [done..|].
  intros id Hid%own_keys_elem. rewrite lookup_fmap, fmap_is_Some in Hid.
  apply Hwf. by apply elem_of_dom.
Qed.


End Proofs.


(** ** percent: its range *)



(** X2: for counts [0 <= covered <= total] with a total above 0 and up to
    2^35, [percent] returns 100 exactly when [19999 total <= 20000 covered],
    that is when the ratio is within half a hundredth of a percent of 1: a
    100 does not say that everything is covered (19999 of 20000 gives 100).
    It returns 0 exactly when [20000 covered < total]. *)
Theorem percent_100_iff (covered total : Z) :
  0 ≤ covered ≤ total → 0 < total ≤ 2 ^ 35 →
  ((percent covered total == 100)%Q ↔ 19999 * total ≤ 20000 * covered) ∧
  ((percent covered total == 0)%Q ↔ 20000 * covered < total).
Proof.
  intros Hc Ht. rewrite percent_hundredths by done.
  rewrite Qeq_hundredths_100, Qeq_hundredths_0.
  pose proof (Z.div_mod (20000 * covered + total) (2 * total) ltac:(lia)) as Hdm.
  pose proof (Z.mod_pos_bound (20000 * covered + total) (2 * total) ltac:(lia)) as Hm.
  split; split; intros H; try nia.
Qed.

Lemma percent_100_iff_witness :
  ((percent 19999 20000 == 100)%Q ↔ 19999 * 20000 ≤ 20000 * 19999) ∧
  ((percent 19999 20000 == 0)%Q ↔ 20000 * 19999 < 20000).
Proof. apply (percent_100_iff 19999 20000); lia. Defined.

(** ** mergeSummaryObjects adds the counts up *)

Lemma summary_ext (s s' : summary) :
  (∀ key, category_get key s = category_get key s') → s = s'.
Proof.
  intros H. pose proof (H Lines). pose proof (H Statements).
  pose proof (H Functions). pose proof (H Branches).
  destruct s, s'. simpl in *. congruence.
Qed.

Lemma sum_of_cons count key s ss :
  sum_of count key (s :: ss) = count (category_get key s) + sum_of count key ss.
Proof. done. Qed.

(** What the loop over the arguments leaves in a category: the counts added
    one after the other, each sum rounded. *)
Lemma category_get_add_counts key ret args :
  total (category_get key (foldl add_counts ret args))
  = foldl double_add (total (category_get key ret))
      ((λ s, total (category_get key s)) <$> given args) ∧
  covered (category_get key (foldl add_counts ret args))
  = foldl double_add (covered (category_get key ret))
      ((λ s, covered (category_get key s)) <$> given args) ∧
  pct (category_get key (foldl add_counts ret args)) = pct (category_get key ret).
Proof.
  revert ret. induction args as [|[o|] args IH]; intros ret; cbn [foldl].
  - done.
  - destruct (IH (add_counts ret (Some o))) as (Ht & Hc & Hp).
    rewrite Ht, Hc, Hp. change (given (Some o :: args)) with (o :: given args).
    by destruct key, ret, o.
  - apply IH.
Qed.

Lemma sumZ_nonneg (xs : list Z) : Forall (λ x, 0 ≤ x) xs → 0 ≤ sumZ xs.
Proof. induction 1 as [|x xs Hx _ IH]; simpl; lia. Qed.

(** Counts that are not below 0 and add up to an integer up to 2^53 are added
    without rounding. *)
Lemma foldl_double_add_exact (x : Z) (ys : list Z) :
  0 ≤ x → Forall (λ y, 0 ≤ y) ys → x + sumZ ys ≤ 2 ^ 53 →
  foldl double_add x ys = x + sumZ ys.
Proof.
  intros Hx Hys. revert x Hx. induction Hys as [|y ys Hy Hys IH]; intros x Hx Hsum.
  - simpl. lia.
  - pose proof (sumZ_nonneg ys Hys) as Hnn. simpl in Hsum |- *.
    rewrite double_add_exact by lia. rewrite IH by lia. lia.
Qed.

Lemma category_get_merge key args :
  exact_sums (given args) →
  category_get key (mergeSummaryObjects args)
  = Metrics (sum_of total key (given args)) (sum_of covered key (given args))
      (Pct (percent (sum_of covered key (given args)) (sum_of total key (given args)))).
Proof.
  intros Hexact. destruct (Hexact key) as (Hnn & Htot & Hcov).
  rewrite mergeSummaryObjects_unfold.
  destruct (category_get_add_counts key blankSummary args) as (Ht & Hc & _).
  assert (∀ s, category_get key (recompute s)
               = Metrics (total (category_get key s)) (covered (category_get key s))
                   (Pct (percent (covered (category_get key s))
                                 (total (category_get key s))))) as ->.
  { intros s. by destruct key. }
  assert (total (category_get key blankSummary) = 0) as Hb1 by (by destruct key).
  assert (covered (category_get key blankSummary) = 0) as Hb2 by (by destruct key).
  rewrite Ht, Hc, Hb1, Hb2. unfold sum_of in *.
  rewrite !foldl_double_add_exact; try lia.
  - by rewrite !Z.add_0_l.
  - apply Forall_fmap. eapply Forall_impl; [exact Hnn|]. by intros s [_ ?].
  - apply Forall_fmap. eapply Forall_impl; [exact Hnn|]. by intros s [? _].
Qed.

Lemma sum_of_app count key xs ys :
  sum_of count key (xs ++ ys) = sum_of count key xs + sum_of count key ys.
Proof.
  induction xs as [|x xs IH]; [done|].
  change ((x :: xs) ++ ys) with (x :: (xs ++ ys)). rewrite !sum_of_cons, IH. lia.
Qed.

Lemma given_app xs ys : given (xs ++ ys) = given xs ++ given ys.
Proof. apply omap_app. Qed.

Lemma sum_of_nonneg count key ss :
  Forall (λ s, 0 ≤ count (category_get key s)) ss → 0 ≤ sum_of count key ss.
Proof. intros Hall. apply sumZ_nonneg. by apply Forall_fmap. Qed.

Lemma exact_sums_perm ss ss' : ss ≡ₚ ss' → exact_sums ss → exact_sums ss'.
Proof.
  intros Hperm Hexact key. destruct (Hexact key) as (Hnn & Htot & Hcov).
  assert (∀ count, sum_of count key ss = sum_of count key ss') as Heq.
  { intros count. unfold sum_of. apply sumZ_perm. by rewrite Hperm. }
  rewrite <-!Heq. split; [|done]. by rewrite <-Hperm.
Qed.

(** Among summaries whose sums are exact, a part has exact sums, and the
    merge of the part stands for the part. *)
Lemma exact_sums_part xs ys zs :
  exact_sums (xs ++ ys ++ zs) →
  exact_sums ys ∧
  ∀ m, (∀ key, total (category_get key m) = sum_of total key ys ∧
               covered (category_get key m) = sum_of covered key ys) →
       exact_sums (xs ++ m :: zs) ∧
       ∀ count key, (count = total ∨ count = covered) →
         sum_of count key (xs ++ m :: zs) = sum_of count key (xs ++ ys ++ zs).
Proof.
  intros Hexact.
  assert (Hparts : ∀ key,
    Forall (λ s, 0 ≤ total (category_get key s) ∧ 0 ≤ covered (category_get key s)) xs ∧
    Forall (λ s, 0 ≤ total (category_get key s) ∧ 0 ≤ covered (category_get key s)) ys ∧
    Forall (λ s, 0 ≤ total (category_get key s) ∧ 0 ≤ covered (category_get key s)) zs).
  { intros key. destruct (Hexact key) as (Hnn & _).
    apply Forall_app in Hnn as [? Hnn]. by apply Forall_app in Hnn as [? ?]. }
  assert (Hnn : ∀ key ss,
    Forall (λ s, 0 ≤ total (category_get key s) ∧ 0 ≤ covered (category_get key s)) ss →
    0 ≤ sum_of total key ss ∧ 0 ≤ sum_of covered key ss).
  { intros key ss Hall. split; apply sum_of_nonneg;
      (eapply Forall_impl; [exact Hall|]); by intros s []. }
  split.
  - intros key. destruct (Hexact key) as (_ & Htot & Hcov).
    destruct (Hparts key) as (Hx & Hy & Hz).
    destruct (Hnn key xs Hx), (Hnn key ys Hy), (Hnn key zs Hz).
    rewrite !sum_of_app in Htot, Hcov. split; [done|]. lia.
  - intros m Hm.
    assert (Hsum : ∀ count key, (count = total ∨ count = covered) →
              sum_of count key (xs ++ m :: zs) = sum_of count key (xs ++ ys ++ zs)).
    { intros count key Hcount. rewrite !sum_of_app, sum_of_cons.
      destruct (Hm key) as [Ht Hc]. destruct Hcount as [-> | ->]; lia. }
    split; [|done]. intros key. destruct (Hexact key) as (_ & Htot & Hcov).
    destruct (Hparts key) as (Hx & Hy & Hz). destruct (Hnn key ys Hy).
    destruct (Hm key) as [Ht Hc].
    rewrite !Hsum by auto. split; [|done].
    apply Forall_app. split; [done|]. apply Forall_cons. split; [lia|done].
Qed.

(** X3: when the counts of the arguments that are given are not below 0 and
    add up to integers up to 2^53, [total] and [covered] are, in every category
    of the summary [mergeSummaryObjects] returns, the sums of the totals and of
    the covered counts of these arguments (an argument that is not given adds
    nothing), and [pct] is the percentage of these two sums. *)
Theorem mergeSummaryObjects_sums (args : list (option summary)) (key : category) :
  exact_sums (given args) →
  let r := category_get key (mergeSummaryObjects args) in
  total r = sum_of total key (given args) ∧
  covered r = sum_of covered key (given args) ∧
  pct r = Pct (percent (covered r) (total r)).
Proof. intros Hexact r. unfold r. by rewrite category_get_merge. Qed.

Lemma mergeSummaryObjects_sums_witness :
  let r := category_get Statements
             (mergeSummaryObjects [Some sample_summary; None; Some sample_summary]) in
  total r = sum_of total Statements (given [Some sample_summary; None; Some sample_summary]) ∧
  covered r
  = sum_of covered Statements (given [Some sample_summary; None; Some sample_summary]) ∧
  pct r = Pct (percent (covered r) (total r)).
Proof.
  apply (mergeSummaryObjects_sums [Some sample_summary; None; Some sample_summary]).
  intros []; (split; [repeat constructor; simpl; lia|vm_compute; split; discriminate]).
Defined.

(** X4: when the counts of the arguments that are given are not below 0 and
    add up to integers up to 2^53, the summary [mergeSummaryObjects] returns
    does not depend on the order of its arguments, and a merge given as an
    argument counts as the arguments it was made of: on such arguments merging
    is commutative and associative. *)
Theorem mergeSummaryObjects_order_grouping
    (args args' before inner after : list (option summary)) :
  args ≡ₚ args' →
  exact_sums (given args) →
  exact_sums (given (before ++ inner ++ after)) →
  mergeSummaryObjects args = mergeSummaryObjects args' ∧
  mergeSummaryObjects (before ++ Some (mergeSummaryObjects inner) :: after)
  = mergeSummaryObjects (before ++ inner ++ after).
Proof.
  intros Hperm Hexact Hwhole. split; apply summary_ext; intros key.
  - assert (Hgiven : given args ≡ₚ given args').
    { unfold given. by rewrite Hperm. }
    rewrite !category_get_merge by (by eauto using exact_sums_perm).
    assert (∀ count, sum_of count key (given args) = sum_of count key (given args')) as Heq.
    { intros count. unfold sum_of. apply sumZ_perm. by rewrite Hgiven. }
    by rewrite !Heq.
  - rewrite !given_app in Hwhole.
    destruct (exact_sums_part _ _ _ Hwhole) as [Hinner Hpart].
    destruct (Hpart (mergeSummaryObjects inner)) as [Hleft Hsum].
    { intros key'. by rewrite category_get_merge. }
    rewrite !category_get_merge.
    + rewrite !given_app.
      change (given (Some (mergeSummaryObjects inner) :: after))
        with (mergeSummaryObjects inner :: given after).
      by rewrite !Hsum by auto.
    + by rewrite !given_app.
    + rewrite given_app.
      by change (given (Some (mergeSummaryObjects inner) :: after))
        with (mergeSummaryObjects inner :: given after).
Qed.

Lemma mergeSummaryObjects_order_grouping_witness :
  mergeSummaryObjects [Some sample_summary; None; Some blankSummary]
  = mergeSummaryObjects [None; Some blankSummary; Some sample_summary] ∧
  mergeSummaryObjects
    ([Some sample_summary] ++ Some (mergeSummaryObjects [Some sample_summary; None]) :: [])
  = mergeSummaryObjects ([Some sample_summary] ++ [Some sample_summary; None] ++ []).
Proof.
  apply (mergeSummaryObjects_order_grouping
           [Some sample_summary; None; Some blankSummary]
           [None; Some blankSummary; Some sample_summary]).
  - by rewrite (Permutation_cons_append _ (Some sample_summary)).
  - intros []; (split; [repeat constructor; simpl; lia|vm_compute; split; discriminate]).
  - intros []; (split; [repeat constructor; simpl; lia|vm_compute; split; discriminate]).
Defined.

(** ** Totals and summaries of a record *)

Lemma simple_totals_bounds (m : gmap string Z) :
  0 ≤ covered (simple_totals m) ≤ total (simple_totals m).
Proof.
  simpl. split; [lia|]. apply inj_le, map_subseteq_size, map_filter_subseteq.
Qed.

Lemma sumZ_fmap_le {A} (f g : A → Z) (xs : list A) :
  (∀ x, 0 ≤ f x ≤ g x) → 0 ≤ sumZ (f <$> xs) ≤ sumZ (g <$> xs).
Proof.
  intros Hfg. induction xs as [|x xs IH]; [done|].
  change (0 ≤ f x + sumZ (f <$> xs) ≤ g x + sumZ (g <$> xs)).
  specialize (Hfg x). lia.
Qed.

Lemma branch_totals_bounds (b : gmap string (list Z)) :
  0 ≤ covered (branch_totals b) ≤ total (branch_totals b).
Proof.
  apply sumZ_fmap_le. intros [k arms]. simpl.
  pose proof (length_filter (λ c, 0 < c) arms). lia.
Qed.

Lemma pct_simple_totals (m : gmap string Z) :
  ∃ q, pct (simple_totals m) = Pct q ∧ (0 <= q)%Q ∧ (q <= 100)%Q.
Proof. eexists. split; [done|]. apply percent_bounds, simple_totals_bounds. Qed.

Lemma pct_branch_totals (b : gmap string (list Z)) :
  ∃ q, pct (branch_totals b) = Pct q ∧ (0 <= q)%Q ∧ (q <= 100)%Q.
Proof. eexists. split; [done|]. apply percent_bounds, branch_totals_bounds. Qed.

Section Proofs.
Context `{!KeyOrder}.

(** [addDerivedInfoForFile] on a record that has line coverage. *)
Lemma addDerivedInfoForFile_guard h fc r lm :
  read_file h fc = Some r → FileCoverage.l r = Some lm →
  addDerivedInfoForFile fc h = (Ok tt, h).
Proof.
  intros Hr Hl.
  destruct (read_file_inv _ _ _ Hr)
    as (props & vsm & vs & vfn & vf & vb & Ho & _ & _ & _ & _ & _ & _ & _ & _ & _ & _ & Hlp).
  destruct (props !! "l"%string) as [vl|] eqn:Hvl; [|congruence].
  destruct Hlp as (lm' & Hlm & _).
  apply read_counts_inv, read_object_ref in Hlm as (q & -> & _).
  unfold addDerivedInfoForFile.
  do 3 (erewrite bind_run by (by eapply get_object)).
  by rewrite Hvl.
Qed.

(** The summary of a record with line coverage [lm]. *)
Lemma summarizeFileCoverage_derived h fc r lm :
  read_file h fc = Some r → FileCoverage.l r = Some lm →
  summarizeFileCoverage fc h
  = (Ok {| lines := simple_totals lm;
           statements := simple_totals (FileCoverage.s r);
           functions := simple_totals (FileCoverage.f r);
           branches := branch_totals (FileCoverage.b r) |}, h).
Proof.
  intros Hr Hl.
  destruct (read_file_inv _ _ _ Hr)
    as (props & vsm & vs & vfn & vf & vb & Ho & _ & _ & Hs & Hcounts
        & _ & _ & Hf & Hfc & Hb & Hbc & Hlp).
  destruct (props !! "l"%string) as [vl|] eqn:Hvl; [|congruence].
  destruct Hlp as (lm' & Hlm & Hl'). assert (lm' = lm) as -> by congruence.
  unfold summarizeFileCoverage.
  erewrite bind_run by (by eapply addDerivedInfoForFile_guard).
  erewrite bind_run by (by eapply computeSimpleTotals_counts).
  erewrite bind_run by (by eapply computeSimpleTotals_counts).
  erewrite bind_run by (by eapply computeSimpleTotals_counts).
  erewrite bind_run by (by eapply computeBranchTotals_branches).
  done.
Qed.

(** X5: on a file coverage record, [computeSimpleTotals] for [s], for [f]
    and for an [l] that is there returns, without a change to the store, as
    total the number of entries and as covered the number of entries whose
    count is not 0 (a count below 0 counts as covered), so that
    [0 <= covered <= total]; for [l] on a record that has none it throws a
    TypeError. *)
Theorem computeSimpleTotals_counts_entries (h : heap) (fileCoverage : val)
    (r : FileCoverage.t) :
  read_file h fileCoverage = Some r →
  computeSimpleTotals fileCoverage "s" h = (Ok (simple_totals (FileCoverage.s r)), h) ∧
  computeSimpleTotals fileCoverage "f" h = (Ok (simple_totals (FileCoverage.f r)), h) ∧
  match FileCoverage.l r with
  | Some lm => computeSimpleTotals fileCoverage "l" h = (Ok (simple_totals lm), h)
  | None => computeSimpleTotals fileCoverage "l" h = (Err TypeError, h)
  end ∧
  ∀ m : gmap string Z,
    total (simple_totals m) = Z.of_nat (size m) ∧
    covered (simple_totals m) = Z.of_nat (size (filter (λ kv, kv.2 ≠ 0) m)) ∧
    0 ≤ covered (simple_totals m) ≤ total (simple_totals m).
Proof.
  intros Hr.
  destruct (read_file_inv _ _ _ Hr)
    as (props & vsm & vs & vfn & vf & vb & Ho & _ & _ & Hs & Hcounts
        & _ & _ & Hf & Hfc & _ & _ & Hlp).
  split; [by eapply computeSimpleTotals_counts|].
  split; [by eapply computeSimpleTotals_counts|].
  split.
  - destruct (props !! "l"%string) as [vl|] eqn:Hvl.
    + destruct Hlp as (lm & Hlm & ->). by eapply computeSimpleTotals_counts.
    + rewrite Hlp. unfold computeSimpleTotals.
      erewrite bind_run by (by eapply get_object). by rewrite Hvl.
  - intros m. split; [done|]. split; [done|]. apply simple_totals_bounds.
Qed.

(** X6: on a record that has line coverage [l], [summarizeFileCoverage]
    changes nothing in the store and computes the metrics of the lines from
    the [l] it finds: [l] is not derived again from [s]. *)
Theorem summarizeFileCoverage_keeps_l (h : heap) (fileCoverage : val)
    (r : FileCoverage.t) (lm : gmap string Z) :
  read_file h fileCoverage = Some r →
  FileCoverage.l r = Some lm →
  summarizeFileCoverage fileCoverage h
  = (Ok {| lines := simple_totals lm;
           statements := simple_totals (FileCoverage.s r);
           functions := simple_totals (FileCoverage.f r);
           branches := branch_totals (FileCoverage.b r) |}, h).
Proof. apply summarizeFileCoverage_derived. Qed.

(** X7: on a record whose statements are all in the statement map,
    [summarizeFileCoverage] returns a summary whose statements, functions and
    branches are the totals of [s], [f] and [b]; in every category
    [0 <= covered <= total], and [pct] is the percentage of the two, between
    0 and 100.  So [mergeSummaryObjects] of this summary alone, or of the
    blank summary and this summary, gives it back unchanged. *)
Theorem summarizeFileCoverage_summary (h : heap) (fileCoverage : val)
    (r : FileCoverage.t) :
  read_file h fileCoverage = Some r →
  dom (FileCoverage.s r) ⊆ dom (FileCoverage.statementMap r) →
  ∃ sm h',
    summarizeFileCoverage fileCoverage h = (Ok sm, h') ∧
    statements sm = simple_totals (FileCoverage.s r) ∧
    functions sm = simple_totals (FileCoverage.f r) ∧
    branches sm = branch_totals (FileCoverage.b r) ∧
    (∀ key, 0 ≤ covered (category_get key sm) ≤ total (category_get key sm) ∧
            ∃ q, pct (category_get key sm) = Pct q ∧ (0 <= q)%Q ∧ (q <= 100)%Q) ∧
    consistent sm ∧
    mergeSummaryObjects [Some sm] = sm ∧
    mergeSummaryObjects [Some blankSummary; Some sm] = sm.
Proof.
  intros Hr Hdom.
  destruct (addDerivedInfoForFile_returns _ _ _ Hr Hdom)
    as (h' & Hrun & (r' & Hr' & Hder) & _).
  destruct Hder as (_ & Hs & _ & Hf & Hb & [lm Hlm] & _).
  pose proof (summarizeFileCoverage_derived _ _ _ _ Hr' Hlm) as Hsum.
  rewrite Hs, Hf, Hb in Hsum.
  eexists _, h'. split.
  { unfold summarizeFileCoverage in *. rewrite (bind_run _ _ _ _ _ Hrun).
    erewrite bind_run in Hsum by (by eapply addDerivedInfoForFile_guard). exact Hsum. }
  split; [done|]. split; [done|]. split; [done|].
  assert (Hc : consistent
            {| lines := simple_totals lm;
               statements := simple_totals (FileCoverage.s r);
               functions := simple_totals (FileCoverage.f r);
               branches := branch_totals (FileCoverage.b r) |}) by (by intros []).
  split; [|split; [done|split]].
  - intros []; simpl category_get;
      (split; [first [apply simple_totals_bounds|apply branch_totals_bounds]
              |first [apply pct_simple_totals|apply pct_branch_totals]]).
  - etrans; [apply (mergeSummaryObjects_one _ [] []); done|].
    by apply recompute_consistent.
  - etrans; [apply (mergeSummaryObjects_one _ [Some blankSummary] []); [|done]|].
    + apply Forall_cons_2; [|done]. by intros [].
    + by apply recompute_consistent.
Qed.

End Proofs.

Lemma computeSimpleTotals_counts_entries_witness :
  computeSimpleTotals (VRef 1) "s" sample_store
  = (Ok (simple_totals (FileCoverage.s sample_file)), sample_store) ∧
  computeSimpleTotals (VRef 1) "f" sample_store
  = (Ok (simple_totals (FileCoverage.f sample_file)), sample_store) ∧
  match FileCoverage.l sample_file with
  | Some lm => computeSimpleTotals (VRef 1) "l" sample_store
               = (Ok (simple_totals lm), sample_store)
  | None => computeSimpleTotals (VRef 1) "l" sample_store = (Err TypeError, sample_store)
  end ∧
  ∀ m : gmap string Z,
    total (simple_totals m) = Z.of_nat (size m) ∧
    covered (simple_totals m) = Z.of_nat (size (filter (λ kv, kv.2 ≠ 0) m)) ∧
    0 ≤ covered (simple_totals m) ≤ total (simple_totals m).
Proof.
  apply (computeSimpleTotals_counts_entries sample_store (VRef 1) sample_file).
  vm_compute; reflexivity.
Defined.

Lemma summarizeFileCoverage_keeps_l_witness :
  summarizeFileCoverage (VRef 1) sample_store_derived
  = (Ok {| lines := simple_totals (list_to_map [("1", 1); ("2", 4)]%string);
           statements := simple_totals (FileCoverage.s sample_file_derived);
           functions := simple_totals (FileCoverage.f sample_file_derived);
           branches := branch_totals (FileCoverage.b sample_file_derived) |},
     sample_store_derived).
Proof.
  apply (summarizeFileCoverage_keeps_l sample_store_derived (VRef 1) sample_file_derived).
  - vm_compute; reflexivity.
  - reflexivity.
Defined.

Lemma summarizeFileCoverage_summary_witness :
  ∃ sm h',
    summarizeFileCoverage (VRef 1) sample_store = (Ok sm, h') ∧
    statements sm = simple_totals (FileCoverage.s sample_file) ∧
    functions sm = simple_totals (FileCoverage.f sample_file) ∧
    branches sm = branch_totals (FileCoverage.b sample_file) ∧
    (∀ key, 0 ≤ covered (category_get key sm) ≤ total (category_get key sm) ∧
            ∃ q, pct (category_get key sm) = Pct q ∧ (0 <= q)%Q ∧ (q <= 100)%Q) ∧
    consistent sm ∧
    mergeSummaryObjects [Some sm] = sm ∧
    mergeSummaryObjects [Some blankSummary; Some sm] = sm.
Proof.
  apply (summarizeFileCoverage_summary sample_store (VRef 1) sample_file).
  - vm_compute; reflexivity.
  - vm_compute. set_solver.
Defined.

(** ** removeDerivedInfo *)

Lemma same_but_l_delete h p props :
  h !! p = Some (Obj props) →
  same_but_l p h (<[p := Obj (delete "l"%string props)]> h).
Proof.
  intros Hp x o Hx. case_decide as Heq.
  - subst x. exists props, (delete "l"%string props). simplify_eq.
    rewrite lookup_insert_eq. split; [done|]. split; [done|].
    intros k Hk. by rewrite lookup_delete_ne.
  - by rewrite lookup_insert_ne.
Qed.

(** The file object [p] after [delete p.l]. *)
Lemma read_file_deleted h p props r :
  read_file h (VRef p) = Some r → h !! p = Some (Obj props) →
  read_file (<[p := Obj (delete "l"%string props)]> h) (VRef p) = Some (with_l r None).
Proof.
  intros Hr Hp.
  destruct (read_file_inv _ _ _ Hr)
    as (props' & vsm & vs & vfn & vf & vb & Ho & Hsm & Hlines & Hs & Hcounts
        & Hfn & Hfns & Hf & Hfc & Hb & Hbc & _).
  unfold read_object in Ho. rewrite Hp in Ho. simplify_eq.
  set (h' := <[p := _]> _).
  assert (Hframe : same_but_l p h h') by (by apply same_but_l_delete).
  eapply (read_file_intro h' _ (delete "l"%string props')).
  - unfold read_object, h'. by rewrite lookup_insert_eq.
  - by rewrite lookup_delete_ne.
  - eapply read_statementMap_frame; [done| |done].
    by eapply file_object_not_statementMap.
  - by rewrite lookup_delete_ne.
  - eapply read_counts_frame; [done| |done]. by eapply file_object_not_counts.
  - by rewrite lookup_delete_ne.
  - eapply read_fnMap_frame; [done| |done]. by eapply file_object_not_fnMap.
  - by rewrite lookup_delete_ne.
  - eapply read_counts_frame; [done| |done]. by eapply file_object_not_counts.
  - by rewrite lookup_delete_ne.
  - eapply read_branches_frame; [done| |done]. by eapply file_object_not_branches.
  - by rewrite lookup_delete_eq.
Qed.

Lemma coverage_object_not_file h coverage files fc path :
  coverage_object h coverage files → files !! path = Some fc → coverage ≠ fc.
Proof.
  intros [Hfiles Hall] Hfc <-. destruct (Hall _ _ Hfc) as (r & Hr).
  destruct (read_file_inv _ _ _ Hr)
    as (props & vsm & vs & vfn & vf & vb & Ho & Hsm & Hlines & Hs & Hcounts & _).
  rewrite Hfiles in Ho. injection Ho as <-.
  destruct (Hall _ _ Hs) as (rs & Hrs). by eapply read_file_not_counts.
Qed.

(** [delete fileCoverage.l] on a record. *)
Lemma delete_l_record h fc r :
  read_file h fc = Some r →
  ∃ h',
    delete_prop fc "l" h = (Ok tt, h') ∧
    read_file h' fc = Some (with_l r None) ∧
    dom h' = dom h ∧
    (∀ v r0, v ≠ fc → read_file h v = Some r0 → read_file h' v = Some r0) ∧
    (∀ v props, v ≠ fc → read_object h v = Some props → read_object h' v = Some props).
Proof.
  intros Hr.
  destruct (read_file_inv _ _ _ Hr)
    as (props & vsm & vs & vfn & vf & vb & Ho & _ & _ & Hs & Hcounts & _).
  apply read_object_ref in Ho as (p & -> & Hp).
  exists (<[p := Obj (delete "l"%string props)]> h).
  pose proof (same_but_l_delete _ _ _ Hp) as Hframe.
  split; [by apply delete_prop_object|]. split; [by apply read_file_deleted|].
  split; [|split].
  - apply dom_insert_lookup_L. by eexists.
  - intros v r0 Hv Hr0. by eapply read_file_same_but_l.
  - intros v props0 Hv Hv0. by eapply read_object_frame.
Qed.

Section Proofs.
Context `{!KeyOrder}.

(** The loop of [removeDerivedInfo]. *)
Lemma removeDerivedInfo_loop coverage files ks :
  (∀ k, k ∈ ks → is_Some (files !! k)) →
  ∀ h, coverage_object h coverage files →
  ∃ h',
    forEach ks (λ k, fileCoverage ← get coverage k; delete_prop fileCoverage "l") h
    = (Ok tt, h') ∧
    coverage_object h' coverage files ∧
    dom h' = dom h ∧
    (∀ v r, read_file h v = Some r →
       ∃ r', read_file h' v = Some r' ∧ (r' = with_l r None ∨ r' = r)) ∧
    (∀ k fc, k ∈ ks → files !! k = Some fc →
       ∃ r', read_file h' fc = Some r' ∧ FileCoverage.l r' = None).
Proof.
  induction ks as [|k ks IH]; intros Hks h Hcov.
  { exists h. split; [done|]. split; [done|]. split; [done|]. split; [by eauto|].
    by intros ?? ?%elem_of_nil. }
  destruct (Hks k) as [fc Hfc]; [left|].
  pose proof Hcov as [Hfiles Hall]. destruct (Hall _ _ Hfc) as (r & Hr).
  destruct (delete_l_record _ _ _ Hr) as (h1 & Hrun & Hr1 & Hdom1 & Hother & Hobj).
  assert (Hcov1 : coverage_object h1 coverage files).
  { split.
    - apply Hobj; [|done]. by eapply coverage_object_not_file.
    - intros path fc' Hfc'. destruct (Hall _ _ Hfc') as (r' & Hr').
      destruct (decide (fc' = fc)) as [->|Hne]; [by eexists|].
      exists r'. by apply Hother. }
  destruct (IH (λ k' Hk', Hks k' (list_elem_of_further _ _ _ Hk')) h1 Hcov1)
    as (h' & Hloop & Hcov' & Hdom' & Hreads & Hdone).
  exists h'. split; [|split; [done|split; [congruence|split]]].
  - cbn [forEach]. erewrite bind_run; [exact Hloop|].
    rewrite (bind_run _ _ _ _ _ (get_object _ _ _ k Hfiles)). by rewrite Hfc.
  - intros v r0 Hr0. destruct (decide (v = fc)) as [->|Hne].
    + simplify_eq. destruct (Hreads _ _ Hr1) as (r' & Hr' & Hrel).
      exists r'. split; [done|]. left. by destruct Hrel as [->| ->].
    + apply Hreads. by apply Hother.
  - intros k' fc' [->|Hk']%elem_of_cons Hfc'; [|by eapply Hdone].
    simplify_eq. destruct (Hreads _ _ Hr1) as (r' & Hr' & Hrel).
    exists r'. split; [done|]. by destruct Hrel as [->| ->].
Qed.

Lemma removeDerivedInfo_run (h : heap) (coverage : val)
    (files : gmap string val) :
  coverage_object h coverage files →
  ∃ h',
    removeDerivedInfo coverage h = (Ok tt, h') ∧
    dom h' = dom h ∧
    read_object h' coverage = Some files ∧
    ∀ path fileCoverage r,
      files !! path = Some fileCoverage →
      read_file h fileCoverage = Some r →
      read_file h' fileCoverage = Some (with_l r None).
Proof.
  intros Hcov. pose proof Hcov as [Hfiles _].
  destruct (removeDerivedInfo_loop coverage files (own_keys files)) with (h := h)
    as (h' & Hloop & [Hfiles' _] & Hdom & Hreads & Hdone); [|done|].
  { intros k. by rewrite own_keys_elem. }
  exists h'. split; [|split; [done|split; [done|]]].
  - unfold removeDerivedInfo.
    by rewrite (bind_run _ _ _ _ _ (Object_keys_object _ _ _ Hfiles)).
  - intros path fc r Hfc Hr.
    destruct (Hreads _ _ Hr) as (r' & Hr' & Hrel).
    destruct (Hdone path fc) as (r'' & Hr'' & Hl); [|done|].
    { apply own_keys_elem. by eexists. }
    rewrite Hr' in Hr''. injection Hr'' as <-.
    destruct Hrel as [->| ->]; [done|].
    rewrite Hr'. f_equal. destruct r. simpl in *. by subst.
Qed.

(** X8: on a coverage object whose properties are all file coverage
    records, [removeDerivedInfo] returns and leaves every file without [l] and
    otherwise as it was, whether it had an [l] or not; it creates no object,
    and the coverage object has the files it had. *)
Theorem removeDerivedInfo_removes_l (h : heap) (coverage : val)
    (files : gmap string val) :
  coverage_object h coverage files →
  ∃ h',
    removeDerivedInfo coverage h = (Ok tt, h') ∧
    dom h' = dom h ∧
    read_object h' coverage = Some files ∧
    ∀ path fileCoverage r,
      files !! path = Some fileCoverage →
      read_file h fileCoverage = Some r →
      read_file h' fileCoverage = Some (with_l r None).
Proof. apply removeDerivedInfo_run. Qed.

End Proofs.

Lemma removeDerivedInfo_removes_l_witness :
  ∃ h',
    removeDerivedInfo (VRef 40) sample_store_derived = (Ok tt, h') ∧
    dom h' = dom sample_store_derived ∧
    read_object h' (VRef 40) = Some {[ "a.js"%string := VRef 1 ]} ∧
    ∀ path fileCoverage r,
      ({[ "a.js"%string := VRef 1 ]} : gmap string val) !! path = Some fileCoverage →
      read_file sample_store_derived fileCoverage = Some r →
      read_file h' fileCoverage = Some (with_l r None).
Proof.
  apply (removeDerivedInfo_removes_l sample_store_derived (VRef 40)).
  split; [vm_compute; reflexivity|].
  intros path fc [<- <-]%lookup_singleton_Some. exists sample_file_derived.
  vm_compute; reflexivity.
Defined.

(** ** addDerivedInfo, file by file *)

Lemma derived_again r r' r'' : derived r r' → derived r' r'' → r'' = r'.
Proof. intros (lm & -> & _) (lm' & -> & Hlm'). simpl in Hlm'. by subst. Qed.

Lemma derived_well_formed r r' : derived r r' → well_formed r → well_formed r'.
Proof. by intros (lm & -> & _) [? ?]. Qed.

Lemma with_l_same r : with_l r (FileCoverage.l r) = r.
Proof. by destruct r. Qed.

Section Proofs.
Context `{!KeyOrder}.

Lemma lines_of_line_coverage (r : FileCoverage.t) lm :
  lines_of (FileCoverage.statementMap r) (FileCoverage.s r)
    (own_keys (VNum <$> FileCoverage.s r)) lm →
  line_coverage r lm.
Proof.
  assert (Hkeys : ∀ st, st ∈ own_keys (VNum <$> FileCoverage.s r)
                        ↔ st ∈ dom (FileCoverage.s r)).
  { intros st. by rewrite own_keys_elem, lookup_fmap, fmap_is_Some, elem_of_dom. }
  intros [Hdom Hmax]. split.
  - intros key. rewrite Hdom. by setoid_rewrite Hkeys.
  - intros line c Hc. destruct (Hmax _ _ Hc) as [(st0 & _ & ? & ?) Hle].
    split; [by exists st0|]. intros st c' Hst Hc'. eapply Hle; [|done..].
    apply Hkeys, elem_of_dom. by eexists.
Qed.

(** One call of [addDerivedInfoForFile] on a record whose statements are all
    in the statement map. *)
Lemma addDerivedInfoForFile_lines h fc r :
  read_file h fc = Some r →
  dom (FileCoverage.s r) ⊆ dom (FileCoverage.statementMap r) →
  ∃ h' r',
    addDerivedInfoForFile fc h = (Ok tt, h') ∧
    read_file h' fc = Some r' ∧ derived r r' ∧
    (∀ v r0, v ≠ fc → read_file h v = Some r0 → read_file h' v = Some r0) ∧
    (∀ v props, v ≠ fc → read_object h v = Some props → read_object h' v = Some props).
Proof.
  intros Hr Hdom. destruct (FileCoverage.l r) as [lm|] eqn:Hlr.
  - exists h, r. split; [by eapply addDerivedInfoForFile_guard|]. split; [done|].
    split; [|done]. exists lm. rewrite Hlr. split; [|done].
    by rewrite <-Hlr, with_l_same.
  - destruct (read_file_inv _ _ _ Hr)
      as (props & vsm & vs & vfn & vf & vb & Ho & Hsm & Hlines & Hs & Hcounts
          & Hfn & Hfns & Hf & Hfc & Hb & Hbc & Hl).
    assert (Hvl : props !! "l"%string = None).
    { destruct (props !! "l"%string); [|done]. destruct Hl as (? & _ & ?). congruence. }
    destruct (addDerivedInfoForFile_derives _ _ _ _ _ _ _ Ho Hvl Hsm Hlines Hs Hcounts Hdom)
      as (p & lm & -> & Hrun & Hlm).
    apply read_object_ref in Ho as (p' & [= <-] & Hp).
    set (q := fresh (dom h)) in *.
    assert (Hq : h !! q = None) by (apply not_elem_of_dom, is_fresh).
    set (h' := <[q := _]> _) in *.
    assert (Hframe : same_but_l p h h').
    { apply same_but_l_alloc; [|done]. by apply same_but_l_set. }
    exists h', (with_l r (Some lm)). split; [done|]. split; [by apply read_file_derived|].
    split; [|split].
    + exists lm. rewrite Hlr. split; [done|]. by apply lines_of_line_coverage.
    + intros v r0 Hv Hr0. by eapply read_file_same_but_l.
    + intros v props0 Hv Hv0. by eapply read_object_frame.
Qed.

(** The loop of [addDerivedInfo], with what it leaves in every file. *)
Lemma addDerivedInfo_lines_loop coverage files ks :
  (∀ k, k ∈ ks → is_Some (files !! k)) →
  ∀ h, coverage_of h coverage files →
  ∃ h',
    forEach ks (λ k, fileCoverage ← get coverage k; addDerivedInfoForFile fileCoverage) h
    = (Ok tt, h') ∧
    coverage_of h' coverage files ∧
    (∀ v r, read_file h v = Some r →
       ∃ r', read_file h' v = Some r' ∧ (derived r r' ∨ r' = r)) ∧
    (∀ k fc r, k ∈ ks → files !! k = Some fc → read_file h fc = Some r →
       ∃ r', read_file h' fc = Some r' ∧ derived r r').
Proof.
  induction ks as [|k ks IH]; intros Hks h Hcov.
  { exists h. split; [done|]. split; [done|]. split; [by eauto|].
    by intros ??? ?%elem_of_nil. }
  destruct (Hks k) as [fc Hfc]; [left|].
  pose proof Hcov as [Hfiles Hall]. destruct (Hall _ _ Hfc) as (r & Hr & Hwf).
  destruct (addDerivedInfoForFile_lines _ _ _ Hr (proj1 Hwf))
    as (h1 & r1 & Hrun & Hr1 & Hder & Hother & Hobj).
  assert (Hcov1 : coverage_of h1 coverage files).
  { split.
    - apply Hobj; [|done]. by eapply coverage_of_not_file.
    - intros path fc' Hfc'. destruct (Hall _ _ Hfc') as (r' & Hr' & Hwf').
      destruct (decide (fc' = fc)) as [->|Hne].
      + simplify_eq. exists r1. split; [done|]. by eapply derived_well_formed.
      + exists r'. split; [by apply Hother|done]. }
  destruct (IH (λ k' Hk', Hks k' (list_elem_of_further _ _ _ Hk')) h1 Hcov1)
    as (h' & Hloop & Hcov' & Hreads & Hdone).
  assert (Hfc' : ∃ r', read_file h' fc = Some r' ∧ derived r r').
  { destruct (Hreads _ _ Hr1) as (r' & Hr' & Hrel). exists r'. split; [done|].
    destruct Hrel as [Hrel| ->]; [|done].
    by rewrite (derived_again _ _ _ Hder Hrel). }
  exists h'. split; [|split; [done|split]].
  - cbn [forEach]. erewrite bind_run; [exact Hloop|].
    rewrite (bind_run _ _ _ _ _ (get_object _ _ _ k Hfiles)). by rewrite Hfc.
  - intros v r0 Hr0. destruct (decide (v = fc)) as [->|Hne].
    + simplify_eq. destruct Hfc' as (r' & ? & ?). exists r'. auto.
    + apply Hreads. by apply Hother.
  - intros k' fc' r0 [->|Hk']%elem_of_cons Hk Hr0.
    + by simplify_eq.
    + destruct (decide (fc' = fc)) as [->|Hne]; [by simplify_eq|].
      eapply Hdone; [done..|]. by apply Hother.
Qed.

Lemma addDerivedInfo_lines h coverage files :
  coverage_of h coverage files →
  ∃ h',
    addDerivedInfo coverage h = (Ok tt, h') ∧
    coverage_of h' coverage files ∧
    ∀ path fc r, files !! path = Some fc → read_file h fc = Some r →
      ∃ r', read_file h' fc = Some r' ∧ derived r r'.
Proof.
  intros Hcov. pose proof Hcov as [Hfiles _].
  destruct (addDerivedInfo_lines_loop coverage files (own_keys files)) with (h := h)
    as (h' & Hloop & Hcov' & _ & Hdone); [|done|].
  { intros k. by rewrite own_keys_elem. }
  exists h'. split; [|split; [done|]].
  - unfold addDerivedInfo.
    by rewrite (bind_run _ _ _ _ _ (Object_keys_object _ _ _ Hfiles)).
  - intros path fc r Hfc Hr. eapply Hdone; [|done..].
    apply own_keys_elem. by eexists.
Qed.



End Proofs.



(** ** A statement with no entry in the statement map *)

Section Proofs.
Context `{!KeyOrder}.

(** The loop of [addDerivedInfoForFile] stops at the first statement that is
    not in the statement map, with the lines it has got so far. *)
Lemma line_loop_fails (h : heap) (q : loc) statementMap statements lines s ks :
  h !! q = None →
  read_statementMap h statementMap = Some lines →
  read_counts h statements = Some s →
  (∀ st, st ∈ ks → st ∈ dom s) →
  (∃ st, st ∈ ks ∧ st ∉ dom lines) →
  ∀ acc, ∃ acc',
  forEach ks (λ st,
      entry ← get statementMap st;
      start ← get entry "start";
      line ← get start "line";
      count ← get statements st;
      key ← lift (ToString line);
      prevVal ← get (VRef q) key;
      smaller ← (if decide (prevVal = VUndef) then mret true
                 else js_lt prevVal count);
      if smaller : bool then set (VRef q) key count else mret tt)
    (<[q := Obj (VNum <$> acc)]> h)
  = (Err TypeError, <[q := Obj (VNum <$> acc')]> h).
Proof.
  intros Hq Hsm Hs. induction ks as [|st ks IH]; intros Hks Hbad acc.
  { destruct Hbad as (st & Hst%elem_of_nil & _). done. }
  destruct (decide (st ∈ dom lines)) as [Hin|Hnin].
  - assert (Hbad' : ∃ st', st' ∈ ks ∧ st' ∉ dom lines).
    { destruct Hbad as (st' & [->|Hst']%elem_of_cons & Hmiss); [done|by exists st']. }
    destruct (IH (λ st' Hst', Hks st' (list_elem_of_further _ _ _ Hst')) Hbad'
                 (line_step lines s acc st)) as [acc' Hrest].
    exists acc'.
    pose proof (line_loop h q statementMap statements lines s [st] acc Hq Hsm Hs) as Hone.
    cbn [forEach foldl] in Hone.
    apply bind_inv in Hone as ([] & h1 & Hstep & Hret).
    2:{ intros st' ->%list_elem_of_singleton. split; [|done]. apply Hks. left. }
    injection Hret as Hh1. subst h1.
    cbn [forEach]. by rewrite (bind_run _ _ _ _ _ Hstep).
  - exists acc. cbn [forEach]. apply bind_fail.
    destruct (read_statementMap_inv _ _ _ Hsm) as (smprops & Hsmo & Hdom & _).
    erewrite bind_run by (by eapply get_object, read_object_alloc).
    assert (smprops !! st = None) as ->.
    { apply not_elem_of_dom. by rewrite Hdom. }
    done.
Qed.

(** X12: on a record with no [l] that has a statement in [s] with no entry
    in the statement map, [addDerivedInfoForFile] throws a TypeError, and it
    does so after it has given the file an [l]: the file is left with the line
    coverage of the statements met before the failure, and a later call
    returns without deriving the rest. *)
Theorem addDerivedInfoForFile_fails_partial (h : heap) (fileCoverage : val)
    (r : FileCoverage.t) (st : string) :
  read_file h fileCoverage = Some r →
  FileCoverage.l r = None →
  st ∈ dom (FileCoverage.s r) →
  st ∉ dom (FileCoverage.statementMap r) →
  ∃ h' lm,
    addDerivedInfoForFile fileCoverage h = (Err TypeError, h') ∧
    read_file h' fileCoverage = Some (with_l r (Some lm)) ∧
    addDerivedInfoForFile fileCoverage h' = (Ok tt, h').
Proof.
  intros Hr Hlr Hst Hmiss.
  destruct (read_file_inv _ _ _ Hr)
    as (props & vsm & vs & vfn & vf & vb & Ho & Hsm & Hlines & Hs & Hcounts
        & Hfn & Hfns & Hf & Hfc & Hb & Hbc & Hl).
  assert (Hvl : props !! "l"%string = None).
  { destruct (props !! "l"%string); [|done]. destruct Hl as (? & _ & ?). congruence. }
  pose proof Ho as Ho'. apply read_object_ref in Ho' as (p & -> & Hp).
  set (q := fresh (dom h)).
  assert (Hq : h !! q = None) by (apply not_elem_of_dom, is_fresh).
  assert (Hpq : p ≠ q) by congruence.
  set (h1 := <[p := Obj (<["l"%string := VRef q]> props)]> h).
  assert (Hframe : same_but_l p h h1) by (by apply same_but_l_set).
  assert (Hq1 : h1 !! q = None) by (unfold h1; by rewrite lookup_insert_ne).
  pose proof (read_counts_frame _ _ _ Hframe _ _
                (file_object_not_counts _ _ _ _ _ Hp Hs Hcounts _ _ Hcounts) Hcounts) as Hcounts1.
  pose proof (read_statementMap_frame _ _ _ Hframe _ _
                (file_object_not_statementMap _ _ _ _ _ Hp Hs Hcounts _ _ Hlines) Hlines) as Hlines1.
  destruct (line_loop_fails h1 q vsm vs _ _ (own_keys (VNum <$> FileCoverage.s r))
              Hq1 Hlines1 Hcounts1) with (acc := (∅ : gmap string Z)) as [lm Hloop].
  { intros st' Hst'%own_keys_elem. rewrite lookup_fmap, fmap_is_Some in Hst'.
    by apply elem_of_dom. }
  { exists st. split; [|done]. apply own_keys_elem.
    rewrite lookup_fmap, fmap_is_Some. by apply elem_of_dom. }
  exists (<[q := Obj (VNum <$> lm)]> h1), lm.
  assert (Hr' : read_file (<[q := Obj (VNum <$> lm)]> h1) (VRef p)
                = Some (with_l r (Some lm))) by (by apply read_file_derived).
  split; [|split; [done|by eapply addDerivedInfoForFile_guard]].
  unfold addDerivedInfoForFile.
  erewrite bind_run by (by eapply get_object). rewrite Hsm. simpl.
  erewrite bind_run by (by eapply get_object). rewrite Hs. simpl.
  erewrite bind_run by (by eapply get_object). rewrite Hvl. simpl.
  erewrite bind_run by reflexivity. fold q.
  erewrite bind_run.
  2:{ apply set_object. by rewrite lookup_insert_ne. }
  rewrite (insert_insert_ne h) by done. fold h1.
  replace (Obj ∅) with (Obj (VNum <$> (∅ : gmap string Z))) by (by rewrite fmap_empty).
  erewrite bind_run.
  2:{ apply Object_keys_object. apply read_object_alloc; [done|].
      by apply read_counts_inv. }
  exact Hloop.
Qed.

(** [addDerivedInfo] on a coverage object whose files all have line
    coverage. *)
Lemma addDerivedInfo_guard_loop coverage files h ks :
  read_object h coverage = Some files →
  (∀ k, k ∈ ks → ∃ fc r, files !! k = Some fc ∧ read_file h fc = Some r ∧
                         is_Some (FileCoverage.l r)) →
  forEach ks (λ k, fileCoverage ← get coverage k; addDerivedInfoForFile fileCoverage) h
  = (Ok tt, h).
Proof.
  intros Hfiles. induction ks as [|k ks IH]; intros Hks; [done|].
  destruct (Hks k) as (fc & r & Hfc & Hr & [lm Hlm]); [left|].
  cbn [forEach]. erewrite bind_run.
  - apply IH. intros k' Hk'. apply Hks. by right.
  - rewrite (bind_run _ _ _ _ _ (get_object _ _ _ k Hfiles)). rewrite Hfc. simpl.
    by eapply addDerivedInfoForFile_guard.
Qed.

(** X11: [toYUICoverage] changes the store on the first call only.  On a
    coverage object of well-formed records a second call returns the same
    object as the first and leaves the store as the first call left it, in
    which [addDerivedInfo] changes nothing any more. *)
Theorem toYUICoverage_again (h : heap) (coverage : val) (files : gmap string val) :
  coverage_of h coverage files →
  ∃ out h',
    toYUICoverage coverage h = (Ok out, h') ∧
    toYUICoverage coverage h' = (Ok out, h') ∧
    addDerivedInfo coverage h' = (Ok tt, h').
Proof.
  intros Hcov.
  destruct (toYUICoverage_returns _ _ _ Hcov) as (out & h' & Hrun & Hfiles' & _).
  destruct (toYUICoverage_result _ _ _ _ _ Hrun Hfiles') as (Hadd & _).
  destruct (addDerivedInfo_lines _ _ _ Hcov) as (h'' & Hadd' & [_ Hall'] & Hder).
  rewrite Hadd in Hadd'. injection Hadd' as <-.
  assert (Hadd2 : addDerivedInfo coverage h' = (Ok tt, h')).
  { unfold addDerivedInfo.
    rewrite (bind_run _ _ _ _ _ (Object_keys_object _ _ _ Hfiles')).
    apply (addDerivedInfo_guard_loop coverage files); [done|].
    intros k [fc Hfc]%own_keys_elem. destruct Hcov as [_ Hall].
    destruct (Hall _ _ Hfc) as (r & Hr & _).
    destruct (Hder _ _ _ Hfc Hr) as (r' & Hr' & lm & -> & _).
    exists fc, (with_l r (Some lm)). split; [done|]. split; [done|]. by eexists. }
  exists out, h'. split; [done|]. split; [|done].
  unfold toYUICoverage in *. cbv zeta in *.
  rewrite (bind_run _ _ _ _ _ Hadd) in Hrun. by rewrite (bind_run _ _ _ _ _ Hadd2).
Qed.

End Proofs.

Lemma addDerivedInfoForFile_fails_partial_witness :
  ∃ h' lm,
    addDerivedInfoForFile (VRef 1) sample_store_missing = (Err TypeError, h') ∧
    read_file h' (VRef 1) = Some (with_l sample_file_missing (Some lm)) ∧
    addDerivedInfoForFile (VRef 1) h' = (Ok tt, h').
Proof.
  apply (addDerivedInfoForFile_fails_partial sample_store_missing (VRef 1)
           sample_file_missing "s2").
  - vm_compute; reflexivity.
  - reflexivity.
  - vm_compute. set_solver.
  - vm_compute. set_solver.
Defined.

Lemma toYUICoverage_again_witness :
  ∃ out h',
    toYUICoverage (VRef 40) sample_store = (Ok out, h') ∧
    toYUICoverage (VRef 40) h' = (Ok out, h') ∧
    addDerivedInfo (VRef 40) h' = (Ok tt, h').
Proof.
  apply (toYUICoverage_again sample_store (VRef 40) {[ "a.js"%string := VRef 1 ]}).
  split; [vm_compute; reflexivity|].
  intros path fc [<- <-]%lookup_singleton_Some. exists sample_file.
  split; [vm_compute; reflexivity|]. split; vm_compute; set_solver.
Defined.

(** ** mergeFileCoverage on records of different shapes *)

Section Proofs.
Context `{!KeyOrder}.

(** X13: when every key of the second record's [s], [f] and [b] is a key of
    the first's, no branch of the second has fewer arms than the first's and
    no sum of two counters is beyond 2^53, [mergeFileCoverage] returns a
    record with the keys of the first: a count is the sum of the two where
    the second has the key and the count of the first where it has not, the
    arms of a branch are the sums with the arms of the second at the same
    index, arms the second has beyond those of the first are left out, and
    there is no [l]. *)
Theorem mergeFileCoverage_keeps_keys_of_first (h : heap) (first second : val)
    (a b : FileCoverage.t) (text : json) :
  read_file h first = Some a →
  read_file h second = Some b →
  JSON_stringify first h = (Ok (Some text), h) →
  dom (FileCoverage.s b) ⊆ dom (FileCoverage.s a) →
  dom (FileCoverage.f b) ⊆ dom (FileCoverage.f a) →
  dom (FileCoverage.b b) ⊆ dom (FileCoverage.b a) →
  arms_fit (FileCoverage.b a) (FileCoverage.b b) →
  small_sums a b →
  ∃ ret h' r,
    mergeFileCoverage first second h = (Ok ret, h') ∧
    read_file h' ret = Some r ∧
    FileCoverage.s r = add_onto Z.add (FileCoverage.s a) (FileCoverage.s b) ∧
    FileCoverage.f r = add_onto Z.add (FileCoverage.f a) (FileCoverage.f b) ∧
    FileCoverage.b r
    = add_onto (zip_with Z.add) (FileCoverage.b a) (FileCoverage.b b) ∧
    (∀ k x, FileCoverage.s a !! k = Some x → FileCoverage.s b !! k = None →
            FileCoverage.s r !! k = Some x) ∧
    (∀ k xs ys, FileCoverage.b a !! k = Some xs → FileCoverage.b b !! k = Some ys →
                FileCoverage.b r !! k = Some (zip_with Z.add xs (take (length xs) ys))) ∧
    FileCoverage.l r = None.
Proof.
  intros Ha Hb Htext Hds Hdf Hdb Hfit (Hs & Hf & Hbr).
  unfold JSON_stringify in Htext. injection Htext as Htext.
  destruct (mergeFileCoverage_run_any h first second a b text Ha Hb Htext Hds Hdf Hfit)
    as [Hok _].
  destruct (Hok Hdb) as (ret & h' & Hrun & Hread).
  assert (Hs' : add_onto double_add (FileCoverage.s a) (FileCoverage.s b)
                = add_onto Z.add (FileCoverage.s a) (FileCoverage.s b)).
  { apply (add_onto_exact _ _ (λ c, - 2 ^ 53 ≤ c ≤ 2 ^ 53)); [|done].
    intros x y Hxy. by apply double_add_exact. }
  assert (Hf' : add_onto double_add (FileCoverage.f a) (FileCoverage.f b)
                = add_onto Z.add (FileCoverage.f a) (FileCoverage.f b)).
  { apply (add_onto_exact _ _ (λ c, - 2 ^ 53 ≤ c ≤ 2 ^ 53)); [|done].
    intros x y Hxy. by apply double_add_exact. }
  assert (Hb' : add_onto (zip_with double_add) (FileCoverage.b a) (FileCoverage.b b)
                = add_onto (zip_with Z.add) (FileCoverage.b a) (FileCoverage.b b)).
  { apply (add_onto_exact _ _ (Forall (λ c, - 2 ^ 53 ≤ c ≤ 2 ^ 53))); [|done].
    intros xs ys Hxy. by apply zip_with_double_add_exact. }
  rewrite Hs', Hf', Hb' in Hread.
  eexists ret, h', _. split; [exact Hrun|]. split; [exact Hread|].
  cbn [FileCoverage.s FileCoverage.f FileCoverage.b FileCoverage.l].
  split; [reflexivity|]. split; [reflexivity|]. split; [reflexivity|].
  split; [|split; [|reflexivity]].
  - intros k x Hx Hy. by rewrite add_onto_lookup, Hx, Hy.
  - intros k xs ys Hxs Hys. rewrite add_onto_lookup, Hxs, Hys. simpl.
    by rewrite zip_with_take_r.
Qed.

(** X14: when every key of the second record's [s] and [f] is a key of the
    first's and no branch of the second has fewer arms than the first's, but
    the second record has a branch that the first has not, under a name that
    is none of [Object.prototype], [mergeFileCoverage] throws a TypeError (the
    array of the copy is undefined when its length is read); the store it
    leaves has the objects it had, so both arguments read as before. *)
Theorem mergeFileCoverage_unknown_branch_throws (h : heap) (first second : val)
    (a b : FileCoverage.t) (text : json) (k : string) :
  read_file h first = Some a →
  read_file h second = Some b →
  JSON_stringify first h = (Ok (Some text), h) →
  dom (FileCoverage.s b) ⊆ dom (FileCoverage.s a) →
  dom (FileCoverage.f b) ⊆ dom (FileCoverage.f a) →
  arms_fit (FileCoverage.b a) (FileCoverage.b b) →
  k ∈ dom (FileCoverage.b b) →
  k ∉ dom (FileCoverage.b a) →
  k ∉ Object_prototype_names →
  ∃ h',
    mergeFileCoverage first second h = (Err TypeError, h') ∧
    h ⊆ h' ∧
    read_file h' first = Some a ∧ read_file h' second = Some b.
Proof.
  intros Ha Hb Htext Hds Hdf Hfit Hk Hnk _.
  unfold JSON_stringify in Htext. injection Htext as Htext.
  destruct (mergeFileCoverage_run_any h first second a b text Ha Hb Htext Hds Hdf Hfit)
    as [_ Hfail].
  destruct (Hfail k Hk Hnk) as (h' & Hrun).
  destruct (keeps_mergeFileCoverage h first second h _ h' (extends_refl h) Hrun)
    as [[Hsub _] _].
  exists h'. split; [done|]. split; [done|].
  split; by eapply read_file_extend.
Qed.

End Proofs.

Lemma mergeFileCoverage_keeps_keys_of_first_witness :
  ∃ ret h' r,
    mergeFileCoverage (VRef 1) (VRef 51) sample_store_fewer = (Ok ret, h') ∧
    read_file h' ret = Some r ∧
    FileCoverage.s r
    = add_onto Z.add (FileCoverage.s sample_file) (FileCoverage.s sample_file_fewer) ∧
    FileCoverage.f r
    = add_onto Z.add (FileCoverage.f sample_file) (FileCoverage.f sample_file_fewer) ∧
    FileCoverage.b r
    = add_onto (zip_with Z.add)
        (FileCoverage.b sample_file) (FileCoverage.b sample_file_fewer) ∧
    (∀ k x, FileCoverage.s sample_file !! k = Some x →
            FileCoverage.s sample_file_fewer !! k = None →
            FileCoverage.s r !! k = Some x) ∧
    (∀ k xs ys, FileCoverage.b sample_file !! k = Some xs →
                FileCoverage.b sample_file_fewer !! k = Some ys →
                FileCoverage.b r !! k = Some (zip_with Z.add xs (take (length xs) ys))) ∧
    FileCoverage.l r = None.
Proof.
  eapply (mergeFileCoverage_keeps_keys_of_first sample_store_fewer (VRef 1) (VRef 51)
            sample_file sample_file_fewer).
  - vm_compute; reflexivity.
  - vm_compute; reflexivity.
  - vm_compute; reflexivity.
  - apply (bool_decide_unpack _). vm_compute. exact I.
  - apply (bool_decide_unpack _). vm_compute. exact I.
  - apply (bool_decide_unpack _). vm_compute. exact I.
  - intros k xs ys Hxs Hys.
    destruct (decide (k = "br1"%string)) as [->|Hne].
    + vm_compute in Hxs, Hys. injection Hxs as <-. injection Hys as <-. simpl. lia.
    + unfold sample_file in Hxs. simpl in Hxs.
      rewrite lookup_insert_ne in Hxs by done. by rewrite lookup_empty in Hxs.
  - apply (bool_decide_unpack _). vm_compute. exact I.
Defined.

Lemma mergeFileCoverage_unknown_branch_throws_witness :
  ∃ h',
    mergeFileCoverage (VRef 1) (VRef 61) sample_store_more = (Err TypeError, h') ∧
    sample_store_more ⊆ h' ∧
    read_file h' (VRef 1) = Some sample_file ∧
    read_file h' (VRef 61) = Some sample_file_more.
Proof.
  eapply (mergeFileCoverage_unknown_branch_throws sample_store_more (VRef 1) (VRef 61)
            sample_file sample_file_more _ "br2").
  - vm_compute; reflexivity.
  - vm_compute; reflexivity.
  - vm_compute; reflexivity.
  - apply (bool_decide_unpack _). vm_compute. exact I.
  - apply (bool_decide_unpack _). vm_compute. exact I.
  - intros k xs ys Hxs Hys.
    destruct (decide (k = "br1"%string)) as [->|Hne].
    + vm_compute in Hxs, Hys. injection Hxs as <-. injection Hys as <-. simpl. lia.
    + unfold sample_file in Hxs. simpl in Hxs.
      rewrite lookup_insert_ne in Hxs by done. by rewrite lookup_empty in Hxs.
  - apply (bool_decide_unpack _). vm_compute. exact I.
  - apply (bool_decide_unpack _). vm_compute. exact I.
  - apply (bool_decide_unpack _). vm_compute. exact I.
Defined.

(** ** The summary of merged records *)

Lemma size_filter_le {A B} (P : string * A → Prop) (Q : string * B → Prop)
    `{!∀ x, Decision (P x)} `{!∀ x, Decision (Q x)}
    (m1 : gmap string A) (m2 : gmap string B) :
  (∀ k x, m1 !! k = Some x → P (k, x) → ∃ y, m2 !! k = Some y ∧ Q (k, y)) →
  (size (filter P m1) ≤ size (filter Q m2))%nat.
Proof.
  intros Hsub. rewrite <-!(size_dom (D := gset string)). apply subseteq_size.
  intros k. rewrite !elem_of_dom. intros [x Hx].
  apply map_lookup_filter_Some in Hx as [Hx HP].
  destruct (Hsub k x Hx HP) as (y & Hy & HQ). exists y. by apply map_lookup_filter_Some.
Qed.

Lemma size_same_dom {A B} (m1 : gmap string A) (m2 : gmap string B) :
  dom m1 = dom m2 → size m1 = size m2.
Proof. intros Hdom. by rewrite <-!(size_dom (D := gset string)), Hdom. Qed.

(** Counts that stay above 0 have the same total and cover no less. *)
Lemma simple_totals_mono (m1 m2 : gmap string Z) :
  dom m2 = dom m1 →
  (∀ k c, m1 !! k = Some c → 0 ≤ c ∧ ∃ c', m2 !! k = Some c' ∧ (0 < c → 0 < c')) →
  total (simple_totals m2) = total (simple_totals m1) ∧
  covered (simple_totals m1) ≤ covered (simple_totals m2).
Proof.
  intros Hdom Hle. unfold simple_totals. simpl. split.
  - f_equal. by apply size_same_dom.
  - apply inj_le, size_filter_le. intros k c Hc Hne. simpl in *.
    destruct (Hle k c Hc) as (H0 & c' & Hc' & Hcc'). exists c'. split; [done|]. simpl.
    specialize (Hcc' ltac:(lia)). lia.
Qed.

Lemma sumZ_map_le {A B} (g1 : A → Z) (g2 : B → Z) (m1 : gmap string A) (m2 : gmap string B) :
  dom m1 = dom m2 →
  (∀ k x y, m1 !! k = Some x → m2 !! k = Some y → g1 x ≤ g2 y) →
  sumZ ((λ kv, g1 kv.2) <$> map_to_list m1) ≤ sumZ ((λ kv, g2 kv.2) <$> map_to_list m2).
Proof.
  revert m2. induction m1 as [|k x m1 Hk IH] using map_ind; intros m2 Hdom Hle.
  - rewrite dom_empty_L in Hdom. symmetry in Hdom. apply dom_empty_inv_L in Hdom as ->.
    by rewrite !map_to_list_empty.
  - assert (is_Some (m2 !! k)) as [y Hy].
    { apply elem_of_dom. rewrite <-Hdom, dom_insert_L. set_solver. }
    rewrite <-(insert_delete_id m2 k y Hy).
    rewrite (sumZ_perm _ _ (fmap_Permutation _ _ _ (map_to_list_insert m1 k x Hk))).
    rewrite (sumZ_perm _ _ (fmap_Permutation _ _ _
               (map_to_list_insert (delete k m2) k y (lookup_delete_eq m2 k)))).
    simpl. apply Z.add_le_mono.
    + apply (Hle k); [by rewrite lookup_insert_eq|done].
    + apply IH.
      * rewrite dom_delete_L, <-Hdom, dom_insert_L.
        apply not_elem_of_dom in Hk. clear -Hk. set_solver.
      * intros k' x' y' Hx' Hy'.
        apply lookup_delete_Some in Hy' as [Hne Hy']. apply (Hle k'); [|done].
        by rewrite lookup_insert_ne.
Qed.

Lemma covered_arms_zip (xs ys : list Z) :
  Forall (Z.le 0) xs → Forall (Z.le 0) ys → length xs = length ys →
  length (zip_with double_add xs ys) = length xs ∧
  (length (filter (λ c, (0 < c)%Z) xs)
   ≤ length (filter (λ c, (0 < c)%Z) (zip_with double_add xs ys)))%nat.
Proof.
  intros Hxs. revert ys. induction Hxs as [|x xs Hx Hxs IH]; intros [|y ys] Hys Hlen;
    simplify_eq/=; [done|].
  apply Forall_cons in Hys as [Hy Hys]. destruct (IH ys Hys) as [IH1 IH2]; [done|].
  split; [by rewrite IH1|].
  pose proof (double_add_pos x y Hx Hy).
  rewrite !filter_cons. repeat case_decide; simpl; lia.
Qed.

(** The arms of merged branches: as many, and no fewer covered. *)
Lemma branch_totals_zip (b1 b2 : gmap string (list Z)) :
  length <$> b1 = length <$> b2 →
  map_Forall (λ _ cs, Forall (Z.le 0) cs) b1 →
  map_Forall (λ _ cs, Forall (Z.le 0) cs) b2 →
  total (branch_totals (map_zip_with (zip_with double_add) b1 b2)) = total (branch_totals b1) ∧
  covered (branch_totals b1) ≤ covered (branch_totals (map_zip_with (zip_with double_add) b1 b2)).
Proof.
  intros Hlen H1 H2.
  assert (Hdom : dom b1 = dom b2).
  { by rewrite <-(dom_fmap_L length b1), Hlen, dom_fmap_L. }
  assert (Hzip : ∀ k xs zs, b1 !! k = Some xs →
            map_zip_with (zip_with double_add) b1 b2 !! k = Some zs →
            length zs = length xs ∧
            (length (filter (λ c, (0 < c)%Z) xs) ≤ length (filter (λ c, (0 < c)%Z) zs))%nat).
  { intros k xs zs Hxs Hzs. rewrite map_lookup_zip_with, Hxs in Hzs. simpl in Hzs.
    destruct (b2 !! k) as [ys|] eqn:Hys; simplify_eq/=.
    apply covered_arms_zip; [by eapply H1|by eapply H2|].
    assert ((length <$> b1) !! k = (length <$> b2) !! k) as Hk by (by rewrite Hlen).
    rewrite !lookup_fmap, Hxs, Hys in Hk. by simplify_eq/=. }
  assert (Hd : dom b1 = dom (map_zip_with (zip_with double_add) b1 b2)).
  { rewrite dom_map_zip_with_L, <-Hdom. clear. set_solver. }
  unfold branch_totals. simpl. split.
  - apply Z.le_antisymm.
    + apply (sumZ_map_le (λ zs, Z.of_nat (length zs)) (λ xs, Z.of_nat (length xs))); [done|].
      intros k zs xs Hzs Hxs. destruct (Hzip k xs zs Hxs Hzs). lia.
    + apply (sumZ_map_le (λ xs, Z.of_nat (length xs)) (λ zs, Z.of_nat (length zs))); [done|].
      intros k xs zs Hxs Hzs. destruct (Hzip k xs zs Hxs Hzs). lia.
  - apply (sumZ_map_le (λ xs, Z.of_nat (length (filter (λ c, 0 < c) xs)))
             (λ zs, Z.of_nat (length (filter (λ c, 0 < c) zs)))); [done|].
    intros k xs zs Hxs Hzs. destruct (Hzip k xs zs Hxs Hzs). lia.
Qed.

(** The line coverage of counts that stay above 0: as many lines, and no
    fewer covered. *)
Lemma line_coverage_mono (r m : FileCoverage.t) (lm lm' : gmap string Z) :
  FileCoverage.statementMap m = FileCoverage.statementMap r →
  dom (FileCoverage.s m) = dom (FileCoverage.s r) →
  (∀ k c, FileCoverage.s r !! k = Some c →
          0 ≤ c ∧ ∃ c', FileCoverage.s m !! k = Some c' ∧ (0 < c → 0 < c')) →
  line_coverage r lm → line_coverage m lm' →
  total (simple_totals lm') = total (simple_totals lm) ∧
  covered (simple_totals lm) ≤ covered (simple_totals lm').
Proof.
  intros Hsm Hdom Hle [Hkeys Hmax] [Hkeys' Hmax'].
  assert (Hd : dom lm' = dom lm).
  { apply set_eq. intros key. rewrite Hkeys, Hkeys', Hsm, Hdom. done. }
  unfold simple_totals. simpl. split.
  - f_equal. by apply size_same_dom.
  - apply inj_le, size_filter_le. intros key c Hc Hne. simpl in *.
    assert (key ∈ dom lm) as Hin by (by apply elem_of_dom).
    pose proof Hin as Hin'. rewrite <-Hd in Hin'. apply elem_of_dom in Hin' as [c' Hc'].
    apply Hkeys in Hin as (st & line & _ & _ & ->).
    destruct (Hmax line c Hc) as [(st0 & Hline & Hst0) _].
    destruct (Hle st0 c Hst0) as (H0 & c0 & Hc0 & Hcc0).
    destruct (Hmax' line c' Hc') as [_ Hgreatest].
    rewrite Hsm in Hgreatest. specialize (Hgreatest st0 c0 Hline Hc0).
    exists c'. split; [done|]. simpl. specialize (Hcc0 ltac:(lia)). lia.
Qed.

Section Proofs.
Context `{!KeyOrder}.

(** The summary of a record whose statements are all in the statement map. *)
Lemma summarizeFileCoverage_lines h fc r :
  read_file h fc = Some r →
  dom (FileCoverage.s r) ⊆ dom (FileCoverage.statementMap r) →
  ∃ h' lm,
    summarizeFileCoverage fc h
    = (Ok {| lines := simple_totals lm;
             statements := simple_totals (FileCoverage.s r);
             functions := simple_totals (FileCoverage.f r);
             branches := branch_totals (FileCoverage.b r) |}, h') ∧
    match FileCoverage.l r with
    | Some lm0 => lm = lm0
    | None => line_coverage r lm
    end.
Proof.
  intros Hr Hdom.
  destruct (addDerivedInfoForFile_lines _ _ _ Hr Hdom)
    as (h' & r' & Hrun & Hr' & (lm & -> & Hlm) & _).
  pose proof (summarizeFileCoverage_derived _ _ _ _ Hr' eq_refl) as Hsum.
  exists h', lm. split; [|done].
  unfold summarizeFileCoverage in *. rewrite (bind_run _ _ _ _ _ Hrun).
  erewrite bind_run in Hsum by (by eapply addDerivedInfoForFile_guard). exact Hsum.
Qed.

(** X15: merging never loses coverage.  For two records of the same shape
    without counts below 0, the first with all its statements in the statement
    map, [summarizeFileCoverage] of the record [mergeFileCoverage] returns
    has, for statements, functions and branches, the totals of either record
    and at least as many covered as either; so has it for lines, against the
    line coverage of either record that has the statement map of the
    first. *)
Theorem mergeFileCoverage_never_loses_coverage (h : heap) (first second : val)
    (a b : FileCoverage.t) (text : json) :
  read_file h first = Some a →
  read_file h second = Some b →
  JSON_stringify first h = (Ok (Some text), h) →
  same_shape a b →
  dom (FileCoverage.s a) ⊆ dom (FileCoverage.statementMap a) →
  counted a → counted b →
  ∃ ret h1 sm h2,
    mergeFileCoverage first second h = (Ok ret, h1) ∧
    summarizeFileCoverage ret h1 = (Ok sm, h2) ∧
    ∀ r, r = a ∨ r = b →
      total (statements sm) = total (simple_totals (FileCoverage.s r)) ∧
      covered (simple_totals (FileCoverage.s r)) ≤ covered (statements sm) ∧
      total (functions sm) = total (simple_totals (FileCoverage.f r)) ∧
      covered (simple_totals (FileCoverage.f r)) ≤ covered (functions sm) ∧
      total (branches sm) = total (branch_totals (FileCoverage.b r)) ∧
      covered (branch_totals (FileCoverage.b r)) ≤ covered (branches sm) ∧
      (FileCoverage.statementMap r = FileCoverage.statementMap a →
       ∀ lm, line_coverage r lm →
         total (lines sm) = total (simple_totals lm) ∧
         covered (simple_totals lm) ≤ covered (lines sm)).
Proof.
  intros Ha Hb Htext (Hds & Hdf & Hlen) Hwf (Hsa & Hfa & Hba) (Hsb & Hfb & Hbb).
  unfold JSON_stringify in Htext. injection Htext as Htext.
  destruct (mergeFileCoverage_run h first second a b text Ha Hb Htext Hds Hdf Hlen)
    as (ret & h1 & Hrun & Hret).
  destruct (summarizeFileCoverage_lines h1 ret _ Hret) as (h2 & lm' & Hsum & Hlm').
  { simpl. rewrite dom_map_zip_with_L, <-Hds. clear -Hwf. set_solver. }
  simpl in Hsum, Hlm'.
  eexists ret, h1, _, h2. split; [exact Hrun|]. split; [exact Hsum|].
  cbn [statements functions branches lines].
  assert (Hsum_s : ∀ m1 m2 : gmap string Z, dom m1 = dom m2 →
            map_Forall (λ _ c, 0 ≤ c) m1 → map_Forall (λ _ c, 0 ≤ c) m2 →
            dom (map_zip_with double_add m1 m2) = dom m1 ∧
            ∀ k c, m1 !! k = Some c →
              0 ≤ c ∧ ∃ c', map_zip_with double_add m1 m2 !! k = Some c'
                            ∧ (0 < c → 0 < c')).
  { intros m1 m2 Hd H1 H2. split.
    { rewrite dom_map_zip_with_L, <-Hd. clear. set_solver. }
    intros k c Hc. split; [by eapply H1|].
    assert (is_Some (m2 !! k)) as [c2 Hc2].
    { apply elem_of_dom. rewrite <-Hd. by apply elem_of_dom. }
    exists (double_add c c2). rewrite map_lookup_zip_with, Hc, Hc2. split; [done|].
    specialize (H1 k c Hc). specialize (H2 k c2 Hc2). simpl in H1, H2.
    intros Hpos. apply double_add_pos; lia. }
  assert (Hlen' : length <$> FileCoverage.b b = length <$> FileCoverage.b a) by done.
  intros r [->| ->].
  - destruct (Hsum_s _ _ Hds Hsa Hsb) as [Hd1 Hle1].
    destruct (Hsum_s _ _ Hdf Hfa Hfb) as [Hd2 Hle2].
    destruct (simple_totals_mono _ _ Hd1 Hle1) as [-> ?].
    destruct (simple_totals_mono _ _ Hd2 Hle2) as [-> ?].
    destruct (branch_totals_zip _ _ Hlen Hba Hbb) as [-> ?].
    repeat (split; [first [reflexivity|assumption]|]).
    intros _ lm Hlm. 
    eapply (line_coverage_mono a _ lm lm'); [| | |exact Hlm|exact Hlm'];
      [done|exact Hd1|exact Hle1].
  - rewrite (map_zip_with_comm double_add (FileCoverage.s a)) in * by apply double_add_comm.
    rewrite (map_zip_with_comm double_add (FileCoverage.f a)) by apply double_add_comm.
    rewrite (map_zip_with_comm (zip_with double_add) (FileCoverage.b a))
      by (intros; apply zip_with_comm, double_add_comm).
    destruct (Hsum_s _ _ (eq_sym Hds) Hsb Hsa) as [Hd1 Hle1].
    destruct (Hsum_s _ _ (eq_sym Hdf) Hfb Hfa) as [Hd2 Hle2].
    destruct (simple_totals_mono _ _ Hd1 Hle1) as [-> ?].
    destruct (simple_totals_mono _ _ Hd2 Hle2) as [-> ?].
    destruct (branch_totals_zip _ _ Hlen' Hbb Hba) as [-> ?].
    repeat (split; [first [reflexivity|assumption]|]).
    intros Hsm lm Hlm.
    eapply (line_coverage_mono b _ lm lm'); [| | |exact Hlm|exact Hlm'];
      [by rewrite Hsm|exact Hd1|exact Hle1].
Qed.

End Proofs.

Lemma mergeFileCoverage_never_loses_coverage_witness :
  ∃ ret h1 sm h2,
    mergeFileCoverage (VRef 1) (VRef 21) sample_store = (Ok ret, h1) ∧
    summarizeFileCoverage ret h1 = (Ok sm, h2) ∧
    ∀ r, r = sample_file ∨ r = sample_file_again →
      total (statements sm) = total (simple_totals (FileCoverage.s r)) ∧
      covered (simple_totals (FileCoverage.s r)) ≤ covered (statements sm) ∧
      total (functions sm) = total (simple_totals (FileCoverage.f r)) ∧
      covered (simple_totals (FileCoverage.f r)) ≤ covered (functions sm) ∧
      total (branches sm) = total (branch_totals (FileCoverage.b r)) ∧
      covered (branch_totals (FileCoverage.b r)) ≤ covered (branches sm) ∧
      (FileCoverage.statementMap r = FileCoverage.statementMap sample_file →
       ∀ lm, line_coverage r lm →
         total (lines sm) = total (simple_totals lm) ∧
         covered (simple_totals lm) ≤ covered (lines sm)).
Proof.
  eapply (mergeFileCoverage_never_loses_coverage sample_store (VRef 1) (VRef 21)
            sample_file sample_file_again).
  - vm_compute; reflexivity.
  - vm_compute; reflexivity.
  - vm_compute; reflexivity.
  - vm_compute. repeat split.
  - apply (bool_decide_unpack _). vm_compute. exact I.
  - apply (bool_decide_unpack _). vm_compute. exact I.
  - apply (bool_decide_unpack _). vm_compute. exact I.
Defined.

(** ** toYUICoverage on a function that has no entry in the function map *)

(** A loop that stops at the first step that throws. *)
Lemma foldM_throws {A B} (F : B → A → M B) h e ks k0 :
  (∀ acc k, k ∈ ks → (∃ acc', F acc k h = (Ok acc', h)) ∨ F acc k h = (Err e, h)) →
  k0 ∈ ks → (∀ acc, F acc k0 h = (Err e, h)) →
  ∀ acc, foldM F acc ks h = (Err e, h).
Proof.
  induction ks as [|k ks IH]; intros Hstep Hin Hbad acc.
  { by apply elem_of_nil in Hin. }
  cbn [foldM]. destruct (Hstep acc k) as [[acc' Hok]|Herr]; [left| |].
  - rewrite (bind_run _ _ _ _ _ Hok).
    apply elem_of_cons in Hin as [->|Hin]; [by rewrite Hbad in Hok|].
    apply IH; [|done..]. intros acc0 k' Hk'. apply Hstep. by right.
  - by rewrite (bind_fail _ _ _ _ _ Herr).
Qed.

Section Proofs.
Context `{!KeyOrder}.

(** The loop over the functions of a file throws at a function that the
    function map has not. *)
Lemma foldM_yui_functions_throws h (functions fnMap : val) (f : gmap string Z)
    (fns : gmap string (string * Z)) ks o id :
  read_counts h functions = Some f →
  read_fnMap h fnMap = Some fns →
  id ∈ ks → id ∉ dom fns →
  foldM (λ o k,
           entry ← get fnMap k;
           name ← get entry "name";
           name ← js_add name (VStr ":");
           entry ← get fnMap k;
           line ← get entry "line";
           name ← js_add name line;
           name ← lift (ToString name);
           v ← get functions k;
           let o := YUI.set_functions (<[name := v]> (YUI.functions o)) o in
           let o := YUI.set_coveredFunctions (YUI.coveredFunctions o + 1) o in
           v ← get functions k;
           called ← js_lt (VNum 0) v;
           mret (if called : bool
                 then YUI.set_calledFunctions (YUI.calledFunctions o + 1) o else o))
        o ks h
  = (Err TypeError, h).
Proof.
  intros Hf Hfns Hid Hnid.
  destruct (read_fnMap_inv _ _ _ Hfns) as (fnprops & Hfno & Hdom & _).
  apply (foldM_throws _ h TypeError ks id); [|done|].
  - intros acc k _. destruct (decide (k ∈ dom fns)) as [Hk|Hk].
    + left.
      pose proof (foldM_yui_functions h functions fnMap f fns [k] acc Hf Hfns) as Hone.
      cbn [foldM] in Hone. 
      match type of Hone with
      | _ → (?m ≫= _) h = _ => destruct (m h) as [[acc'|e] h'] eqn:Hm
      end.
      * assert (h' = h) as ->.
        { match type of Hm with
          | ?m h = _ => assert (reads_only m) as Hro by solve_reads_only
          end.
          by eapply Hro. }
        by exists acc'.
      * exfalso. rewrite (bind_fail _ _ _ _ _ Hm) in Hone.
        specialize (Hone ltac:(by intros ? ->%list_elem_of_singleton)). done.
    + right. rewrite (bind_run _ _ _ _ _ (get_object h fnMap _ k Hfno)).
      rewrite <-Hdom in Hk. apply not_elem_of_dom in Hk. by rewrite Hk.
  - intros acc. rewrite (bind_run _ _ _ _ _ (get_object h fnMap _ id Hfno)).
    rewrite <-Hdom in Hnid. apply not_elem_of_dom in Hnid. by rewrite Hnid.
Qed.

(** X16: when [addDerivedInfo] has returned on a coverage object and one of
    its files then counts a function in [f] that its function map [fnMap]
    has not, under a name that is none of [Object.prototype], [toYUICoverage]
    throws a TypeError (the name of an undefined entry is read) and returns no
    object; the store it leaves is the one [addDerivedInfo] has made, with the
    line coverage added. *)
Theorem toYUICoverage_unknown_function_throws (h h1 : heap) (coverage : val)
    (files : gmap string val) (path : string) (fileCoverage : val)
    (r : FileCoverage.t) (id : string) :
  addDerivedInfo coverage h = (Ok tt, h1) →
  coverage_object h1 coverage files →
  files !! path = Some fileCoverage →
  read_file h1 fileCoverage = Some r →
  id ∈ dom (FileCoverage.f r) →
  id ∉ dom (FileCoverage.fnMap r) →
  id ∉ Object_prototype_names →
  toYUICoverage coverage h = (Err TypeError, h1).
Proof.
  intros Hadd [Hfiles Hall] Hpath Hr Hid Hnid _.
  unfold toYUICoverage. cbv zeta.
  rewrite (bind_run _ _ _ _ _ Hadd).
  rewrite (bind_run _ _ _ _ _ (Object_keys_object _ _ _ Hfiles)).
  match goal with
  | |- foldM ?F ?ret ?ks h1 = _ =>
      assert (∀ acc k fc r0, files !! k = Some fc → read_file h1 fc = Some r0 →
                ((∃ acc', F acc k h1 = (Ok acc', h1)) ∨ F acc k h1 = (Err TypeError, h1)) ∧
                (∀ id0, id0 ∈ dom (FileCoverage.f r0) → id0 ∉ dom (FileCoverage.fnMap r0) →
                        F acc k h1 = (Err TypeError, h1))) as Hstep
  end.
  { intros acc k fc r0 Hfc Hr0.
    destruct (read_file_inv _ _ _ Hr0)
      as (props & vsm & vs & vfn & vf & vb & Ho & _ & _ & _ & _
          & Hfn & Hfns & Hf & Hfc' & _ & _ & Hl).
    rewrite (bind_run _ _ _ _ _ (get_object _ _ _ k Hfiles)). rewrite Hfc. simpl.
    rewrite (bind_run _ _ _ _ _ (get_object _ _ _ "l" Ho)).
    destruct (props !! "l"%string) as [vl|] eqn:Hvl; simpl.
    2:{ rewrite (bind_run _ _ _ _ _ (get_object _ _ _ "f" Ho)).
        rewrite (bind_run _ _ _ _ _ (get_object _ _ _ "fnMap" Ho)).
        split; [by right|done]. }
    destruct Hl as (lm & Hvlm & Hlm).
    rewrite (bind_run _ _ _ _ _ (get_object _ _ _ "f" Ho)). rewrite Hf. simpl.
    rewrite (bind_run _ _ _ _ _ (get_object _ _ _ "fnMap" Ho)). rewrite Hfn. simpl.
    rewrite (bind_run _ _ _ _ _ (Object_keys_object _ _ _ (read_counts_inv _ _ _ Hvlm))).
    rewrite (bind_run _ _ _ _ _ (foldM_yui_lines _ _ _ _ _ Hvlm)).
    rewrite (bind_run _ _ _ _ _ (Object_keys_object _ _ _ (read_counts_inv _ _ _ Hfc'))).
    assert (Hthrows : ∀ id0, id0 ∈ dom (FileCoverage.f r0) →
              id0 ∉ dom (FileCoverage.fnMap r0) →
              id0 ∈ own_keys (VNum <$> FileCoverage.f r0)).
    { intros id0 Hin _. apply own_keys_elem. rewrite lookup_fmap, fmap_is_Some.
      by apply elem_of_dom. }
    split.
    - destruct (decide (Forall (λ id0, id0 ∈ dom (FileCoverage.fnMap r0))
                          (own_keys (VNum <$> FileCoverage.f r0)))) as [Hin|Hnin].
      + left. erewrite bind_run; [by eexists|].
        apply foldM_yui_functions; [done..|]. by apply Forall_forall.
      + right. apply not_Forall_Exists in Hnin; [|apply _].
        apply Exists_exists in Hnin as (id0 & Hin0 & Hnin0).
        erewrite bind_fail; [done|]. by eapply foldM_yui_functions_throws.
    - intros id0 Hin0 Hnin0. erewrite bind_fail; [done|].
      eapply foldM_yui_functions_throws; [done..|by apply Hthrows|done]. }
  apply (foldM_throws _ h1 TypeError _ path).
  - intros acc k [fc Hfc]%own_keys_elem.
    destruct (Hall _ _ Hfc) as [r0 Hr0]. by destruct (Hstep acc k fc r0 Hfc Hr0).
  - apply own_keys_elem. by eexists.
  - intros acc. by destruct (Hstep acc path fileCoverage r Hpath Hr) as [_ Hbad]; eapply Hbad.
Qed.

End Proofs.

Lemma toYUICoverage_unknown_function_throws_witness :
  toYUICoverage (VRef 40) sample_store_unnamed = (Err TypeError, sample_store_unnamed_derived).
Proof.
  apply (toYUICoverage_unknown_function_throws sample_store_unnamed
           sample_store_unnamed_derived (VRef 40) {[ "a.js"%string := VRef 1 ]}
           "a.js" (VRef 1) sample_file_unnamed "f2").
  - vm_compute; reflexivity.
  - split; [vm_compute; reflexivity|].
    intros path fc [<- <-]%lookup_singleton_Some. exists sample_file_unnamed.
    vm_compute; reflexivity.
  - reflexivity.
  - vm_compute; reflexivity.
  - apply (bool_decide_unpack _). vm_compute. exact I.
  - apply (bool_decide_unpack _). vm_compute. exact I.
  - apply (bool_decide_unpack _). vm_compute. exact I.
Defined.

(** ** The sample store, run *)

Example toYUICoverage_sample :
  toYUICoverage (VRef 40) sample_store
  = (Ok {[ "a.js"%string := sample_yui ]}, sample_store_derived) ∧
  read_file sample_store_derived (VRef 1) = Some sample_file_derived.
Proof. split; vm_compute; reflexivity. Qed.

Example mergeFileCoverage_sample :
  match mergeFileCoverage (VRef 1) (VRef 21) sample_store with
  | (Ok ret, h') => read_file h' ret
  | (Err _, _) => None
  end = Some sample_file_merged.
Proof. vm_compute; reflexivity. Qed.
